(** * agent.py (hh.ru search helper): a shallow embedding and its properties

    The development follows the layout of the source file:
    text utilities, URL utilities, the browser launcher, the vacancy
    collector, the responder and the free-text interpreter.

    Python [str] values are lists of Unicode code points.  The part of
    the Unicode character database that the program consults
    ([str.lower], [str.isspace], the regular-expression classes) is
    written out for the Basic Latin and basic Cyrillic blocks and taken
    from a [Unicode] record everywhere else, so every statement below
    holds for any such record. *)

From Stdlib Require Import String Ascii List NArith Arith Bool Lia.
Import ListNotations.

Set Implicit Arguments.

(* ------------------------------------------------------------------ *)
(** ** Strings                                                         *)
(* ------------------------------------------------------------------ *)

Definition char := N.
Definition str := list char.
Bind Scope N_scope with char.

Definition str_eqb (a b : str) : bool :=
  if list_eq_dec N.eq_dec a b then true else false.

Definition between (lo c hi : N) : bool := (N.leb lo c) && (N.leb c hi).

(** U+FFFD, what the [replace] error handler of the codec writes. *)
Definition REPLACEMENT : char := 65533%N.

Definition is_cont (b : N) : bool := between 128 b 191.

(** The range of the second byte after the lead byte [b0]
    (well-formed UTF-8 byte sequences). *)
Definition second_ok (b0 b1 : N) : bool :=
  if N.eqb b0 224 then between 160 b1 191
  else if N.eqb b0 237 then between 128 b1 159
  else if N.eqb b0 240 then between 144 b1 191
  else if N.eqb b0 244 then between 128 b1 143
  else is_cont b1.

(** [bytes.decode('utf-8', 'replace')]: every maximal ill-formed
    subsequence becomes one U+FFFD and decoding resumes after it. *)
Fixpoint utf8_decode (bs : list N) : str :=
  match bs with
  | [] => []
  | b0 :: r0 =>
    if N.ltb b0 128 then b0 :: utf8_decode r0
    else if (N.ltb b0 194) || (N.ltb 244 b0) then REPLACEMENT :: utf8_decode r0
    else
      match r0 with
      | [] => [REPLACEMENT]
      | b1 :: r1 =>
        if negb (second_ok b0 b1) then REPLACEMENT :: utf8_decode r0
        else if N.ltb b0 224 then
          ((b0 - 192) * 64 + (b1 - 128))%N :: utf8_decode r1
        else
          match r1 with
          | [] => [REPLACEMENT]
          | b2 :: r2 =>
            if negb (is_cont b2) then REPLACEMENT :: utf8_decode r1
            else if N.ltb b0 240 then
              ((b0 - 224) * 4096 + (b1 - 128) * 64 + (b2 - 128))%N
                :: utf8_decode r2
            else
              match r2 with
              | [] => [REPLACEMENT]
              | b3 :: r3 =>
                if negb (is_cont b3) then REPLACEMENT :: utf8_decode r2
                else
                  ((b0 - 240) * 262144 + (b1 - 128) * 4096
                   + (b2 - 128) * 64 + (b3 - 128))%N :: utf8_decode r3
              end
          end
      end
  end.

Fixpoint bytes_of_string (s : string) : list N :=
  match s with
  | EmptyString => []
  | String a s' => N_of_ascii a :: bytes_of_string s'
  end.

(** String literals of the source, written as in the source. *)
Definition u (s : string) : str := utf8_decode (bytes_of_string s).

Fixpoint startswith (p s : str) : bool :=
  match p, s with
  | [], _ => true
  | _ :: _, [] => false
  | a :: p', b :: s' => N.eqb a b && startswith p' s'
  end.

(** [needle in hay]. *)
Fixpoint contains (needle hay : str) : bool :=
  startswith needle hay ||
  match hay with
  | [] => false
  | _ :: hay' => contains needle hay'
  end.

(** [sep.join(parts)]. *)
Fixpoint join (sep : str) (parts : list str) : str :=
  match parts with
  | [] => []
  | [p] => p
  | p :: ps => p ++ sep ++ join sep ps
  end.

(** [list(dict.fromkeys(l))]: first occurrences, in order. *)
Fixpoint fromkeys (seen l : list str) : list str :=
  match l with
  | [] => []
  | x :: l' =>
    if existsb (str_eqb x) seen then fromkeys seen l'
    else x :: fromkeys (x :: seen) l'
  end.

(* ------------------------------------------------------------------ *)
(** ** The Unicode character database                                  *)
(* ------------------------------------------------------------------ *)

(** What CPython's tables answer outside the blocks written out below. *)
Record Unicode := {
  uni_isspace : char -> bool;          (* Py_UNICODE_ISSPACE *)
  uni_decimal : char -> option N;      (* Py_UNICODE_TODECIMAL *)
  uni_isalnum : char -> bool;          (* Py_UNICODE_ISALNUM *)
  uni_ieq : char -> char -> bool;      (* sre: text char against a
                                          pattern char under re.I *)
  uni_lower : str -> str               (* str.lower *)
}.

(** Basic Latin, U+0400..U+045F (Cyrillic capitals and small letters)
    and U+2013 (the en dash of the source's patterns). *)
Definition basic (c : char) : bool :=
  N.ltb c 128 || between 1024 c 1119 || N.eqb c 8211.

Definition basic_lower (c : char) : char :=
  if between 65 c 90 then (c + 32)%N
  else if between 1024 c 1039 then (c + 80)%N
  else if between 1040 c 1071 then (c + 32)%N
  else c.

Section Chars.
Variable U : Unicode.

Definition isspace (c : char) : bool :=
  if basic c then between 9 c 13 || between 28 c 32
  else uni_isspace U c.

Definition decimal (c : char) : option N :=
  if basic c then (if between 48 c 57 then Some (c - 48)%N else None)
  else uni_decimal U c.

Definition isdecimal (c : char) : bool :=
  match decimal c with Some _ => true | None => false end.

Definition isalnum (c : char) : bool :=
  if basic c then
    between 48 c 57 || between 65 c 90 || between 97 c 122
    || between 1024 c 1119
  else uni_isalnum U c || isdecimal c.

(** A word character of [\b] and [\w]. *)
Definition isword (c : char) : bool := isalnum c || N.eqb c 95.

(** Text character [c] against pattern character [p] under [re.I];
    the patterns of the source are written in lower case. *)
Definition ieq (c p : char) : bool :=
  if basic c then N.eqb (basic_lower c) p else uni_ieq U c p.

Definition lower (s : str) : str :=
  if forallb basic s then map basic_lower s else uni_lower U s.

Fixpoint lstrip (s : str) : str :=
  match s with
  | c :: s' => if isspace c then lstrip s' else s
  | [] => []
  end.

(** [s.strip()]. *)
Definition strip (s : str) : str := rev (lstrip (rev (lstrip s))).

(** [int(s)] on a run of decimal digits. *)
Definition digit_value (c : char) : N :=
  match decimal c with Some d => d | None => 0%N end.

Definition int_of (s : str) : N :=
  fold_left (fun acc c => (acc * 10 + digit_value c)%N) s 0%N.
End Chars.

(* ------------------------------------------------------------------ *)
(** ** Regular expressions ([re])                                      *)
(* ------------------------------------------------------------------ *)

(** The fragment of the pattern language that the source uses: single
    characters and classes, [\d], [\s], [\b], concatenation, alternation,
    [r?], greedy bounded repetition of a single-character item and a
    capturing group. *)
Inductive atom :=
| AChr (c : char)
| ASet (cs : list char)
| ADigit
| ASpace.

Inductive regex :=
| RAtom (a : atom)
| RBound
| REps
| RCat (r1 r2 : regex)
| RAlt (r1 r2 : regex)
| ROpt (r : regex)
| RRep (a : atom) (lo : nat) (hi : option nat)
| RGroup (r : regex).

(** A position in the subject: the character before it and the text
    from it on. *)
Record cursor := Cursor { prev : option char; rest : str }.

(** The text between two positions of one subject. *)
Definition captured (from to : cursor) : str :=
  firstn (length (rest from) - length (rest to)) (rest from).

Arguments captured : simpl never.

Section Matcher.
Variable U : Unicode.
Variable icase : bool.          (* flags=re.I *)

Definition chr_match (p c : char) : bool :=
  if icase then ieq U c p else N.eqb c p.

Definition atom_match (a : atom) (c : char) : bool :=
  match a with
  | AChr p => chr_match p c
  | ASet cs => existsb (fun p => chr_match p c) cs
  | ADigit => isdecimal U c
  | ASpace => isspace U c
  end.

Definition word_at (o : option char) : bool :=
  match o with Some c => isword U c | None => false end.

Definition at_boundary (cur : cursor) : bool :=
  xorb (word_at (prev cur)) (word_at (hd_error (rest cur))).

Definition more (hi : option nat) : bool :=
  match hi with Some O => false | _ => true end.

Definition less (hi : option nat) : option nat :=
  match hi with Some n => Some (pred n) | None => None end.

(** Greedy repetition: as many as allowed first, then fewer. *)
Fixpoint rep (T : Type) (f : char -> bool) (lo : nat) (hi : option nat)
    (p : option char) (s : str) (k : cursor -> option T) : option T :=
  let stop := match lo with O => k (Cursor p s) | S _ => None end in
  match s with
  | c :: s' =>
    if f c && more hi then
      match rep f (pred lo) (less hi) (Some c) s' k with
      | Some x => Some x
      | None => stop
      end
    else stop
  | [] => stop
  end.

(** The backtracking matcher, in continuation-passing style: [g] is
    the text of group 1 so far. *)
Fixpoint rmatch (T : Type) (r : regex) (cur : cursor) (g : option str)
    (k : cursor -> option str -> option T) : option T :=
  match r with
  | RAtom a =>
    match rest cur with
    | c :: s' => if atom_match a c then k (Cursor (Some c) s') g else None
    | [] => None
    end
  | RBound => if at_boundary cur then k cur g else None
  | REps => k cur g
  | RCat r1 r2 => rmatch r1 cur g (fun cur' g' => rmatch r2 cur' g' k)
  | RAlt r1 r2 =>
    match rmatch r1 cur g k with
    | Some x => Some x
    | None => rmatch r2 cur g k
    end
  | ROpt r1 =>
    match rmatch r1 cur g k with
    | Some x => Some x
    | None => k cur g
    end
  | RRep a lo hi =>
    rep (atom_match a) lo hi (prev cur) (rest cur) (fun cur' => k cur' g)
  | RGroup r1 =>
    rmatch r1 cur g (fun cur' _ => k cur' (Some (captured cur cur')))
  end.

(** A match object: where the match ends and [m.group(1)]. *)
Record rematch := Match { m_end : cursor; m_group1 : option str }.

Definition match_at (r : regex) (cur : cursor) : option rematch :=
  rmatch r cur None (fun c g => Some (Match c g)).

Fixpoint search_from (r : regex) (p : option char) (s : str)
    : option rematch :=
  match match_at r (Cursor p s) with
  | Some m => Some m
  | None =>
    match s with
    | [] => None
    | c :: s' => search_from r (Some c) s'
    end
  end.

(** [re.search(r, s)]: the leftmost match. *)
Definition re_search (r : regex) (s : str) : option rematch :=
  search_from r None s.

Definition group1 (m : rematch) : str :=
  match m_group1 m with Some g => g | None => [] end.

(** [re.sub(r, repl, s)], left to right over non-overlapping matches;
    [skip] counts the characters of the current match still to pass.
    An empty match writes [repl] and copies the next character. *)
Fixpoint sub_from (r : regex) (repl : str) (p : option char) (s : str)
    (skip : nat) : str :=
  match skip with
  | S n =>
    match s with
    | [] => []
    | c :: s' => sub_from r repl (Some c) s' n
    end
  | O =>
    match match_at r (Cursor p s) with
    | Some m =>
      match s with
      | [] => repl
      | c :: s' =>
        match length s - length (rest (m_end m)) with
        | O => repl ++ c :: sub_from r repl (Some c) s' 0
        | S n => repl ++ sub_from r repl (Some c) s' n
        end
      end
    | None =>
      match s with
      | [] => []
      | c :: s' => c :: sub_from r repl (Some c) s' 0
      end
    end
  end.

Definition re_sub (r : regex) (repl s : str) : str :=
  sub_from r repl None s 0.
End Matcher.

(** Pattern building blocks. *)
Fixpoint rlit (s : str) : regex :=
  match s with
  | [] => REps
  | [c] => RAtom (AChr c)
  | c :: s' => RCat (RAtom (AChr c)) (rlit s')
  end.

Fixpoint rseq (rs : list regex) : regex :=
  match rs with
  | [] => REps
  | [r] => r
  | r :: rs' => RCat r (rseq rs')
  end.

Fixpoint ralt (rs : list regex) : regex :=
  match rs with
  | [] => REps
  | [r] => r
  | r :: rs' => RAlt r (ralt rs')
  end.

Definition rspaces0 : regex := RRep ASpace 0 None.        (* \s* *)
Definition rspaces1 : regex := RRep ASpace 1 None.        (* \s+ *)
Definition rdigits (lo hi : nat) : regex := RRep ADigit lo (Some hi).


(* ------------------------------------------------------------------ *)
(** ** Text utilities                                                  *)
(* ------------------------------------------------------------------ *)

Section TextUtils.
Variable U : Unicode.

Definition matches (r : regex) (s : str) : bool :=
  match re_search U false r s with Some _ => true | None => false end.

(** [norm_text]: every run of white space becomes one space, then
    [strip()]. *)
Definition norm_text (s : str) : str :=
  strip U (re_sub U false rspaces1 (u " ") s).

End TextUtils.

(* ------------------------------------------------------------------ *)
(** ** The free-text interpreter                                       *)
(* ------------------------------------------------------------------ *)

(** The dictionary that [ai_interpret_user_goal] returns. *)
Record parsed := Parsed {
  query : str;
  want_n : option N;
  area : option N;
  experience : option str;
  remote : bool;
  salary : option N;
  only_with_salary : bool
}.

(** The pattern of [_extract_int]: [\b(\d{1,2})\b]. *)
Definition re_int : regex :=
  rseq [RBound; RGroup (rdigits 1 2); RBound].

(** [\b1\s*[-–]\s*3\b] *)
Definition re_1_3 : regex :=
  rseq [RBound; rlit (u "1"); rspaces0; RAtom (ASet (u "-–")); rspaces0;
        rlit (u "3"); RBound].

(** [\b3\s*[-–]\s*6\b] *)
Definition re_3_6 : regex :=
  rseq [RBound; rlit (u "3"); rspaces0; RAtom (ASet (u "-–")); rspaces0;
        rlit (u "6"); RBound].

(** [\b6\+\b|\bболее\s*6\b] *)
Definition re_6_plus : regex :=
  RAlt (rseq [RBound; rlit (u "6+"); RBound])
       (rseq [RBound; rlit (u "более"); rspaces0; rlit (u "6"); RBound]).

(** [m_sal]: an optional [от] with spaces after it, then
    [(\d{2,3})\s*(?:к|k)\b]. *)
Definition re_sal : regex :=
  rseq [ROpt (RCat (rlit (u "от")) rspaces0); RGroup (rdigits 2 3); rspaces0;
        RAlt (rlit (u "к")) (rlit (u "k")); RBound].

(** [m_sal2]: an optional [от] with spaces after it, then [(\d{5,6})\b]. *)
Definition re_sal2 : regex :=
  rseq [ROpt (RCat (rlit (u "от")) rspaces0); RGroup (rdigits 5 6); RBound].

(** [\b(открой|открыть|hh|hh\.ru|хх|хх\.ру|найди|найти|покажи|ваканси[яи]|с фильтрами|по фильтрам)\b],
    used with [flags=re.I]. *)
Definition re_filler : regex :=
  rseq [RBound;
        RGroup (ralt [rlit (u "открой"); rlit (u "открыть"); rlit (u "hh");
                      rlit (u "hh.ru"); rlit (u "хх"); rlit (u "хх.ру");
                      rlit (u "найди"); rlit (u "найти"); rlit (u "покажи");
                      RCat (rlit (u "ваканси")) (RAtom (ASet (u "яи")));
                      rlit (u "с фильтрами"); rlit (u "по фильтрам")]);
        RBound].

Definition DEFAULT_QUERY : str := u "Python разработчик".

Section Interpreter.
Variable U : Unicode.

(** [any(x in tl for x in words)] *)
Definition any_in (words : list str) (tl : str) : bool :=
  existsb (fun x => contains x tl) words.

Definition _extract_int (text : str) : option N :=
  match re_search U false re_int text with
  | None => None
  | Some m => Some (int_of U (group1 m))
  end.

Definition detect_area (tl : str) : option N :=
  if contains (u "моск") tl then Some 1%N
  else if contains (u "питер") tl || contains (u "спб") tl
          || contains (u "санкт-петер") tl then Some 2%N
  else if contains (u "росси") tl || contains (u "рф") tl then Some 113%N
  else None.

Definition detect_experience (tl : str) : option str :=
  let experience :=
    if any_in [u "без опыта"; u "стажер"; u "стажёр"; u "intern"; u "junior";
               u "джун"] tl then Some (u "noExperience")
    else if any_in [u "middle"; u "мидл"; u "мид"] tl
    then Some (u "between1And3")
    else if any_in [u "senior"; u "сеньор"; u "синьор"; u "lead"; u "лид"] tl
    then Some (u "between3And6")
    else None in
  let experience :=
    if matches U re_1_3 tl then Some (u "between1And3") else experience in
  let experience :=
    if matches U re_3_6 tl then Some (u "between3And6") else experience in
  let experience :=
    if matches U re_6_plus tl then Some (u "moreThan6") else experience in
  experience.

Definition detect_remote (tl : str) : bool :=
  any_in [u "удален"; u "удалён"; u "remote"; u "из дома"] tl.

Definition detect_salary (tl : str) : option N :=
  match re_search U false re_sal tl with
  | Some m_sal => Some (int_of U (group1 m_sal) * 1000)%N
  | None =>
    match re_search U false re_sal2 tl with
    | Some m_sal2 => Some (int_of U (group1 m_sal2))
    | None => None
    end
  end.

Definition salary_words : list str :=
  [u "только с зп"; u "только с зарплат"; u "с зарплатой";
   u "only_with_salary"].

Definition detect_only_with_salary (salary : option N) (tl : str) : bool :=
  match salary with
  | Some _ => any_in salary_words tl
  | None => false
  end.

Definition role_bits (tl : str) : list str :=
  (if contains (u "python") tl || contains (u "питон") tl
   then [u "Python"] else [])
  ++ (if contains (u "backend") tl || contains (u "бэкенд") tl
         || contains (u "бекенд") tl then [u "backend"] else [])
  ++ (if contains (u "django") tl then [u "Django"] else [])
  ++ (if contains (u "fastapi") tl then [u "FastAPI"] else [])
  ++ (if contains (u "asyncio") tl then [u "asyncio"] else []).

Definition raw_query (t tl : str) : str :=
  match role_bits tl with
  | [] => t
  | bits => join (u " ") (fromkeys [] bits) ++ u " разработчик"
  end.

Definition build_query (t tl : str) : str :=
  let query := raw_query t tl in
  let query := re_sub U true re_filler (u " ") query in
  let query := norm_text U query in
  match query with
  | [] => DEFAULT_QUERY
  | _ => query
  end.

Definition ai_interpret_user_goal (user_text : str) : parsed :=
  let t := norm_text U user_text in
  let tl := lower U t in
  let want_n := _extract_int tl in
  let area := detect_area tl in
  let experience := detect_experience tl in
  let remote := detect_remote tl in
  let salary := detect_salary tl in
  let only_with_salary := detect_only_with_salary salary tl in
  let query := build_query t tl in
  Parsed query want_n area experience remote salary only_with_salary.

End Interpreter.

(** A database that knows nothing beyond the blocks written out above:
    enough for texts in Latin and Russian letters. *)
Definition plain : Unicode :=
  {| uni_isspace := fun _ => false;
     uni_decimal := fun _ => None;
     uni_isalnum := fun _ => false;
     uni_ieq := N.eqb;
     uni_lower := fun s => s |}.

(* ------------------------------------------------------------------ *)
(** ** URL utilities ([urllib.parse] of CPython 3.11)                  *)
(* ------------------------------------------------------------------ *)

Definition nonempty (s : str) : bool :=
  match s with [] => false | _ :: _ => true end.

(** [c in s] for a single character. *)
Definition in_str (c : char) (s : str) : bool := existsb (N.eqb c) s.

(** [s.replace(a, b)] for single characters. *)
Definition replace_char (a b : char) (s : str) : str :=
  map (fun c => if N.eqb c a then b else c) s.

(** [s.split(sep)] for a single character. *)
Fixpoint split_on (sep : char) (s : str) : list str :=
  match s with
  | [] => [[]]
  | c :: s' =>
    if N.eqb c sep then [] :: split_on sep s'
    else
      match split_on sep s' with
      | p :: ps => (c :: p) :: ps
      | [] => [[c]]
      end
  end.

(** [s.split(sep, 1)] when [sep in s]: the text before the first [sep]
    and the text after it. *)
Fixpoint split1 (sep : char) (s : str) : option (str * str) :=
  match s with
  | [] => None
  | c :: s' =>
    if N.eqb c sep then Some ([], s')
    else
      match split1 sep s' with
      | Some (a, b) => Some (c :: a, b)
      | None => None
      end
  end.

(** The longest prefix whose characters satisfy [f], and the rest. *)
Fixpoint span (f : char -> bool) (s : str) : str * str :=
  match s with
  | c :: s' =>
    if f c then let (a, b) := span f s' in (c :: a, b) else ([], s)
  | [] => ([], [])
  end.

(** [str.encode('utf-8')], strict: [None] is UnicodeEncodeError
    (a surrogate; values from 0x110000 on are no characters). *)
Definition utf8_encode_char (c : char) : option (list N) :=
  if N.ltb c 128 then Some [c]
  else if N.ltb c 2048 then Some [192 + c / 64; 128 + c mod 64]%N
  else if N.ltb c 65536 then
    if between 55296 c 57343 then None
    else Some [224 + c / 4096; 128 + (c / 64) mod 64; 128 + c mod 64]%N
  else if N.ltb c 1114112 then
    Some [240 + c / 262144; 128 + (c / 4096) mod 64;
          128 + (c / 64) mod 64; 128 + c mod 64]%N
  else None.

Fixpoint utf8_encode (s : str) : option (list N) :=
  match s with
  | [] => Some []
  | c :: s' =>
    match utf8_encode_char c, utf8_encode s' with
    | Some a, Some b => Some (a ++ b)
    | _, _ => None
    end
  end.

(** One digit of ['%{:02X}'.format(b)]. *)
Definition hexdigit (n : N) : char :=
  if N.ltb n 10 then (48 + n)%N else (55 + n)%N.

(** The value of a character of [_hexdig]. *)
Definition hexval (c : char) : option N :=
  if between 48 c 57 then Some (c - 48)%N
  else if between 65 c 70 then Some (c - 55)%N
  else if between 97 c 102 then Some (c - 87)%N
  else None.

(** [_ALWAYS_SAFE] *)
Definition always_safe (b : N) : bool :=
  between 65 b 90 || between 97 b 122 || between 48 b 57
  || in_str b (u "_.-~").

Definition quote_byte (safe : str) (b : N) : str :=
  if always_safe b || in_str b safe then [b]
  else [37%N; hexdigit (b / 16); hexdigit (b mod 16)].

(** [quote(s, safe)] *)
Definition quote (safe s : str) : option str :=
  match utf8_encode s with
  | Some bs => Some (flat_map (quote_byte safe) bs)
  | None => None
  end.

(** [quote_plus(s)] *)
Definition quote_plus (s : str) : option str :=
  if in_str 32 s
  then option_map (replace_char 32 43) (quote [32%N] s)
  else quote [] s.

(** [unquote_to_bytes] on a run of ASCII characters. *)
Fixpoint unquote_to_bytes (s : str) : list N :=
  match s with
  | [] => []
  | c :: s' =>
    if N.eqb c 37 then
      match s' with
      | h1 :: h2 :: r =>
        match hexval h1, hexval h2 with
        | Some a, Some b => (16 * a + b)%N :: unquote_to_bytes r
        | _, _ => 37%N :: unquote_to_bytes s'
        end
      | _ => 37%N :: unquote_to_bytes s'
      end
    else c :: unquote_to_bytes s'
  end.

(** The loop of [unquote] over the pieces of [_asciire.split]: runs of
    ASCII characters are unquoted and decoded, the other characters are
    kept; [run] is the current ASCII run, last character first. *)
Fixpoint unquote_runs (s run : str) : str :=
  match s with
  | [] => utf8_decode (unquote_to_bytes (rev run))
  | c :: s' =>
    if N.ltb c 128 then unquote_runs s' (c :: run)
    else utf8_decode (unquote_to_bytes (rev run)) ++ c :: unquote_runs s' []
  end.

(** [unquote(s)] with the defaults [utf-8], [replace]. *)
Definition unquote (s : str) : str :=
  if in_str 37 s then unquote_runs s [] else s.

Definition parse_pair (name_value : str) : str * str :=
  let nv :=
    match split1 61%N name_value with
    | Some nv => nv
    | None => (name_value, [])
    end in
  (unquote (replace_char 43 32 (fst nv)),
   unquote (replace_char 43 32 (snd nv))).

(** [parse_qsl(qs, keep_blank_values=True)] *)
Definition parse_qsl (qs : str) : list (str * str) :=
  match qs with
  | [] => []
  | _ => map parse_pair (filter nonempty (split_on 38 qs))
  end.

(** A [dict] with string keys: the items in insertion order. *)
Definition dict := list (str * str).

(** [d[k] = v] *)
Fixpoint dict_set (d : dict) (k v : str) : dict :=
  match d with
  | [] => [(k, v)]
  | (k', v') :: d' =>
    if str_eqb k' k then (k', v) :: d' else (k', v') :: dict_set d' k v
  end.

(** [dict(items)] *)
Definition dict_of (items : list (str * str)) : dict :=
  fold_left (fun d kv => dict_set d (fst kv) (snd kv)) items [].

Fixpoint urlencode_items (d : dict) : option (list str) :=
  match d with
  | [] => Some []
  | (k, v) :: d' =>
    match quote_plus k, quote_plus v, urlencode_items d' with
    | Some qk, Some qv, Some l => Some ((qk ++ 61%N :: qv) :: l)
    | _, _, _ => None
    end
  end.

(** [urlencode(d, doseq=True)] for a dict of strings. *)
Definition urlencode (d : dict) : option str :=
  option_map (join [38%N]) (urlencode_items d).

Record SplitResult := {
  sr_scheme : str;
  sr_netloc : str;
  sr_path : str;
  sr_query : str;
  sr_fragment : str
}.

Definition scheme_chars : str :=
  u "abcdefghijklmnopqrstuvwxyzABCDEFGHIJKLMNOPQRSTUVWXYZ0123456789+-.".

Definition uses_netloc : list str :=
  [] :: map u ["ftp"; "http"; "gopher"; "nntp"; "telnet"; "imap"; "wais";
               "file"; "mms"; "https"; "shttp"; "snews"; "prospero"; "rtsp";
               "rtspu"; "rsync"; "svn"; "svn+ssh"; "sftp"; "nfs"; "git";
               "git+ssh"; "ws"; "wss"]%string.

(** [url.lstrip(_WHATWG_C0_CONTROL_OR_SPACE)] *)
Fixpoint lstrip_c0 (s : str) : str :=
  match s with
  | c :: s' => if N.leb c 32 then lstrip_c0 s' else s
  | [] => []
  end.

Definition is_ascii_alpha (c : char) : bool :=
  between 65 c 90 || between 97 c 122.

(** The scheme of [url] and the text after its colon, when the text
    before the first colon is a scheme. *)
Definition split_scheme (url : str) : str * str :=
  match split1 58 url with
  | Some (a, b) =>
    match a with
    | c :: _ =>
      if is_ascii_alpha c && forallb (fun c => in_str c scheme_chars) a
      then (map basic_lower a, b)
      else ([], url)
    | [] => ([], url)
    end
  | None => ([], url)
  end.

Section UrlSplit.
(** The two host-name checks of [urlsplit] consult [ipaddress] and
    [unicodedata]; they are asked only where the code below asks. *)
Variable bracketed_ok : str -> bool.   (* _check_bracketed_netloc passes *)
Variable nfkc_ok : str -> bool.        (* the NFKC test of _checknetloc *)

(** [urlsplit(url)]; [None] is ValueError. *)
Definition urlsplit (url : str) : option SplitResult :=
  let url := lstrip_c0 url in
  let url := filter (fun c => negb (in_str c [9; 13; 10]%N)) url in
  let (scheme, url) := split_scheme url in
  let '(netloc, url, brackets) :=
    if startswith (u "//") url then
      let (netloc, rest) :=
        span (fun c => negb (in_str c (u "/?#"))) (skipn 2 url) in
      let lb := in_str 91 netloc in
      let rb := in_str 93 netloc in
      (netloc, rest,
       if xorb lb rb then false
       else if lb && rb then bracketed_ok netloc else true)
    else ([], url, true) in
  let (url, fragment) :=
    match split1 35 url with Some ab => ab | None => (url, []) end in
  let (url, query) :=
    match split1 63 url with Some ab => ab | None => (url, []) end in
  let checked :=
    negb (nonempty netloc) || forallb (fun c => N.ltb c 128) netloc
    || nfkc_ok netloc in
  if brackets && checked
  then Some {| sr_scheme := scheme; sr_netloc := netloc; sr_path := url;
               sr_query := query; sr_fragment := fragment |}
  else None.

(** [urlunsplit((scheme, netloc, url, query, fragment))] *)
Definition urlunsplit (scheme netloc url query fragment : str) : str :=
  let url :=
    if nonempty netloc
       || (nonempty scheme && existsb (str_eqb scheme) uses_netloc
           && negb (startswith (u "//") url))
    then
      let url :=
        if nonempty url && negb (startswith (u "/") url)
        then u "/" ++ url else url in
      u "//" ++ netloc ++ url
    else url in
  let url := if nonempty scheme then scheme ++ u ":" ++ url else url in
  let url := if nonempty query then url ++ u "?" ++ query else url in
  let url := if nonempty fragment then url ++ u "#" ++ fragment else url in
  url.

(** [None] when [urlsplit] or [urlencode] raises. *)
Definition set_query_param (url key value : str) : option str :=
  match urlsplit url with
  | None => None
  | Some parts =>
    let q := dict_of (parse_qsl (sr_query parts)) in
    let q := dict_set q key value in
    match urlencode q with
    | None => None
    | Some new_query =>
      Some (urlunsplit (sr_scheme parts) (sr_netloc parts) (sr_path parts)
                       new_query (sr_fragment parts))
    end
  end.

Definition ITEMS_ON_PAGE : nat := 20.
Definition MAX_LINKS_SCAN : nat := 260.

Fixpoint digits (fuel : nat) (n : N) (acc : str) : str :=
  match fuel with
  | O => acc
  | S fuel' =>
    let acc := (48 + n mod 10)%N :: acc in
    if N.ltb n 10 then acc else digits fuel' (n / 10) acc
  end.

(** The decimal text of a natural number. *)
Definition str_of_N (n : N) : str := digits (S (N.to_nat (N.log2 n))) n [].

(** [sys.get_int_max_str_digits()], as CPython 3.11 starts with. *)
Definition MAX_STR_DIGITS : nat := 4300.

(** [str(n)]: [None] is the ValueError that CPython 3.11 raises when the
    text would have more than [MAX_STR_DIGITS] digits. *)
Definition str_int (n : N) : option str :=
  if length (str_of_N n) <=? MAX_STR_DIGITS then Some (str_of_N n) else None.

Definition bind_opt (A B : Type) (m : option A) (k : A -> option B)
    : option B :=
  match m with Some a => k a | None => None end.

Definition build_search_url (query : str) (page : N) (area : option N)
    (experience : option str) (remote : bool) (salary : option N)
    (only_with_salary : bool) : option str :=
  bind_opt (quote_plus query) (fun q =>
  let base := u "https://hh.ru/search/vacancy?text=" ++ q
              ++ u "&items_on_page=" ++ str_of_N (N.of_nat ITEMS_ON_PAGE)
              ++ u "&no_magic=true" in
  bind_opt (match area with
            | Some a =>
              bind_opt (str_int a) (set_query_param base (u "area"))
            | None => Some base
            end) (fun base =>
  bind_opt (match experience with
            | Some ((_ :: _) as e) => set_query_param base (u "experience") e
            | _ => Some base
            end) (fun base =>
  bind_opt (if remote
            then set_query_param base (u "schedule") (u "remote")
            else Some base) (fun base =>
  bind_opt (match salary with
            | Some n =>
              bind_opt (str_int n) (set_query_param base (u "salary"))
            | None => Some base
            end) (fun base =>
  bind_opt (if only_with_salary
            then set_query_param base (u "only_with_salary") (u "true")
            else Some base) (fun base =>
  bind_opt (str_int page) (set_query_param base (u "page")))))))).

End UrlSplit.

(* ------------------------------------------------------------------ *)
(** ** Effects                                                         *)
(* ------------------------------------------------------------------ *)

(** What a call does: raise or return. *)
Inductive result (E A : Type) :=
| Raise (e : E)
| Return (a : A).

Arguments Raise {E A} e.
Arguments Return {E A} a.

(** A computation over the log of the calls made so far (latest first);
    the outside world answers each call from the log. *)
Definition io (Ev E A : Type) : Type := list Ev -> list Ev * result E A.

Definition ret (Ev E A : Type) (a : A) : io Ev E A :=
  fun log => (log, Return a).

Arguments ret {Ev E A} a.

Definition bind (Ev E A B : Type) (m : io Ev E A) (k : A -> io Ev E B)
    : io Ev E B :=
  fun log =>
    match m log with
    | (log', Return a) => k a log'
    | (log', Raise e) => (log', Raise e)
    end.

(** [try: m  except Exception as e: handler(e)] *)
Definition try_except (Ev E A : Type) (m : io Ev E A) (handler : E -> io Ev E A)
    : io Ev E A :=
  fun log =>
    match m log with
    | (log', Return a) => (log', Return a)
    | (log', Raise e) => handler e log'
    end.

Notation "x <- m ;; k" := (bind m (fun x => k))
  (at level 61, m at next level, right associativity).
Notation "m ;;; k" := (bind m (fun _ => k))
  (at level 61, right associativity).

(* ------------------------------------------------------------------ *)
(** ** Launching the browser                                           *)
(* ------------------------------------------------------------------ *)

Inductive launch_error := RuntimeError (message : str).

Section Launcher.
Variable Exc : Type.                (* the exceptions the system raises *)
Variable Ctx : Type.                (* BrowserContext *)
Variable exc_name : Exc -> str.     (* type(e).__name__ *)
Variable exc_str : Exc -> str.      (* str(e) *)
Variable YANDEX_PATH : str.
Variable PROFILE_DIR : str.
Variable FALLBACK_PROFILE_DIR : str.

(** The calls of the launcher, each with its answer. *)
Inductive sys_event :=
| SExists (path : str) (answer : bool)
| SRmtree (path : str)
| SMakedirs (path : str) (raised : option Exc)
| SPrint (line : str)
| SLaunch (user_data_dir : str) (executable_path : option str)
          (answer : result Exc Ctx)
| SSleep.

(** The file system and Playwright: the answer to a call, given the log. *)
Record system := {
  sys_exists : list sys_event -> str -> bool;
  sys_makedirs : list sys_event -> str -> option Exc;
  sys_launch : list sys_event -> str -> option str -> result Exc Ctx
}.

Variable S : system.

Definition sio (A : Type) : Type := io sys_event Exc A.

Definition os_path_exists (path : str) : sio bool :=
  fun log => let b := sys_exists S log path in (SExists path b :: log, Return b).

(** [shutil.rmtree(path, ignore_errors=True)] *)
Definition rmtree (path : str) : sio unit :=
  fun log => (SRmtree path :: log, Return tt).

(** [os.makedirs(path, exist_ok=True)] *)
Definition os_makedirs (path : str) : sio unit :=
  fun log =>
    let r := sys_makedirs S log path in
    (SMakedirs path r :: log,
     match r with Some e => Raise e | None => Return tt end).

Definition print (line : str) : sio unit :=
  fun log => (SPrint line :: log, Return tt).

Definition sleep : sio unit :=
  fun log => (SSleep :: log, Return tt).

Definition launch_persistent_context (user_data_dir : str)
    (executable_path : option str) : sio Ctx :=
  fun log =>
    let r := sys_launch S log user_data_dir executable_path in
    (SLaunch user_data_dir executable_path r :: log, r).

Definition ensure_dir_clean (path : str) : sio unit :=
  present <- os_path_exists path ;;
  (if present then rmtree path else ret tt) ;;;
  os_makedirs path.

Definition _launch_once (user_data_dir : str) (use_yandex : bool) : sio Ctx :=
  executable_path <-
    (if use_yandex
     then present <- os_path_exists YANDEX_PATH ;;
          ret (if present then Some YANDEX_PATH else None)
     else ret None) ;;
  launch_persistent_context user_data_dir executable_path.

(** (name, profile_dir, use_yandex, fresh) *)
Record attempt := Attempt {
  at_name : str;
  at_profile_dir : str;
  at_use_yandex : bool;
  at_fresh : bool
}.

Definition attempts : list attempt :=
  [Attempt (u "Chromium main profile") PROFILE_DIR false false;
   Attempt (u "Chromium fresh fallback") FALLBACK_PROFILE_DIR false true;
   Attempt (u "Yandex fresh fallback") FALLBACK_PROFILE_DIR true true].

(** The body of the [try] of one attempt. *)
Definition launch_attempt (a : attempt) : sio Ctx :=
  (if at_fresh a then ensure_dir_clean (at_profile_dir a)
   else os_makedirs (at_profile_dir a)) ;;;
  print (u "[info] Launch attempt: " ++ at_name a ++ u " | profile="
         ++ at_profile_dir a) ;;;
  ctx <- _launch_once (at_profile_dir a) (at_use_yandex a) ;;
  print (u "[ok] Browser context launched.") ;;;
  ret ctx.

(** The [except] branch of one attempt. *)
Definition launch_failed (a : attempt) (e : Exc) : sio unit :=
  print (u "[warn] Launch failed: " ++ at_name a ++ [10; 32; 32; 32; 32; 32; 32; 32]%N
         ++ exc_name e ++ u ": " ++ exc_str e ++ [10%N]) ;;;
  sleep.

(** [f"{last_exc}"] *)
Definition show_last (last_exc : option Exc) : str :=
  match last_exc with Some e => exc_str e | None => u "None" end.

Definition all_failed_message (last_exc : option Exc) : str :=
  u "Не удалось запустить браузер ни одним способом. Последняя ошибка: "
  ++ show_last last_exc.

(** The [for] loop of [launch_context_robust] and the [raise] after it. *)
Fixpoint launch_loop (l : list attempt) (last_exc : option Exc)
    (log : list sys_event) : list sys_event * result launch_error Ctx :=
  match l with
  | [] => (log, Raise (RuntimeError (all_failed_message last_exc)))
  | a :: l' =>
    match launch_attempt a log with
    | (log', Return ctx) => (log', Return ctx)
    | (log', Raise e) =>
      launch_loop l' (Some e) (fst (launch_failed a e log'))
    end
  end.

Definition launch_context_robust
    : list sys_event -> list sys_event * result launch_error Ctx :=
  launch_loop attempts None.

End Launcher.

(* ------------------------------------------------------------------ *)
(** ** hh.ru pages                                                     *)
(* ------------------------------------------------------------------ *)

Record Vacancy := {
  title : str;
  url : str;
  snippet : str
}.

(** *** Collecting the vacancies of a search page *)

(** One [a[href*='/vacancy/']] element of the page, as the three calls
    the collector makes on it answer: [None] stands for an exception. *)
Record anchor := {
  a_href : option (option str);   (* a.get_attribute("href") *)
  a_text : option str;            (* a.inner_text(timeout=800) *)
  a_card : option str             (* the inner_text of the enclosing card *)
}.

(** The search page while it is scanned. *)
Record search_page := {
  sp_appeared : bool;             (* wait_for_selector returned *)
  sp_anchors : list anchor
}.

Section Collector.
Variable U : Unicode.

(** The first steps of the loop body: the canonical address of an
    anchor, when it has one. *)
Definition canonical (a : anchor) : option str :=
  match a_href a with
  | None => None
  | Some attr =>
    let href := match attr with Some h => h | None => [] end in
    if negb (contains (u "/vacancy/") href) then None
    else
      let href :=
        if startswith (u "/") href then u "https://hh.ru" ++ href else href in
      Some (hd [] (split_on 63 href))
  end.

(** The rest of the loop body: the record built from an anchor whose
    address [href] is new, when its title is not empty. *)
Definition record_of (a : anchor) (href : str) : option Vacancy :=
  match a_text a with
  | None => None
  | Some text =>
    match norm_text U text with
    | [] => None
    | title =>
      let snippet :=
        match a_card a with
        | Some card => firstn 450 (norm_text U card)
        | None => []
        end in
      Some {| title := title; url := href; snippet := snippet |}
    end
  end.

(** The [for] loop; [seen] is the set of addresses met so far. *)
Fixpoint scan (l : list anchor) (seen : list str) (vacancies : list Vacancy)
    : list Vacancy :=
  match l with
  | [] => vacancies
  | a :: l' =>
    match canonical a with
    | None => scan l' seen vacancies
    | Some href =>
      if existsb (str_eqb href) seen then scan l' seen vacancies
      else
        let seen := href :: seen in
        match record_of a href with
        | None => scan l' seen vacancies
        | Some v =>
          let vacancies := vacancies ++ [v] in
          if ITEMS_ON_PAGE <=? length vacancies then vacancies
          else scan l' seen vacancies
        end
    end
  end.

Definition collect_vacancies_from_search (page : search_page)
    : list Vacancy :=
  if negb (sp_appeared page) then []
  else scan (firstn MAX_LINKS_SCAN (sp_anchors page)) [] [].

End Collector.

(** *** Responding to a vacancy *)

Section Responder.
Variable PwExc : Type.              (* the exceptions Playwright raises *)

(** The calls on the page, each with its answer. *)
Inductive page_event :=
| PGoto (address : str) (raised : option PwExc)
| PWaitLoadState (timeout : N) (raised : option PwExc)
| PWaitTimeout (ms : N) (raised : option PwExc)
| PIsVisible (sel : str) (timeout : N) (answer : result PwExc bool)
| PClick (sel : str) (timeout : N) (raised : option PwExc)
| PFill (sel : str) (value : str) (timeout : N) (raised : option PwExc)
| PPrint (line : str).

(** The browser: the answer to a call, given the log. *)
Record browser := {
  br_goto : list page_event -> str -> option PwExc;
  br_wait_load_state : list page_event -> N -> option PwExc;
  br_wait_for_timeout : list page_event -> N -> option PwExc;
  br_is_visible : list page_event -> str -> N -> result PwExc bool;
  br_click : list page_event -> str -> N -> option PwExc;
  br_fill : list page_event -> str -> str -> N -> option PwExc
}.

Variable B : browser.

Definition pio (A : Type) : Type := io page_event PwExc A.

Definition raised_or_unit (r : option PwExc) : result PwExc unit :=
  match r with Some e => Raise e | None => Return tt end.

(** [page.goto(url, wait_until="domcontentloaded", timeout=60000)] *)
Definition goto (address : str) : pio unit :=
  fun log =>
    let r := br_goto B log address in
    (PGoto address r :: log, raised_or_unit r).

Definition wait_for_load_state (timeout : N) : pio unit :=
  fun log =>
    let r := br_wait_load_state B log timeout in
    (PWaitLoadState timeout r :: log, raised_or_unit r).

(** [page.wait_for_timeout(ms)] *)
Definition wait_for_timeout (ms : N) : pio unit :=
  fun log =>
    let r := br_wait_for_timeout B log ms in
    (PWaitTimeout ms r :: log, raised_or_unit r).

Definition is_visible (sel : str) (timeout : N) : pio bool :=
  fun log =>
    let r := br_is_visible B log sel timeout in
    (PIsVisible sel timeout r :: log, r).

(** [page.locator(sel).first.click(timeout=timeout)] *)
Definition click (sel : str) (timeout : N) : pio unit :=
  fun log =>
    let r := br_click B log sel timeout in
    (PClick sel timeout r :: log, raised_or_unit r).

(** [page.locator(sel).first.fill(value, timeout=timeout)] *)
Definition fill (sel value : str) (timeout : N) : pio unit :=
  fun log =>
    let r := br_fill B log sel value timeout in
    (PFill sel value timeout r :: log, raised_or_unit r).

Definition pprint (line : str) : pio unit :=
  fun log => (PPrint line :: log, Return tt).

Definition wait_settle (timeout_ms : N) : pio unit :=
  try_except (wait_for_load_state timeout_ms) (fun _ => ret tt) ;;;
  wait_for_timeout 500.

Fixpoint safe_click (selectors : list str) (timeout : N) : pio bool :=
  match selectors with
  | [] => ret false
  | sel :: selectors' =>
    try_except (click sel timeout ;;; ret true)
               (fun _ => safe_click selectors' timeout)
  end.

Fixpoint safe_fill (selectors : list str) (value : str) (timeout : N)
    : pio bool :=
  match selectors with
  | [] => ret false
  | sel :: selectors' =>
    try_except (click sel timeout ;;; fill sel value timeout ;;; ret true)
               (fun _ => safe_fill selectors' value timeout)
  end.

Definition ensure_logged_in_hint : pio unit :=
  try_except
    (visible <- is_visible (u "text=Войти") 1200 ;;
     if visible
     then pprint (10%N :: u "[info] Похоже, вы не авторизованы на hh.ru.") ;;;
          pprint (u "[info] Войдите вручную в открывшемся браузере и продолжайте работу."
                  ++ [10%N])
     else ret tt)
    (fun _ => ret tt).

Definition open_vacancy (v : Vacancy) : pio unit :=
  goto (url v) ;;;
  wait_settle 20000 ;;;
  ensure_logged_in_hint.

Definition RESPOND_SELECTORS : list str :=
  [u "text=Откликнуться"; u "button:has-text('Откликнуться')";
   u "[data-qa*='vacancy-response']"].

Definition LETTER_SELECTORS : list str :=
  [u "[data-qa*='vacancy-response-letter'] textarea";
   u "[data-qa*='cover-letter'] textarea"; u "textarea"].

Definition EDITABLE : str := u "[contenteditable='true']".

Definition SEND_SELECTORS : list str :=
  [u "button:has-text('Отправить')"; u "text=Отправить"].

Definition respond_to_vacancy (v : Vacancy) (letter : str) (submit : bool)
    : pio bool :=
  open_vacancy v ;;;
  clicked <- safe_click RESPOND_SELECTORS 12000 ;;
  if negb clicked then
    pprint (u "[warn] Не нашёл кнопку «Откликнуться»: " ++ url v) ;;;
    ret false
  else
    wait_settle 20000 ;;;
    filled <- safe_fill LETTER_SELECTORS letter 12000 ;;
    filled <-
      (if negb filled then
         try_except (click EDITABLE 6000 ;;; fill EDITABLE letter 6000 ;;;
                     ret true)
                    (fun _ => ret filled)
       else ret filled) ;;
    if negb filled then
      pprint (u "[warn] Не удалось вставить письмо. Оставил страницу открытой: "
              ++ url v) ;;;
      ret true
    else if negb submit then
      pprint (u "[ok] Письмо вставлено (НЕ отправлено). Проверьте и отправьте вручную: "
              ++ url v) ;;;
      ret true
    else
      sent <- safe_click SEND_SELECTORS 9000 ;;
      if sent then
        pprint (u "[ok] Отклик отправлен: " ++ url v) ;;;
        ret true
      else
        pprint (u "[warn] Не нашёл финальную кнопку отправки. Проверьте вручную: "
                ++ url v) ;;;
        ret false.

End Responder.

(* ================================================================== *)
(** * Properties                                                       *)
(* ================================================================== *)


(** ** Facts about the matcher *)

(** The character before the position reached after reading [l]. *)
Definition advance (p : option char) (l : str) : option char :=
  fold_left (fun _ c => Some c) l p.

Section RegexFacts.
Variable U : Unicode.
Variable icase : bool.

Lemma search_from_cons (r : regex) (p : option char) (c : char) (s : str) :
  search_from U icase r p (c :: s) =
  match match_at U icase r (Cursor p (c :: s)) with
  | Some m => Some m
  | None => search_from U icase r (Some c) s
  end.
Proof. reflexivity. Qed.

(** A match somewhere in the text makes the search succeed. *)
Lemma search_from_finds (r : regex) (pre s : str) (p : option char) (m : rematch) :
  match_at U icase r (Cursor (advance p pre) s) = Some m ->
  exists m', search_from U icase r p (pre ++ s) = Some m'.
Proof.
  revert p. induction pre as [|c pre IH]; intros p Hm.
  - simpl in *. destruct s as [|c s]; simpl; rewrite Hm; eauto.
  - simpl app. rewrite search_from_cons.
    destruct (match_at U icase r (Cursor p (c :: pre ++ s))) as [m0|]; eauto.
Qed.

(** Positions at which the pattern cannot match are passed over. *)
Lemma search_from_skips (r : regex) (pre s : str) (p : option char) :
  (forall a c b, pre = a ++ c :: b ->
     match_at U icase r (Cursor (advance p a) (c :: b ++ s)) = None) ->
  search_from U icase r p (pre ++ s) = search_from U icase r (advance p pre) s.
Proof.
  revert p. induction pre as [|c pre IH]; intros p H.
  - reflexivity.
  - simpl app. rewrite search_from_cons.
    pose proof (H [] c pre eq_refl) as H0. simpl in H0. rewrite H0.
    apply IH.
    intros a c' b E. apply (H (c :: a) c' b). simpl. now rewrite E.
Qed.

(** Greedy repetition passes a run of matching characters that ends
    before a character that does not match, when the rest of the pattern
    matches from there. *)
Lemma rep_run (T : Type) (f : char -> bool) (run : str) (c : char) (s : str)
    (p : option char) (k : cursor -> option T) (x : T) :
  forallb f run = true -> f c = false ->
  k (Cursor (advance p run) (c :: s)) = Some x ->
  rep f 0 None p (run ++ c :: s) k = Some x.
Proof.
  revert p. induction run as [|a run IH]; intros p Hrun Hc Hk; simpl in *.
  - now rewrite Hc.
  - apply andb_prop in Hrun. destruct Hrun as [Ha Hrun].
    rewrite Ha. simpl. now rewrite (IH (Some a)).
Qed.

(** Once the upper bound is reached the repetition stops. *)
Lemma rep_full (T : Type) (f : char -> bool) (s : str) (p : option char)
    (k : cursor -> option T) :
  rep f 0 (Some 0) p s k = k (Cursor p s).
Proof. destruct s; simpl; [|rewrite andb_false_r]; reflexivity. Qed.

End RegexFacts.

Lemma captured_eq (a : str) (from to : cursor) :
  rest from = a ++ rest to -> captured from to = a.
Proof.
  unfold captured. intros ->. rewrite length_app.
  replace (length a + length (rest to) - length (rest to)) with (length a)
    by lia.
  rewrite firstn_app, Nat.sub_diag, firstn_all. simpl. apply app_nil_r.
Qed.

(** ** The interpreter *)

Section InterpreterFacts.
Variable U : Unicode.

(** The query built from role words passes the filler pattern and
    [norm_text] unchanged, whichever of the five words were found. *)
Lemma role_query_fixed (b1 b2 b3 b4 b5 : bool) :
  let bits :=
    (if b1 then [u "Python"] else [])
    ++ (if b2 then [u "backend"] else [])
    ++ (if b3 then [u "Django"] else [])
    ++ (if b4 then [u "FastAPI"] else [])
    ++ (if b5 then [u "asyncio"] else []) in
  let q := join (u " ") bits ++ u " разработчик" in
  bits = [] \/
  (norm_text U (re_sub U true re_filler (u " ")
                  (join (u " ") (fromkeys [] bits) ++ u " разработчик")) = q
   /\ 0 < length q).
Proof.
  destruct b1, b2, b3, b4, b5; vm_compute;
    solve [left; reflexivity | right; split; [reflexivity | lia]].
Qed.

Lemma default_query_nonempty : 0 < length DEFAULT_QUERY.
Proof. vm_compute. lia. Qed.

(** C2: whatever the input, the query of the interpreter is not
    empty: the role words that were found, joined by spaces and followed
    by the role suffix; else the normalised input with the filler words
    removed; else the default query.  The empty input and an input of
    filler words alone give the default query. *)
Theorem query_never_empty (user_text : str) :
  let t := norm_text U user_text in
  let q := query (ai_interpret_user_goal U user_text) in
  0 < length q
  /\ q = match role_bits (lower U t) with
         | (_ :: _) as bits => join (u " ") bits ++ u " разработчик"
         | [] =>
           match norm_text U (re_sub U true re_filler (u " ") t) with
           | [] => DEFAULT_QUERY
           | stripped => stripped
           end
         end
  /\ query (ai_interpret_user_goal U []) = DEFAULT_QUERY
  /\ query (ai_interpret_user_goal U (u "Найди вакансии")) = DEFAULT_QUERY.
Proof.
  intros t q.
  assert (Hq : q = build_query U t (lower U t)) by reflexivity.
  rewrite Hq. clear Hq q.
  split; [|split; [|split; vm_compute; reflexivity]].
  - unfold build_query, raw_query.
    destruct (role_bits (lower U t)) as [|b bits] eqn:E.
    + destruct (norm_text U (re_sub U true re_filler (u " ") t));
        [apply default_query_nonempty | simpl; lia].
    + revert E. unfold role_bits.
      set (b1 := contains (u "python") _ || _).
      set (b2 := contains (u "backend") _ || _ || _).
      set (b3 := contains (u "django") _).
      set (b4 := contains (u "fastapi") _).
      set (b5 := contains (u "asyncio") _).
      intros E.
      destruct (role_query_fixed b1 b2 b3 b4 b5) as [H | [H1 H2]];
        [congruence |].
      rewrite E in H1, H2. rewrite H1.
      destruct (join (u " ") (b :: bits) ++ u " разработчик");
        [simpl in H2; lia | simpl; lia].
  - unfold build_query, raw_query.
    destruct (role_bits (lower U t)) as [|b bits] eqn:E;
      [destruct (norm_text U (re_sub U true re_filler (u " ") t));
       reflexivity |].
    revert E. unfold role_bits.
    set (b1 := contains (u "python") _ || _).
    set (b2 := contains (u "backend") _ || _ || _).
    set (b3 := contains (u "django") _).
    set (b4 := contains (u "fastapi") _).
    set (b5 := contains (u "asyncio") _).
    intros E.
    destruct (role_query_fixed b1 b2 b3 b4 b5) as [H | [H1 H2]];
      [congruence |].
    rewrite E in H1, H2. rewrite H1.
    destruct (join (u " ") (b :: bits) ++ u " разработчик");
      [simpl in H2; lia | reflexivity].
Qed.

(** C6: the scenario of the specification. *)
Theorem scenario_django_spb :
  ai_interpret_user_goal U
    (u "найди 5 вакансий Django в СПб, junior, удалёнка")
  = {| query := u "Django разработчик";
       want_n := Some 5%N;
       area := Some 2%N;
       experience := Some (u "noExperience");
       remote := true;
       salary := None;
       only_with_salary := false |}.
Proof. vm_compute. reflexivity. Qed.

(** C5: the salary-only flag is set exactly when a salary was found and
    the text holds one of the salary-only phrases; the phrase alone, with
    no salary in the text, leaves it unset. *)
Theorem only_with_salary_needs_salary (user_text : str) :
  let p := ai_interpret_user_goal U user_text in
  let tl := lower U (norm_text U user_text) in
  (only_with_salary p = true <->
     (exists n, salary p = Some n)
     /\ (exists w, In w salary_words /\ contains w tl = true))
  /\ salary (ai_interpret_user_goal U (u "только с зарплатой")) = None
  /\ only_with_salary (ai_interpret_user_goal U (u "только с зарплатой"))
     = false.
Proof.
  intros p tl.
  split; [|split; vm_compute; reflexivity].
  change (only_with_salary p)
    with (detect_only_with_salary (detect_salary U tl) tl).
  change (salary p) with (detect_salary U tl).
  unfold detect_only_with_salary, any_in.
  destruct (detect_salary U tl) as [n|].
  - rewrite existsb_exists. split.
    + intros H. split; [now exists n | exact H].
    + intros [_ H]. exact H.
  - split; [discriminate | intros [[n Hn] _]; discriminate].
Qed.

End InterpreterFacts.

(** The character written in a one-character literal. *)
Definition ch (s : string) : char := hd 0%N (u s).

Definition is_dash (c : char) : bool := in_str c (u "-–").

(** A run of U+0020, the only white space left by [norm_text]. *)
Definition blanks (s : str) : bool := forallb (N.eqb 32) s.

Definition no_decimal (U : Unicode) (s : str) : bool :=
  forallb (fun c => negb (isdecimal U c)) s.

Section Tokens.
Variable U : Unicode.

(** The text holds the range [a-b] as a token of its own: the two
    digits, a hyphen or an en dash between them, blanks around the dash,
    no word character before or after. *)
Definition has_range (a b : char) (tl : str) : Prop :=
  exists pre sp1 d sp2 post,
    tl = pre ++ a :: sp1 ++ d :: sp2 ++ b :: post
    /\ blanks sp1 = true /\ blanks sp2 = true /\ is_dash d = true
    /\ word_at U (advance None pre) = false
    /\ word_at U (hd_error post) = false.

Lemma dash_cases d : is_dash d = true -> d = 45%N \/ d = 8211%N.
Proof.
  unfold is_dash. change (u "-–") with [45%N; 8211%N]. simpl.
  rewrite !orb_true_iff, !N.eqb_eq. intuition congruence.
Qed.

Lemma blanks_spaces sp : blanks sp = true -> forallb (isspace U) sp = true.
Proof.
  unfold blanks. rewrite !forallb_forall. intros H c Hc.
  apply H in Hc. apply N.eqb_eq in Hc. now subst c.
Qed.

(** After a digit of a range comes a blank or the dash: neither a
    decimal digit nor a word character. *)
Lemma after_range_digit sp d s :
  blanks sp = true -> is_dash d = true ->
  exists c s', sp ++ d :: s = c :: s'
               /\ isdecimal U c = false /\ isword U c = false.
Proof.
  intros Hsp Hd. destruct sp as [|c sp].
  - exists d, s. destruct (dash_cases d Hd); subst; repeat split.
  - unfold blanks in Hsp. cbn [forallb] in Hsp.
    apply andb_prop in Hsp. destruct Hsp as [Hc _].
    apply N.eqb_eq in Hc. subst c. eexists _, _. repeat split.
Qed.

Lemma re_1_3_at p sp1 d sp2 post :
  blanks sp1 = true -> blanks sp2 = true -> is_dash d = true ->
  word_at U p = false -> word_at U (hd_error post) = false ->
  match_at U false re_1_3
    (Cursor p (ch "1" :: sp1 ++ d :: sp2 ++ ch "3" :: post))
  = Some (Match (Cursor (Some (ch "3")) post) None).
Proof.
  intros H1 H2 Hd Hp Hpost.
  change (ch "1") with 49%N. change (ch "3") with 51%N.
  unfold match_at, re_1_3. cbn -[rep].
  unfold at_boundary. cbn -[rep]. rewrite Hp. cbn -[rep].
  apply rep_run; [now apply blanks_spaces | |].
  { destruct (dash_cases d Hd); subst; reflexivity. }
  cbn -[rep].
  replace ((d =? 45)%N || ((d =? 8211)%N || false)) with true
    by (destruct (dash_cases d Hd); subst; reflexivity).
  apply rep_run; [now apply blanks_spaces | reflexivity |].
  cbn. now rewrite Hpost.
Qed.

Lemma has_range_1_3_matches tl :
  has_range (ch "1") (ch "3") tl -> matches U re_1_3 tl = true.
Proof.
  intros (pre & sp1 & d & sp2 & post & E & H1 & H2 & Hd & Hp & Hpost).
  assert (Hs : exists m', re_search U false re_1_3 tl = Some m').
  { rewrite E. unfold re_search. eapply search_from_finds.
    now apply re_1_3_at. }
  destruct Hs as [m' Hm']. unfold matches. now rewrite Hm'.
Qed.

Lemma re_3_6_at p sp1 d sp2 post :
  blanks sp1 = true -> blanks sp2 = true -> is_dash d = true ->
  word_at U p = false -> word_at U (hd_error post) = false ->
  match_at U false re_3_6
    (Cursor p (ch "3" :: sp1 ++ d :: sp2 ++ ch "6" :: post))
  = Some (Match (Cursor (Some (ch "6")) post) None).
Proof.
  intros H1 H2 Hd Hp Hpost.
  change (ch "3") with 51%N. change (ch "6") with 54%N.
  unfold match_at, re_3_6. cbn -[rep].
  unfold at_boundary. cbn -[rep]. rewrite Hp. cbn -[rep].
  apply rep_run; [now apply blanks_spaces | |].
  { destruct (dash_cases d Hd); subst; reflexivity. }
  cbn -[rep].
  replace ((d =? 45)%N || ((d =? 8211)%N || false)) with true
    by (destruct (dash_cases d Hd); subst; reflexivity).
  apply rep_run; [now apply blanks_spaces | reflexivity |].
  cbn. now rewrite Hpost.
Qed.

Lemma re_6_plus_at p post :
  word_at U p = false -> word_at U (hd_error post) = true ->
  match_at U false re_6_plus (Cursor p (ch "6" :: ch "+" :: post))
  = Some (Match (Cursor (Some (ch "+")) post) None).
Proof.
  intros Hp Hpost. change (ch "6") with 54%N. change (ch "+") with 43%N.
  unfold match_at, re_6_plus. cbn.
  unfold at_boundary. cbn. now rewrite Hp, Hpost.
Qed.

(** The pattern [r] matches at a position inside [pre], in the text
    [pre ++ s] read after the character [p]. *)
Fixpoint starts_in (r : regex) (p : option char) (pre s : str) : bool :=
  match pre with
  | [] => false
  | c :: pre' =>
    match match_at U false r (Cursor p (pre ++ s)) with
    | Some _ => true
    | None => false
    end || starts_in r (Some c) pre' s
  end.

Lemma starts_in_head r p c pre s :
  starts_in r p (c :: pre) s = false ->
  match_at U false r (Cursor p (c :: pre ++ s)) = None
  /\ starts_in r (Some c) pre s = false.
Proof.
  cbn [starts_in app]. intros H. apply orb_false_elim in H.
  destruct H as [H Hrest]. split; [|exact Hrest].
  now destruct (match_at U false r (Cursor p (c :: pre ++ s))).
Qed.

(** The search passes over a prefix in which the pattern does not
    start. *)
Lemma starts_in_skips r pre s p :
  starts_in r p pre s = false ->
  search_from U false r p (pre ++ s)
  = search_from U false r (advance p pre) s.
Proof.
  revert p. induction pre as [|c pre IH]; intros p H; [reflexivity|].
  apply starts_in_head in H. destruct H as [Hc Hrest].
  cbn [app]. rewrite search_from_cons, Hc. now apply IH.
Qed.

(** The experience ranges that the interpreter looks for by pattern:
    [1-3], [3-6] and [6+]. *)
Inductive range_token := Range_1_3 | Range_3_6 | Range_6_plus.

(** The first digit of the token, and its value. *)
Definition range_lead (t : range_token) : char :=
  match t with
  | Range_1_3 => ch "1"
  | Range_3_6 => ch "3"
  | Range_6_plus => ch "6"
  end.

Definition range_count (t : range_token) : N :=
  match t with
  | Range_1_3 => 1
  | Range_3_6 => 3
  | Range_6_plus => 6
  end%N.

(** The pattern of the source that looks for the token. *)
Definition range_pattern (t : range_token) : regex :=
  match t with
  | Range_1_3 => re_1_3
  | Range_3_6 => re_3_6
  | Range_6_plus => re_6_plus
  end.

(** [tail] is the text from after the first digit of the token on:
    blanks, a hyphen or an en dash, blanks, the second digit and then
    no word character; for [6+], the plus sign and then a word
    character. *)
Definition range_tail (t : range_token) (tail : str) : Prop :=
  match t with
  | Range_1_3 =>
    exists sp1 d sp2 post,
      tail = sp1 ++ d :: sp2 ++ ch "3" :: post
      /\ blanks sp1 = true /\ blanks sp2 = true /\ is_dash d = true
      /\ word_at U (hd_error post) = false
  | Range_3_6 =>
    exists sp1 d sp2 post,
      tail = sp1 ++ d :: sp2 ++ ch "6" :: post
      /\ blanks sp1 = true /\ blanks sp2 = true /\ is_dash d = true
      /\ word_at U (hd_error post) = false
  | Range_6_plus =>
    exists post,
      tail = ch "+" :: post /\ word_at U (hd_error post) = true
  end.

(** After the first digit of a token comes a character that is neither
    a decimal digit nor a word character. *)
Lemma range_tail_head t tail :
  range_tail t tail ->
  exists c s', tail = c :: s'
               /\ isdecimal U c = false /\ isword U c = false.
Proof.
  destruct t; cbn [range_tail].
  - intros (sp1 & d & sp2 & post & -> & H1 & _ & Hd & _).
    now apply after_range_digit.
  - intros (sp1 & d & sp2 & post & -> & H1 & _ & Hd & _).
    now apply after_range_digit.
  - intros (post & -> & _). exists (ch "+"), post. repeat split.
Qed.

(** The token makes its pattern match at its first digit. *)
Lemma range_pattern_at t p tail :
  range_tail t tail -> word_at U p = false ->
  exists m, match_at U false (range_pattern t)
              (Cursor p (range_lead t :: tail)) = Some m.
Proof.
  destruct t; cbn [range_tail range_pattern range_lead].
  - intros (sp1 & d & sp2 & post & -> & H1 & H2 & Hd & Hpost) Hp.
    eexists. now apply re_1_3_at.
  - intros (sp1 & d & sp2 & post & -> & H1 & H2 & Hd & Hpost) Hp.
    eexists. now apply re_3_6_at.
  - intros (post & -> & Hpost) Hp. eexists. now apply re_6_plus_at.
Qed.

(** The pattern of [_extract_int] at a single digit between two
    boundaries. *)
Lemma re_int_at_digit p a c s :
  word_at U p = false -> isdecimal U a = true -> isword U a = true ->
  isdecimal U c = false -> isword U c = false ->
  match_at U false re_int (Cursor p (a :: c :: s))
  = Some (Match (Cursor (Some a) (c :: s)) (Some [a])).
Proof.
  intros Hp Ha Hwa Hc Hw.
  unfold match_at, re_int. cbn.
  unfold at_boundary. cbn. rewrite Hp, Ha, Hwa, Hc, Hw. cbn.
  now rewrite (captured_eq [a]).
Qed.

(** C10: when the first standalone number of one or two digits in the
    normalised lower-case text is the first digit of an experience range
    token ([1-3], [3-6] or [6+]: no such number starts before the
    token, and no word character stands before it), the wanted count is
    that digit, 1 for the token [1-3], and the same token makes the
    range pattern of the experience detector match. *)
Theorem count_from_range_start user_text t pre tail :
  let tl := lower U (norm_text U user_text) in
  tl = pre ++ range_lead t :: tail ->
  range_tail t tail ->
  word_at U (advance None pre) = false ->
  starts_in re_int None pre (range_lead t :: tail) = false ->
  want_n (ai_interpret_user_goal U user_text) = Some (range_count t)
  /\ matches U (range_pattern t) tl = true.
Proof.
  intros tl E Htail Hp Hpre. split.
  - change (want_n (ai_interpret_user_goal U user_text))
      with (_extract_int U tl).
    unfold _extract_int, re_search. rewrite E, starts_in_skips by exact Hpre.
    destruct (range_tail_head t tail Htail) as (c & s' & -> & Hc & Hw).
    rewrite search_from_cons, re_int_at_digit;
      [now destruct t | exact Hp | now destruct t | now destruct t
       | exact Hc | exact Hw].
  - destruct (range_pattern_at t (advance None pre) tail Htail Hp)
      as [m Hm].
    unfold matches, re_search. rewrite E.
    destruct (search_from_finds U false _ pre _ None Hm) as [m' Hm'].
    now rewrite Hm'.
Qed.

(** C3 (amended): when the normalised lower-case text holds the range
    1-3 as a token (blanks and either dash allowed) and neither the 3-6
    pattern nor the 6+ pattern matches, the experience band is
    between1And3, whatever experience words the text holds besides. *)
Theorem range_1_3_gives_mid_band user_text :
  let tl := lower U (norm_text U user_text) in
  has_range (ch "1") (ch "3") tl ->
  matches U re_3_6 tl = false ->
  matches U re_6_plus tl = false ->
  experience (ai_interpret_user_goal U user_text) = Some (u "between1And3").
Proof.
  intros tl H H36 H6.
  change (experience (ai_interpret_user_goal U user_text))
    with (detect_experience U tl).
  unfold detect_experience. cbv zeta.
  now rewrite (has_range_1_3_matches H), H36, H6.
Qed.

(** The salary pattern after its optional prefix. *)
Definition sal_tail : regex :=
  rseq [RGroup (rdigits 2 3); rspaces0;
        RAlt (rlit (u "к")) (rlit (u "k")); RBound].

Definition sal_rest (cur : cursor) (g : option str) : option rematch :=
  rmatch U false sal_tail cur g (fun c g' => Some (Match c g')).

Definition is_marker (c : char) : bool := in_str c (u "кk").

Lemma marker_cases m : is_marker m = true -> m = 1082%N \/ m = 107%N.
Proof.
  unfold is_marker. change (u "кk") with [1082%N; 107%N]. simpl.
  rewrite !orb_true_iff, !N.eqb_eq. intuition congruence.
Qed.

Lemma sal_rest_at_200 p g sp m post :
  blanks sp = true -> is_marker m = true ->
  word_at U (hd_error post) = false ->
  sal_rest (Cursor p (u "200" ++ sp ++ m :: post)) g
  = Some (Match (Cursor (Some m) post) (Some (u "200"))).
Proof.
  intros Hsp Hm Hpost. change (u "200") with [50%N; 48%N; 48%N].
  assert (Hb : at_boundary U (Cursor (Some m) post) = true).
  { unfold at_boundary. cbn. rewrite Hpost.
    destruct (marker_cases m Hm); subst; reflexivity. }
  assert (Hs : isspace U m = false)
    by (destruct (marker_cases m Hm); subst; reflexivity).
  unfold sal_rest, sal_tail. cbn.
  rewrite rep_full. cbn -[rep].
  rewrite (rep_run (atom_match U false ASpace) sp m post (Some 48%N) _
             (x := Match (Cursor (Some m) post) (Some [50%N; 48%N; 48%N]))).
  - reflexivity.
  - now apply blanks_spaces.
  - exact Hs.
  - cbn. rewrite Hb. rewrite (captured_eq [50%N; 48%N; 48%N]) by reflexivity.
    destruct (marker_cases m Hm); subst; reflexivity.
Qed.

(** No thousand-marker number starts at the position: [sal_tail] does
    not match there. *)
Lemma sal_tail_none p c pre s :
  starts_in sal_tail p (c :: pre) s = false ->
  sal_rest (Cursor p (c :: pre ++ s)) None = None
  /\ starts_in sal_tail (Some c) pre s = false.
Proof. apply starts_in_head. Qed.

Section Salary200.
Variables (sp : str) (m : char) (post : str).
Hypothesis Hsp : blanks sp = true.
Hypothesis Hm : is_marker m = true.
Hypothesis Hpost : word_at U (hd_error post) = false.

Let tok : str := u "200" ++ sp ++ m :: post.

Lemma sal_blanks_then_200 pre p x :
  starts_in sal_tail p pre tok = false ->
  rep (isspace U) 0 None p (pre ++ tok) (fun cur' => sal_rest cur' None)
  = Some x ->
  m_group1 x = Some (u "200").
Proof.
  revert p. induction pre as [|c pre IH]; intros p Hpre H.
  - unfold tok in H. change (u "200") with [50%N; 48%N; 48%N] in H.
    cbn -[sal_rest] in H.
    change (50%N :: 48%N :: 48%N :: sp ++ m :: post)
      with (u "200" ++ sp ++ m :: post) in H.
    rewrite sal_rest_at_200 in H by assumption.
    now inversion H.
  - destruct (sal_tail_none _ _ _ _ Hpre) as [Hc Hrest].
    change ((c :: pre) ++ tok) with (c :: pre ++ tok) in H.
    remember (pre ++ tok) as rst eqn:Erst.
    cbn -[sal_rest] in H. rewrite !Hc in H.
    destruct (isspace U c); cbn -[sal_rest] in H; [|discriminate H].
    match type of H with
    | match ?r with _ => _ end = _ => destruct r as [y|] eqn:E
    end; [|discriminate H].
    inversion H; subst y rst. apply (IH (Some c)); [exact Hrest | exact E].
Qed.

Lemma re_sal_group_200 pre p x :
  starts_in sal_tail p pre tok = false ->
  match_at U false re_sal (Cursor p (pre ++ tok)) = Some x ->
  m_group1 x = Some (u "200").
Proof.
  intros Hpre H.
  assert (E : forall cur,
    match_at U false re_sal cur =
    match rmatch U false (RCat (rlit (u "от")) rspaces0) cur None sal_rest with
    | Some y => Some y
    | None => sal_rest cur None
    end) by reflexivity.
  rewrite E in H. clear E.
  destruct pre as [|c [|c2 pre]].
  - unfold tok in H. change (u "200") with [50%N; 48%N; 48%N] in H.
    cbn -[sal_rest] in H.
    change (50%N :: 48%N :: 48%N :: sp ++ m :: post)
      with (u "200" ++ sp ++ m :: post) in H.
    rewrite sal_rest_at_200 in H by assumption. now inversion H.
  - destruct (sal_tail_none _ _ _ _ Hpre) as [Hc _].
    unfold tok in H, Hc. change (u "200") with [50%N; 48%N; 48%N] in H, Hc.
    cbn [app] in H, Hc.
    remember (48%N :: 48%N :: sp ++ m :: post) as rst eqn:Erst.
    cbn -[sal_rest] in H. rewrite !Hc in H.
    destruct (c =? 1086)%N; discriminate H.
  - destruct (sal_tail_none _ _ _ _ Hpre) as [Hc Hpre1].
    destruct (sal_tail_none _ _ _ _ Hpre1) as [_ Hpre2].
    change ((c :: c2 :: pre) ++ tok) with (c :: c2 :: pre ++ tok) in H.
    change ((c2 :: pre) ++ tok) with (c2 :: pre ++ tok) in Hc.
    remember (pre ++ tok) as rst eqn:Erst.
    cbn -[sal_rest rep] in H. rewrite !Hc in H.
    destruct (c =? 1086)%N; [|discriminate H].
    destruct (c2 =? 1090)%N; [|discriminate H].
    match type of H with
    | match ?r with _ => _ end = _ => destruct r as [y|] eqn:Er
    end; [|discriminate H].
    inversion H; subst y rst.
    eapply sal_blanks_then_200; [exact Hpre2 | exact Er].
Qed.

Lemma re_sal_search_200 pre p :
  starts_in sal_tail p pre tok = false ->
  exists x, search_from U false re_sal p (pre ++ tok) = Some x
            /\ m_group1 x = Some (u "200").
Proof.
  revert p. induction pre as [|c pre IH]; intros p Hpre.
  - destruct (match_at U false re_sal (Cursor p tok)) as [x|] eqn:E.
    + exists x. split; [|now apply (re_sal_group_200 [] p)].
      unfold tok in *. change (u "200") with [50%N; 48%N; 48%N] in *.
      simpl app in *. now rewrite search_from_cons, E.
    + exfalso. revert E. unfold tok.
      change (u "200") with [50%N; 48%N; 48%N].
      change (match_at U false re_sal
                (Cursor p ([50%N; 48%N; 48%N] ++ sp ++ m :: post)))
        with (sal_rest (Cursor p (u "200" ++ sp ++ m :: post)) None).
      now rewrite sal_rest_at_200.
  - simpl app. rewrite search_from_cons.
    destruct (match_at U false re_sal (Cursor p (c :: pre ++ tok)))
      as [x|] eqn:E.
    + exists x. split; [reflexivity|].
      now apply (re_sal_group_200 (c :: pre) p).
    + apply IH. now apply starts_in_head in Hpre.
Qed.

End Salary200.

(** C4 (amended): when the normalised lower-case text holds the number
    200 followed, after optional blanks, by the thousand marker (Cyrillic
    or Latin) and then by no word character, and no thousand-marker
    number (two or three digits, optional blanks, the marker, no word
    character after it) starts before it in the text, the salary floor
    is 200000: the number before the marker times 1000.  Digits that
    stand before, a count or a range, do not matter. *)
Theorem salary_200k user_text pre sp m post :
  let tl := lower U (norm_text U user_text) in
  tl = pre ++ u "200" ++ sp ++ m :: post ->
  starts_in sal_tail None pre (u "200" ++ sp ++ m :: post) = false ->
  blanks sp = true -> is_marker m = true ->
  word_at U (hd_error post) = false ->
  salary (ai_interpret_user_goal U user_text) = Some 200000%N.
Proof.
  intros tl E Hpre Hsp Hm Hpost.
  change (salary (ai_interpret_user_goal U user_text))
    with (detect_salary U tl).
  unfold detect_salary, re_search. rewrite E.
  destruct (re_sal_search_200 sp m post Hsp Hm Hpost pre None Hpre)
    as (x & Hx & Hg).
  rewrite Hx. unfold group1. rewrite Hg. reflexivity.
Qed.

End Tokens.

(** C3, the claim as stated fails: the text holds the token 1-3 and the
    band is between3And6, because the 3-6 pattern is tested later. *)
Lemma range_1_3_overridden :
  has_range plain (ch "1") (ch "3")
    (lower plain (norm_text plain (u "опыт 1-3 или 3-6 лет")))
  /\ experience (ai_interpret_user_goal plain (u "опыт 1-3 или 3-6 лет"))
     = Some (u "between3And6").
Proof.
  split; [|vm_compute; reflexivity].
  exists (u "опыт "), [], (ch "-"), [], (u " или 3-6 лет").
  repeat split; vm_compute; reflexivity.
Qed.

Lemma range_1_3_gives_mid_band_witness :
  has_range plain (ch "1") (ch "3")
    (lower plain (norm_text plain (u "Senior, опыт 1 – 3 года")))
  /\ experience (ai_interpret_user_goal plain (u "Senior, опыт 1 – 3 года"))
     = Some (u "between1And3").
Proof.
  assert (H : has_range plain (ch "1") (ch "3")
                (lower plain (norm_text plain (u "Senior, опыт 1 – 3 года")))).
  { exists (u "senior, опыт "), (u " "), (ch "–"), (u " "), (u " года").
    repeat split; vm_compute; reflexivity. }
  split; [exact H|].
  apply (@range_1_3_gives_mid_band plain _ H); vm_compute; reflexivity.
Defined.

(** C4, the claim as stated fails: the text holds 200к and the salary
    floor is 50000, the first thousand-marker number of the text. *)
Lemma salary_first_marker_wins :
  contains (u "200к") (u "зарплата 50к или 200к") = true
  /\ salary (ai_interpret_user_goal plain (u "зарплата 50к или 200к"))
     = Some 50000%N.
Proof. split; vm_compute; reflexivity. Qed.

Lemma salary_200k_witness :
  salary (ai_interpret_user_goal plain
            (u "Найди 5 вакансий Python, зарплата от 200к"))
  = Some 200000%N.
Proof.
  apply (@salary_200k plain (u "Найди 5 вакансий Python, зарплата от 200к")
           (u "найди 5 вакансий python, зарплата от ") [] (ch "к") []);
    vm_compute; reflexivity.
Defined.

Lemma count_from_range_start_witness :
  want_n (ai_interpret_user_goal plain (u "Python3, опыт 1-3 года"))
  = Some 1%N
  /\ matches plain re_1_3
       (lower plain (norm_text plain (u "Python3, опыт 1-3 года")))
     = true.
Proof.
  apply (@count_from_range_start plain (u "Python3, опыт 1-3 года")
           Range_1_3 (u "python3, опыт ") (u "-3 года")).
  - vm_compute. reflexivity.
  - exists [], (ch "-"), [], (u " года"). repeat split.
  - vm_compute. reflexivity.
  - vm_compute. reflexivity.
Defined.

(** ** The launcher *)

Section LauncherFacts.
Variables Exc Ctx : Type.
Variables exc_name exc_str : Exc -> str.
Variables YANDEX_PATH PROFILE_DIR FALLBACK_PROFILE_DIR : str.
Variable S : system Exc Ctx.

Local Abbreviation attempt_of := (launch_attempt YANDEX_PATH S).
Local Abbreviation failed := (launch_failed (Ctx := Ctx) exc_name exc_str).
Local Abbreviation loop := (launch_loop exc_name exc_str YANDEX_PATH S).
Local Abbreviation the_attempts := (attempts PROFILE_DIR FALLBACK_PROFILE_DIR).
Local Abbreviation log_t := (list (sys_event Exc Ctx)).


(** Every attempt that is begun calls [os.makedirs] once, so the
    number of these calls in the log counts the attempts begun. *)
Definition begun (log : log_t) : nat :=
  length (filter (fun ev => match ev with SMakedirs _ _ _ => true
                                     | _ => false end) log).








End LauncherFacts.

(** A run in which the main profile is locked: the first attempt
    raises, the second returns, and Yandex is never asked for. *)
Definition locked_profile : system str nat :=
  {| sys_exists := fun _ _ => true;
     sys_makedirs := fun _ _ => None;
     sys_launch := fun _ dir _ =>
       if str_eqb dir (u "/p") then Raise (u "profile is locked")
       else Return 7 |}.

Example launch_second_attempt :
  let r := launch_context_robust (fun _ => u "Error") (fun e => e)
             (u "/yandex") (u "/p") (u "/f") locked_profile [] in
  snd r = Return 7
  /\ filter (fun ev => match ev with SLaunch _ _ _ => true | _ => false end)
            (rev (fst r))
     = [SLaunch (u "/p") None (Raise (u "profile is locked"));
        SLaunch (u "/f") None (Return 7)].
Proof. vm_compute. split; reflexivity. Qed.

(** ** The responder *)

Lemma str_eqb_eq (a b : str) : str_eqb a b = true <-> a = b.
Proof.
  unfold str_eqb. destruct (list_eq_dec N.eq_dec a b); split;
    congruence.
Qed.

(** No string of [a] is in [b]. *)
Definition disjoint (a b : list str) : bool :=
  forallb (fun x => negb (existsb (str_eqb x) b)) a.

Section ResponderFacts.
Variable PwExc : Type.
Variable B : browser PwExc.

Local Abbreviation plog := (list (page_event PwExc)).

(** A click on one of [sels]. *)
Definition ev_click_in (sels : list str) (ev : page_event PwExc) : bool :=
  match ev with
  | PClick sel _ _ => existsb (str_eqb sel) sels
  | _ => false
  end.

(** A click on one of [sels] that did not raise. *)
Definition ev_click_ok (sels : list str) (ev : page_event PwExc) : bool :=
  match ev with
  | PClick sel _ None => existsb (str_eqb sel) sels
  | _ => false
  end.

(** A [fill] that did not raise. *)
Definition ev_fill_ok (ev : page_event PwExc) : bool :=
  match ev with PFill _ _ _ None => true | _ => false end.

(** Neither a click nor a fill. *)
Definition ev_quiet (ev : page_event PwExc) : bool :=
  match ev with PClick _ _ _ | PFill _ _ _ _ => false | _ => true end.

(** A click on one of [sels], or a fill. *)
Definition ev_letter (sels : list str) (ev : page_event PwExc) : bool :=
  match ev with
  | PClick sel _ _ => existsb (str_eqb sel) sels
  | PFill _ _ _ _ => true
  | _ => false
  end.

Lemma existsb_none (A : Type) (f g : A -> bool) (l : list A) :
  forallb g l = true -> (forall x, g x = true -> f x = false) ->
  existsb f l = false.
Proof.
  intros Hl Hfg. induction l as [|x l IH]; [reflexivity|].
  cbn [forallb existsb] in *. apply andb_prop in Hl.
  destruct Hl as [Hx Hl]. now rewrite (Hfg x Hx), IH.
Qed.

Lemma in_other (sels other : list str) (sel : str) :
  disjoint sels other = true -> existsb (str_eqb sel) sels = true ->
  existsb (str_eqb sel) other = false.
Proof.
  intros Hdis Hin. apply existsb_exists in Hin.
  destruct Hin as (x & Hx & Ex). apply str_eqb_eq in Ex. subst x.
  unfold disjoint in Hdis. rewrite forallb_forall in Hdis.
  specialize (Hdis sel Hx). now apply negb_true_iff in Hdis.
Qed.

Lemma clicks_miss (sels other : list str) (new : plog) :
  forallb (ev_click_in sels) new = true -> disjoint sels other = true ->
  existsb (ev_click_ok other) new = false.
Proof.
  intros Hnew Hdis. apply (existsb_none _ _ _ Hnew).
  intros ev Hev. destruct ev as [ | | | | sel t r | | ]; try reflexivity.
  destruct r; [reflexivity|]. cbn in *. now apply (in_other sels).
Qed.

Lemma clicks_no_fill (sels : list str) (new : plog) :
  forallb (ev_click_in sels) new = true -> existsb ev_fill_ok new = false.
Proof.
  intros Hnew. apply (existsb_none _ _ _ Hnew).
  intros ev Hev. now destruct ev.
Qed.

Lemma letter_miss (sels other : list str) (new : plog) :
  forallb (ev_letter sels) new = true -> disjoint sels other = true ->
  existsb (ev_click_ok other) new = false.
Proof.
  intros Hnew Hdis. apply (existsb_none _ _ _ Hnew).
  intros ev Hev. destruct ev as [ | | | | sel t r | | ]; try reflexivity.
  destruct r; [reflexivity|]. cbn in *. now apply (in_other sels).
Qed.

Lemma quiet_no_click (sels : list str) (new : plog) :
  forallb ev_quiet new = true -> existsb (ev_click_ok sels) new = false.
Proof.
  intros Hnew. apply (existsb_none _ _ _ Hnew).
  intros ev Hev. now destruct ev.
Qed.

Lemma quiet_no_fill (new : plog) :
  forallb ev_quiet new = true -> existsb ev_fill_ok new = false.
Proof.
  intros Hnew. apply (existsb_none _ _ _ Hnew).
  intros ev Hev. now destruct ev.
Qed.

Lemma forallb_weaken (A : Type) (f g : A -> bool) (l : list A) :
  (forall x, f x = true -> g x = true) ->
  forallb f l = true -> forallb g l = true.
Proof.
  intros Hfg. rewrite !forallb_forall. auto.
Qed.

Lemma click_in_cons (sel : str) (sels : list str) (ev : page_event PwExc) :
  ev_click_in sels ev = true -> ev_click_in (sel :: sels) ev = true.
Proof.
  destruct ev; try discriminate. cbn. intros ->. apply orb_true_r.
Qed.

Lemma letter_cons (sel : str) (sels : list str) (ev : page_event PwExc) :
  ev_letter sels ev = true -> ev_letter (sel :: sels) ev = true.
Proof.
  destruct ev; try discriminate; cbn; auto. intros ->. apply orb_true_r.
Qed.

Lemma click_ok_cons (sel : str) (sels : list str) (new : plog) :
  forallb (ev_click_in sels) new = true ->
  existsb (ev_click_ok (sel :: sels)) new = existsb (ev_click_ok sels) new.
Proof.
  induction new as [|ev new IH]; [reflexivity|].
  cbn [forallb existsb]. intros H. apply andb_prop in H.
  destruct H as [Hev Hnew]. rewrite (IH Hnew). f_equal.
  destruct ev as [ | | | | s0 t0 r | | ]; try reflexivity.
  destruct r; [reflexivity|]. cbn in *. now rewrite Hev, orb_true_r.
Qed.

(** Every selector of [sels] was clicked. *)
Definition tried (sels : list str) (new : plog) : bool :=
  forallb (fun sel =>
             existsb (fun ev => match ev with
                                | @PClick _ s _ _ => str_eqb s sel
                                | _ => false
                                end) new) sels.

Lemma tried_app_r (sels : list str) (a b : plog) :
  tried sels b = true -> tried sels (a ++ b) = true.
Proof.
  unfold tried. apply forallb_weaken. intros sel H.
  now rewrite existsb_app, H, orb_true_r.
Qed.

Lemma tried_app_l (sels : list str) (a b : plog) :
  tried sels a = true -> tried sels (a ++ b) = true.
Proof.
  unfold tried. apply forallb_weaken. intros sel H.
  now rewrite existsb_app, H.
Qed.

Lemma tried_both (s1 s2 : list str) (new : plog) :
  tried s1 new = true -> tried s2 new = true ->
  tried (s1 ++ s2) new = true.
Proof. unfold tried. intros H1 H2. now rewrite forallb_app, H1, H2. Qed.

(** [safe_click] never raises; it only clicks on its selectors, and
    answers whether one of the clicks went through; when none did, every
    selector was clicked. *)
Lemma safe_click_spec (sels : list str) (t : N) (log : plog) :
  exists new b,
    safe_click B sels t log = (new ++ log, Return b)
    /\ forallb (ev_click_in sels) new = true
    /\ existsb (ev_click_ok sels) new = b
    /\ (b = false -> tried sels new = true).
Proof.
  revert log. induction sels as [|sel sels IH]; intros log.
  - exists [], false. repeat split.
  - assert (Hs : str_eqb sel sel = true) by now apply str_eqb_eq.
    cbn [safe_click]. unfold try_except, bind, click, ret.
    destruct (br_click B log sel t) as [e|] eqn:E; cbn [raised_or_unit].
    + destruct (IH (PClick sel t (Some e) :: log))
        as (new & b & Hrun & Hin & Hok & Ht).
      exists (new ++ [PClick sel t (Some e)]), b.
      rewrite Hrun, <- app_assoc. split; [reflexivity|].
      rewrite forallb_app, existsb_app.
      rewrite (click_ok_cons sel _ _ Hin), Hok.
      rewrite (forallb_weaken _ _ _ (click_in_cons sel sels) Hin).
      cbn. rewrite Hs. cbn. rewrite orb_false_r.
      repeat split. intros Hb. unfold tried. cbn [forallb].
      rewrite existsb_app. cbn [existsb]. rewrite Hs, !orb_true_r.
      apply (tried_app_l _ _ _ (Ht Hb)).
    + exists [PClick sel t None], true. cbn. rewrite Hs.
      repeat split. discriminate.
Qed.

(** [safe_fill] never raises; it only clicks on its selectors and
    fills, and answers whether a fill went through; when none did, every
    selector was clicked. *)
Lemma safe_fill_spec (sels : list str) (value : str) (t : N) (log : plog) :
  exists new b,
    safe_fill B sels value t log = (new ++ log, Return b)
    /\ forallb (ev_letter sels) new = true
    /\ existsb ev_fill_ok new = b
    /\ (b = false -> tried sels new = true).
Proof.
  revert log. induction sels as [|sel sels IH]; intros log.
  - exists [], false. repeat split.
  - assert (Hs : str_eqb sel sel = true) by now apply str_eqb_eq.
    cbn [safe_fill]. unfold try_except, bind, click, fill, ret.
    destruct (br_click B log sel t) as [e|] eqn:E; cbn [raised_or_unit].
    + destruct (IH (PClick sel t (Some e) :: log))
        as (new & b & Hrun & Hin & Hok & Ht).
      exists (new ++ [PClick sel t (Some e)]), b.
      rewrite Hrun, <- app_assoc. split; [reflexivity|].
      rewrite forallb_app, existsb_app, Hok.
      rewrite (forallb_weaken _ _ _ (letter_cons sel sels) Hin).
      cbn. rewrite Hs. cbn. rewrite orb_false_r.
      repeat split. intros Hb. unfold tried. cbn [forallb].
      rewrite existsb_app. cbn [existsb]. rewrite Hs, !orb_true_r.
      apply (tried_app_l _ _ _ (Ht Hb)).
    + destruct (br_fill B (PClick sel t None :: log) sel value t)
        as [e|] eqn:E'; cbn [raised_or_unit].
      * destruct (IH (PFill sel value t (Some e) :: PClick sel t None :: log))
          as (new & b & Hrun & Hin & Hok & Ht).
        exists (new ++ [PFill sel value t (Some e); PClick sel t None]), b.
        rewrite Hrun, <- app_assoc. split; [reflexivity|].
        rewrite forallb_app, existsb_app, Hok.
        rewrite (forallb_weaken _ _ _ (letter_cons sel sels) Hin).
        cbn. rewrite Hs. cbn. rewrite orb_false_r.
        repeat split. intros Hb. unfold tried. cbn [forallb].
        rewrite existsb_app. cbn [existsb]. rewrite Hs, !orb_true_r.
        apply (tried_app_l _ _ _ (Ht Hb)).
      * exists [PFill sel value t None; PClick sel t None], true.
        cbn. rewrite Hs. repeat split. discriminate.
Qed.

(** [wait_settle] makes its two calls whatever the first answers; it
    raises exactly when [wait_for_timeout], outside the [try], raises. *)
Lemma wait_settle_spec (t : N) (log : plog) :
  exists l w,
    wait_settle B t log
    = ([PWaitTimeout 500 w; PWaitLoadState t l] ++ log, raised_or_unit w).
Proof.
  unfold wait_settle, try_except, bind, wait_for_load_state,
    wait_for_timeout, ret.
  destruct (br_wait_load_state B log t) as [e|]; cbn [raised_or_unit];
    eexists _, _; reflexivity.
Qed.

Lemma ensure_logged_in_hint_spec (log : plog) :
  exists new,
    ensure_logged_in_hint B log = (new ++ log, Return tt)
    /\ forallb ev_quiet new = true.
Proof.
  unfold ensure_logged_in_hint, try_except, bind, is_visible, pprint, ret.
  destruct (br_is_visible B log (u "text=Войти") 1200) as [e|[|]].
  - now eexists [_].
  - now eexists [_; _; _].
  - now eexists [_].
Qed.

(** The call that raised [e] is the latest of [new]: the navigation to
    [address], the only call then, or a [wait_for_timeout]. *)
Definition raised_by (address : str) (e : PwExc) (new : plog) : Prop :=
  new = [PGoto address (Some e)]
  \/ exists rest, new = PWaitTimeout 500 (Some e) :: rest.

(** [open_vacancy] raises only when [goto] or [wait_for_timeout]
    does. *)
Lemma open_vacancy_spec (v : Vacancy) (log : plog) :
  exists new r,
    open_vacancy B v log = (new ++ log, r)
    /\ forallb ev_quiet new = true
    /\ (forall e, r = Raise e -> raised_by (url v) e new).
Proof.
  unfold open_vacancy, bind at 1. unfold goto.
  destruct (br_goto B log (url v)) as [e|]; cbn [raised_or_unit].
  - exists [PGoto (url v) (Some e)], (Raise e). repeat split.
    intros e' H. inversion H. now left.
  - unfold bind.
    destruct (wait_settle_spec 20000 (PGoto (url v) None :: log))
      as (l & w & H1). rewrite H1. destruct w as [e|]; cbn [raised_or_unit].
    + exists [PWaitTimeout 500 (Some e); PWaitLoadState 20000 l;
              PGoto (url v) None], (Raise e).
      repeat split. intros e' H. inversion H. right. eauto.
    + destruct (ensure_logged_in_hint_spec
                  ([PWaitTimeout 500 None; PWaitLoadState 20000 l]
                     ++ PGoto (url v) None :: log))
        as (n2 & H2 & Q2). rewrite H2.
      exists (n2 ++ [PWaitTimeout 500 None; PWaitLoadState 20000 l;
                     PGoto (url v) None]), (Return tt).
      rewrite <- !app_assoc. split; [reflexivity|]. split.
      * rewrite !forallb_app, Q2. reflexivity.
      * discriminate.
Qed.

(** The fallback on the editable element, tried when no text area
    took the letter. *)
Definition fill_editable (letter : str) (filled : bool)
    : pio PwExc bool :=
  try_except (click B EDITABLE 6000 ;;; fill B EDITABLE letter 6000 ;;;
              ret true)
             (fun _ => ret filled).

Lemma fill_editable_spec (letter : str) (log : plog) :
  exists new b,
    fill_editable letter false log = (new ++ log, Return b)
    /\ forallb (ev_letter [EDITABLE]) new = true
    /\ existsb ev_fill_ok new = b
    /\ tried [EDITABLE] new = true.
Proof.
  assert (Hs : str_eqb EDITABLE EDITABLE = true) by now apply str_eqb_eq.
  unfold fill_editable, try_except, bind, click, fill, ret.
  destruct (br_click B log EDITABLE 6000) as [e|]; cbn [raised_or_unit].
  - eexists [_], false. split; [reflexivity|].
    cbn [app forallb existsb ev_letter ev_fill_ok tried].
    now rewrite Hs.
  - destruct (br_fill B (PClick EDITABLE 6000 None :: log) EDITABLE letter
                6000) as [e|]; cbn [raised_or_unit].
    + eexists [_; _], false. split; [reflexivity|].
      cbn [app forallb existsb ev_letter ev_fill_ok tried].
      now rewrite Hs.
    + eexists [_; _], true. split; [reflexivity|].
      cbn [app forallb existsb ev_letter ev_fill_ok tried].
      now rewrite Hs.
Qed.

(** The letter controls: the text areas and the editable element. *)
Definition LETTER_CONTROLS : list str := LETTER_SELECTORS ++ [EDITABLE].

(** What the log of one call shows. *)
Definition respond_clicked (new : plog) : bool :=
  existsb (ev_click_ok RESPOND_SELECTORS) new.

Definition letter_filled (new : plog) : bool :=
  existsb ev_fill_ok new.

Definition send_clicked (new : plog) : bool :=
  existsb (ev_click_ok SEND_SELECTORS) new.

(** A letter control was clicked or filled. *)
Definition letter_touched (new : plog) : bool :=
  existsb (ev_letter LETTER_CONTROLS) new.

Definition observed (new : plog) : bool * bool * bool :=
  (respond_clicked new, letter_filled new, send_clicked new).

Definition either (a b : bool * bool * bool) : bool * bool * bool :=
  let '(a1, a2, a3) := a in
  let '(b1, b2, b3) := b in
  (a1 || b1, a2 || b2, a3 || b3).

Lemma observed_app (a b : plog) :
  observed (a ++ b) = either (observed a) (observed b).
Proof.
  unfold observed, either, respond_clicked, letter_filled, send_clicked.
  now rewrite !existsb_app.
Qed.

Lemma observed_quiet (new : plog) :
  forallb ev_quiet new = true -> observed new = (false, false, false).
Proof.
  intros H. unfold observed, respond_clicked, letter_filled, send_clicked.
  now rewrite !quiet_no_click, quiet_no_fill.
Qed.

Lemma observed_respond (new : plog) (b : bool) :
  forallb (ev_click_in RESPOND_SELECTORS) new = true ->
  existsb (ev_click_ok RESPOND_SELECTORS) new = b ->
  observed new = (b, false, false).
Proof.
  intros H Hb. unfold observed, respond_clicked, letter_filled, send_clicked.
  rewrite Hb, (clicks_no_fill _ _ H).
  now rewrite (clicks_miss _ SEND_SELECTORS _ H) by (vm_compute; reflexivity).
Qed.

Lemma observed_send (new : plog) (b : bool) :
  forallb (ev_click_in SEND_SELECTORS) new = true ->
  existsb (ev_click_ok SEND_SELECTORS) new = b ->
  observed new = (false, false, b).
Proof.
  intros H Hb. unfold observed, respond_clicked, letter_filled, send_clicked.
  rewrite Hb, (clicks_no_fill _ _ H).
  now rewrite (clicks_miss _ RESPOND_SELECTORS _ H)
    by (vm_compute; reflexivity).
Qed.

Lemma observed_letter (sels : list str) (new : plog) (b : bool) :
  disjoint sels RESPOND_SELECTORS = true ->
  disjoint sels SEND_SELECTORS = true ->
  forallb (ev_letter sels) new = true ->
  existsb ev_fill_ok new = b ->
  observed new = (false, b, false).
Proof.
  intros D1 D2 H Hb.
  unfold observed, respond_clicked, letter_filled, send_clicked.
  now rewrite Hb, (letter_miss _ _ _ H D1), (letter_miss _ _ _ H D2).
Qed.

Lemma observed_fields (new : plog) (a b c : bool) :
  observed new = (a, b, c) ->
  respond_clicked new = a /\ letter_filled new = b /\ send_clicked new = c.
Proof. unfold observed. intros H. now inversion H. Qed.

Lemma quiet_untouched (new : plog) :
  forallb ev_quiet new = true -> letter_touched new = false.
Proof.
  intros H. apply (existsb_none _ _ _ H). intros ev Hev. now destruct ev.
Qed.

Lemma respond_untouched (new : plog) :
  forallb (ev_click_in RESPOND_SELECTORS) new = true ->
  letter_touched new = false.
Proof.
  intros H. apply (existsb_none _ _ _ H).
  intros ev Hev.
  destruct ev as [ | | | | sel t r | | ]; try reflexivity; try discriminate.
  cbn [ev_click_in ev_letter] in *. apply (in_other RESPOND_SELECTORS);
    [vm_compute; reflexivity | exact Hev].
Qed.

(** What one call of [respond_to_vacancy] does, read off its log. *)
Lemma respond_to_vacancy_spec (v : Vacancy) (letter : str) (submit : bool)
    (log0 : plog) :
  exists new r,
    respond_to_vacancy B v letter submit log0 = (new ++ log0, r)
    /\ match r with
       | Raise e =>
         raised_by (url v) e new /\ letter_touched new = false
       | Return answer =>
         answer = respond_clicked new
                  && (negb (letter_filled new) || negb submit
                      || send_clicked new)
         /\ (respond_clicked new = false ->
             tried RESPOND_SELECTORS new = true)
         /\ (respond_clicked new = true -> letter_filled new = false ->
             tried LETTER_CONTROLS new = true)
         /\ (letter_filled new = true -> submit = true ->
             send_clicked new = false -> tried SEND_SELECTORS new = true)
       end.
Proof.
  unfold respond_to_vacancy. unfold bind at 1.
  destruct (open_vacancy_spec v log0) as (n1 & r1 & H1 & Q1 & E1).
  rewrite H1. destruct r1 as [e|[]].
  { exists n1, (Raise e). split; [reflexivity|].
    split; [now apply E1 | now apply quiet_untouched]. }
  pose proof (quiet_untouched _ Q1) as U1.
  apply observed_quiet in Q1.
  unfold bind at 1.
  destruct (safe_click_spec RESPOND_SELECTORS 12000 (n1 ++ log0))
    as (n2 & clicked & H2 & I2 & O2 & T2).
  rewrite H2. pose proof (observed_respond _ I2 O2) as Q2.
  pose proof (respond_untouched _ I2) as U2.
  destruct clicked; cbn [negb].
  2: { eexists (PPrint PwExc _ :: n2 ++ n1), (Return false).
       split; [unfold bind, pprint, ret; cbn [app];
               now rewrite <- !app_assoc|].
       assert (H : observed (n2 ++ n1) = (false, false, false))
         by now rewrite observed_app, Q1, Q2.
       apply observed_fields in H. destruct H as (Ha & Hb & Hc).
       unfold respond_clicked, letter_filled, send_clicked in *.
       cbn [existsb ev_click_ok ev_fill_ok orb]. rewrite Ha, Hb.
       split; [reflexivity|]. split; [|split; discriminate].
       intros _. apply (tried_app_r _ [_]), tried_app_l, T2. reflexivity. }
  clear T2. unfold bind at 1.
  destruct (wait_settle_spec 20000 (n2 ++ n1 ++ log0)) as (l3 & w3 & H3).
  rewrite H3. set (n3 := [PWaitTimeout 500 w3; PWaitLoadState 20000 l3]).
  assert (Q3 : observed n3 = (false, false, false))
    by (apply observed_quiet; reflexivity).
  assert (U3 : letter_touched n3 = false) by reflexivity.
  destruct w3 as [e|]; cbn [raised_or_unit].
  { exists (n3 ++ n2 ++ n1), (Raise e).
    split; [now rewrite <- !app_assoc|]. split.
    - right. eexists. reflexivity.
    - unfold letter_touched in *. now rewrite !existsb_app, U3, U2, U1. }
  clear U1 U2 U3.
  unfold bind at 1.
  destruct (safe_fill_spec LETTER_SELECTORS letter 12000
              (n3 ++ n2 ++ n1 ++ log0)) as (n4 & filled & H4 & I4 & O4 & T4).
  rewrite H4.
  pose proof (observed_letter LETTER_SELECTORS _
                ltac:(vm_compute; reflexivity)
                ltac:(vm_compute; reflexivity) I4 O4) as Q4.
  unfold bind at 1.
  assert (Hfb : exists n5 filled',
    (if negb filled
     then try_except (click B EDITABLE 6000 ;;;
                      fill B EDITABLE letter 6000 ;;; ret true)
                     (fun _ => ret filled)
     else ret filled) (n4 ++ n3 ++ n2 ++ n1 ++ log0)
    = (n5 ++ n4 ++ n3 ++ n2 ++ n1 ++ log0, Return filled')
    /\ observed (n5 ++ n4) = (false, filled', false)
    /\ (filled' = false -> tried LETTER_CONTROLS (n5 ++ n4) = true)).
  { destruct filled; cbn [negb].
    - exists [], true. split; [reflexivity|]. split; [exact Q4|]. discriminate.
    - destruct (fill_editable_spec letter (n4 ++ n3 ++ n2 ++ n1 ++ log0))
        as (n5 & b & H5 & I5 & O5 & T5).
      exists n5, b. split; [exact H5|]. split.
      + rewrite observed_app, Q4.
        rewrite (observed_letter [EDITABLE] _
                   ltac:(vm_compute; reflexivity)
                   ltac:(vm_compute; reflexivity) I5 O5).
        cbn. now rewrite orb_false_r.
      + intros _. apply tried_both.
        * apply tried_app_r, T4. reflexivity.
        * apply tried_app_l, T5. }
  destruct Hfb as (n5 & filled' & H5 & Q5 & T5). rewrite H5. clear H5.
  assert (Qall : observed (n5 ++ n4 ++ n3 ++ n2 ++ n1)
                 = (true, filled', false)).
  { rewrite app_assoc, observed_app, Q5, !observed_app, Q3, Q2, Q1.
    cbn. now rewrite !orb_false_r. }
  assert (Tall : filled' = false ->
                 tried LETTER_CONTROLS (n5 ++ n4 ++ n3 ++ n2 ++ n1) = true).
  { intros Hf. rewrite app_assoc. apply tried_app_l, T5, Hf. }
  destruct filled'; cbn [negb].
  2: { eexists (PPrint PwExc _ :: n5 ++ n4 ++ n3 ++ n2 ++ n1), (Return true).
       split; [unfold bind, pprint, ret; cbn [app];
               now rewrite <- !app_assoc|].
       apply observed_fields in Qall. destruct Qall as (Ha & Hb & Hc).
       unfold respond_clicked, letter_filled, send_clicked in *.
       cbn [existsb ev_click_ok ev_fill_ok orb]. rewrite Ha, Hb.
       split; [reflexivity|]. split; [discriminate|].
       split; [|discriminate].
       intros _ _. apply (tried_app_r _ [_]), Tall. reflexivity. }
  clear Tall. destruct submit; cbn [negb].
  2: { eexists (PPrint PwExc _ :: n5 ++ n4 ++ n3 ++ n2 ++ n1), (Return true).
       split; [unfold bind, pprint, ret; cbn [app];
               now rewrite <- !app_assoc|].
       apply observed_fields in Qall. destruct Qall as (Ha & Hb & Hc).
       unfold respond_clicked, letter_filled, send_clicked in *.
       cbn [existsb ev_click_ok ev_fill_ok orb]. rewrite Ha, Hb.
       repeat split; discriminate. }
  unfold bind at 1.
  destruct (safe_click_spec SEND_SELECTORS 9000
              (n5 ++ n4 ++ n3 ++ n2 ++ n1 ++ log0))
    as (n6 & sent & H6 & I6 & O6 & T6).
  rewrite H6. pose proof (observed_send _ I6 O6) as Q6.
  assert (Qfin : observed (n6 ++ n5 ++ n4 ++ n3 ++ n2 ++ n1)
                 = (true, true, sent)).
  { rewrite observed_app, Q6, Qall. cbn. now rewrite orb_false_r. }
  exists (PPrint PwExc (if sent then u "[ok] Отклик отправлен: " ++ url v
                        else u "[warn] Не нашёл финальную кнопку отправки. Проверьте вручную: " ++ url v)
          :: n6 ++ n5 ++ n4 ++ n3 ++ n2 ++ n1), (Return sent).
  split.
  - destruct sent; unfold bind, pprint, ret; cbn [app];
      now rewrite <- !app_assoc.
  - apply observed_fields in Qfin. destruct Qfin as (Ha & Hb & Hc).
    unfold respond_clicked, letter_filled, send_clicked in *.
    cbn [existsb ev_click_ok ev_fill_ok orb].
    rewrite Ha, Hb, Hc. split; [now destruct sent|].
    split; [discriminate|]. split; [discriminate|].
    intros _ _ Hs. apply (tried_app_r _ [_]), tried_app_l, T6, Hs.
Qed.

(** C9: once a respond control went through and every way to fill the
    letter was tried and failed (the text areas and, last, the editable
    element), the call returns [true]; [false] is returned only when no
    respond control went through, or when [submit] is set and no send
    control went through.  More precisely, a call that returns answers
    [true] exactly when a respond control went through and the letter
    was not filled, or [submit] is off, or a send control went through;
    and the controls it gave up on were all clicked first.  A call
    raises only from its navigation or from a [wait_for_timeout], before
    any letter control is touched. *)
Theorem respond_to_vacancy_answers (v : Vacancy) (letter : str)
    (submit : bool) (log0 : plog) :
  exists new r,
    respond_to_vacancy B v letter submit log0 = (new ++ log0, r)
    /\ (respond_clicked new = true -> tried [EDITABLE] new = true ->
        letter_filled new = false -> r = Return true)
    /\ (r = Return false ->
        respond_clicked new = false
        \/ (submit = true /\ send_clicked new = false))
    /\ match r with
       | Raise e =>
         raised_by (url v) e new /\ letter_touched new = false
       | Return answer =>
         answer = respond_clicked new
                  && (negb (letter_filled new) || negb submit
                      || send_clicked new)
         /\ (respond_clicked new = false ->
             tried RESPOND_SELECTORS new = true)
         /\ (respond_clicked new = true -> letter_filled new = false ->
             tried LETTER_CONTROLS new = true)
         /\ (letter_filled new = true -> submit = true ->
             send_clicked new = false -> tried SEND_SELECTORS new = true)
       end.
Proof.
  destruct (respond_to_vacancy_spec v letter submit log0)
    as (new & r & Hrun & Hr).
  exists new, r. split; [exact Hrun|].
  split; [|split; [|exact Hr]].
  - intros Hc Ht Hf. destruct r as [e|answer].
    + destruct Hr as [_ Hu]. exfalso.
      unfold tried in Ht. cbn [forallb] in Ht. rewrite andb_true_r in Ht.
      apply existsb_exists in Ht. destruct Ht as (ev & Hev & Hsel).
      unfold letter_touched in Hu.
      assert (Hl : existsb (ev_letter LETTER_CONTROLS) new = true).
      { apply existsb_exists. exists ev. split; [exact Hev|].
        destruct ev as [ | | | | sel t r | | ]; try discriminate.
        apply str_eqb_eq in Hsel. subst sel. vm_compute. reflexivity. }
      congruence.
    + destruct Hr as (-> & _). now rewrite Hc, Hf.
  - intros ->. destruct Hr as (Ha & _).
    destruct (respond_clicked new); [right | now left].
    destruct submit, (send_clicked new), (letter_filled new);
      try discriminate; auto.
Qed.

End ResponderFacts.

(** A page on which only the first respond control can be clicked: the
    letter cannot be filled anywhere, and the call answers [true]. *)
Definition only_respond_button : browser unit :=
  {| br_goto := fun _ _ => None;
     br_wait_load_state := fun _ _ => None;
     br_wait_for_timeout := fun _ _ => None;
     br_is_visible := fun _ _ _ => Return false;
     br_click := fun _ sel _ =>
       if str_eqb sel (u "text=Откликнуться") then None else Some tt;
     br_fill := fun _ _ _ _ => Some tt |}.

Example respond_leaves_page_open :
  snd (respond_to_vacancy only_respond_button
         {| title := u "Python developer";
            url := u "https://hh.ru/vacancy/1";
            snippet := [] |}
         (u "Здравствуйте!") true [])
  = Return true.
Proof. vm_compute. reflexivity. Qed.

(** ** The collector *)

(** [href] is the canonical address of an anchor of [pre]. *)
Definition met (pre : list anchor) (href : str) : bool :=
  existsb (fun b => match canonical b with
                    | Some h => str_eqb href h
                    | None => false
                    end) pre.

Section CollectorFacts.
Variable U : Unicode.

(** The records of the page as the specification describes them: in
    page order, the record of every anchor that is the first with its
    canonical address; [pre] holds the anchors before [l]. *)
Fixpoint first_records (pre l : list anchor) : list Vacancy :=
  match l with
  | [] => []
  | a :: l' =>
    match canonical a with
    | Some href =>
      if met pre href then []
      else match record_of U a href with Some v => [v] | None => [] end
    | None => []
    end ++ first_records (pre ++ [a]) l'
  end.

Lemma record_of_url (a : anchor) (href : str) (v : Vacancy) :
  record_of U a href = Some v -> url v = href.
Proof.
  unfold record_of. destruct (a_text a) as [text|]; [|discriminate].
  destruct (norm_text U text); [discriminate|].
  intros H. inversion H. reflexivity.
Qed.

Lemma met_snoc (pre : list anchor) (a : anchor) (h : str) :
  met (pre ++ [a]) h
  = met pre h || match canonical a with
                 | Some h' => str_eqb h h'
                 | None => false
                 end.
Proof. unfold met. rewrite existsb_app. cbn. now rewrite orb_false_r. Qed.

Lemma firstn_full (A : Type) (n : nat) (l rest : list A) :
  length l = n -> firstn n (l ++ rest) = l.
Proof.
  intros <-. rewrite firstn_app, Nat.sub_diag, firstn_all. cbn.
  apply app_nil_r.
Qed.

(** The loop computes the first [ITEMS_ON_PAGE] of these records. *)
Lemma scan_first_records (l pre : list anchor) (seen : list str)
    (vacancies : list Vacancy) :
  (forall h, existsb (str_eqb h) seen = met pre h) ->
  length vacancies < ITEMS_ON_PAGE ->
  scan U l seen vacancies
  = firstn ITEMS_ON_PAGE (vacancies ++ first_records pre l).
Proof.
  revert pre seen vacancies.
  induction l as [|a l IH]; intros pre seen vacancies Hseen Hlen.
  - cbn [scan first_records]. rewrite app_nil_r, firstn_all2; [reflexivity|].
    lia.
  - cbn [scan first_records].
    destruct (canonical a) as [href|] eqn:Ec.
    + rewrite Hseen. destruct (met pre href) eqn:Em.
      * apply IH; [|exact Hlen]. intros h. rewrite met_snoc, Ec, <- Hseen.
        destruct (str_eqb h href) eqn:Eh; [|now rewrite orb_false_r].
        apply str_eqb_eq in Eh. subst h. now rewrite Hseen, Em.
      * assert (Hseen' : forall h, existsb (str_eqb h) (href :: seen)
                                   = met (pre ++ [a]) h).
        { intros h. rewrite met_snoc, Ec, <- Hseen. cbn [existsb].
          apply orb_comm. }
        destruct (record_of U a href) as [v|].
        -- destruct (ITEMS_ON_PAGE <=? length (vacancies ++ [v])) eqn:El.
           ++ apply Nat.leb_le in El. rewrite length_app in El. cbn in El.
              rewrite (app_assoc vacancies [v]).
              rewrite firstn_full; [reflexivity|].
              rewrite length_app. cbn. unfold ITEMS_ON_PAGE in *. lia.
           ++ apply Nat.leb_gt in El.
              rewrite (app_assoc vacancies [v]). now apply IH.
        -- now apply IH.
    + apply IH; [|exact Hlen]. intros h.
      now rewrite met_snoc, Ec, orb_false_r.
Qed.

Lemma first_records_fresh (l pre : list anchor) (v : Vacancy) :
  In v (first_records pre l) -> met pre (url v) = false.
Proof.
  revert pre. induction l as [|a l IH]; intros pre Hv; [contradiction|].
  cbn [first_records] in Hv. apply in_app_or in Hv. destruct Hv as [Hv|Hv].
  - destruct (canonical a) as [href|]; [|contradiction].
    destruct (met pre href) eqn:Em; [contradiction|].
    destruct (record_of U a href) as [w|] eqn:Er; [|contradiction].
    destruct Hv as [->|[]]. now rewrite (record_of_url _ _ Er).
  - apply IH in Hv. rewrite met_snoc in Hv.
    now apply orb_false_elim in Hv.
Qed.

Lemma first_records_nodup (l pre : list anchor) :
  NoDup (map url (first_records pre l)).
Proof.
  revert pre. induction l as [|a l IH]; intros pre; [constructor|].
  cbn [first_records].
  assert (Hrest := IH (pre ++ [a])).
  destruct (canonical a) as [href|] eqn:Ec; [|exact Hrest].
  destruct (met pre href); [exact Hrest|].
  destruct (record_of U a href) as [v|] eqn:Er; [|exact Hrest].
  cbn. constructor; [|exact Hrest].
  intros Hin. apply in_map_iff in Hin. destruct Hin as (w & Ew & Hw).
  apply first_records_fresh in Hw. rewrite met_snoc, Ec, Ew in Hw.
  apply orb_false_elim in Hw. destruct Hw as [_ Hw].
  rewrite (record_of_url _ _ Er) in Hw.
  assert (Hs : str_eqb href href = true) by now apply str_eqb_eq.
  congruence.
Qed.

Lemma met_false (pre : list anchor) (h : str) :
  met pre h = false -> forall b, In b pre -> canonical b <> Some h.
Proof.
  unfold met. intros Hm b Hb Hc.
  assert (Ht : existsb (fun b => match canonical b with
                                 | Some h' => str_eqb h h'
                                 | None => false
                                 end) pre = true).
  { apply existsb_exists. exists b. split; [exact Hb|].
    rewrite Hc. now apply str_eqb_eq. }
  congruence.
Qed.

Lemma first_records_origin (l pre0 : list anchor) (v : Vacancy) :
  In v (first_records pre0 l) ->
  exists pre a post,
    l = pre ++ a :: post
    /\ canonical a = Some (url v)
    /\ met (pre0 ++ pre) (url v) = false
    /\ record_of U a (url v) = Some v.
Proof.
  revert pre0. induction l as [|a l IH]; intros pre0 Hv; [contradiction|].
  cbn [first_records] in Hv. apply in_app_or in Hv. destruct Hv as [Hv|Hv].
  - destruct (canonical a) as [href|] eqn:Ec; [|contradiction].
    destruct (met pre0 href) eqn:Em; [contradiction|].
    destruct (record_of U a href) as [w|] eqn:Er; [|contradiction].
    destruct Hv as [->|[]]. rewrite (record_of_url _ _ Er).
    exists [], a, l. rewrite app_nil_r. auto.
  - destruct (IH _ Hv) as (pre & b & post & El & Hc & Hm & Hr).
    exists (a :: pre), b, post. subst l. rewrite <- app_assoc in Hm. auto.
Qed.

Lemma in_firstn (A : Type) (n : nat) (l : list A) (x : A) :
  In x (firstn n l) -> In x l.
Proof.
  intros H. rewrite <- (firstn_skipn n l). apply in_or_app. now left.
Qed.

(** C8 (amended): the collector returns, cut after [ITEMS_ON_PAGE]
    records, the records of the scanned anchors that are the first with
    their canonical address, in page order.  So no two records share an
    address, and a record is always built from the first anchor with its
    address: later anchors with that address never give a record. *)
Theorem collect_first_occurrences (page : search_page) :
  let scanned := firstn MAX_LINKS_SCAN (sp_anchors page) in
  let out := collect_vacancies_from_search U page in
  out = (if sp_appeared page
         then firstn ITEMS_ON_PAGE (first_records [] scanned)
         else [])
  /\ NoDup (map url out)
  /\ (forall v, In v out ->
        exists pre a post,
          scanned = pre ++ a :: post
          /\ canonical a = Some (url v)
          /\ (forall b, In b pre -> canonical b <> Some (url v))
          /\ record_of U a (url v) = Some v).
Proof.
  intros scanned out.
  assert (E : out = if sp_appeared page
                    then firstn ITEMS_ON_PAGE (first_records [] scanned)
                    else []).
  { unfold out, collect_vacancies_from_search.
    destruct (sp_appeared page); [|reflexivity]. cbn [negb].
    rewrite (scan_first_records _ []); [reflexivity | reflexivity |].
    unfold ITEMS_ON_PAGE. cbn. lia. }
  split; [exact E|]. rewrite E. clear E out.
  destruct (sp_appeared page); [|split; [constructor | contradiction]].
  split.
  - rewrite <- firstn_map.
    apply (NoDup_app_remove_r _ (skipn ITEMS_ON_PAGE
                                   (map url (first_records [] scanned)))).
    rewrite firstn_skipn. apply first_records_nodup.
  - intros v Hv. apply in_firstn in Hv.
    destruct (first_records_origin _ _ _ Hv)
      as (pre & a & post & El & Hc & Hm & Hr).
    exists pre, a, post. repeat split; auto.
    now apply met_false.
Qed.

(** Two anchors with one canonical address give the record of the
    first, when the first has a title. *)
Lemma two_anchors_collapse (a1 a2 : anchor) (href : str) (v : Vacancy) :
  canonical a1 = Some href -> canonical a2 = Some href ->
  record_of U a1 href = Some v ->
  collect_vacancies_from_search U
    {| sp_appeared := true; sp_anchors := [a1; a2] |} = [v].
Proof.
  intros H1 H2 Hr. unfold collect_vacancies_from_search. cbn.
  rewrite H1, Hr, H2. cbn.
  assert (Hs : str_eqb href href = true) by now apply str_eqb_eq.
  now rewrite Hs.
Qed.

End CollectorFacts.

(** C8, the claim as stated fails: two anchors that differ in their
    query string only, the first with an empty title; the second is
    skipped as already seen, and no record at all is returned. *)
Lemma earlier_anchor_without_title :
  let logo := {| a_href := Some (Some (u "/vacancy/1?from=logo"));
                 a_text := Some [];
                 a_card := None |} in
  let name := {| a_href := Some (Some (u "/vacancy/1?from=title"));
                 a_text := Some (u "Python developer");
                 a_card := Some (u "Python developer  hh.ru") |} in
  canonical logo = Some (u "https://hh.ru/vacancy/1")
  /\ canonical name = Some (u "https://hh.ru/vacancy/1")
  /\ collect_vacancies_from_search plain
       {| sp_appeared := true; sp_anchors := [name] |}
     = [{| title := u "Python developer";
           url := u "https://hh.ru/vacancy/1";
           snippet := u "Python developer hh.ru" |}]
  /\ collect_vacancies_from_search plain
       {| sp_appeared := true; sp_anchors := [logo; name] |} = [].
Proof. vm_compute. repeat split. Qed.

(** ** URL parameters *)

(** The values bound to [key] in a list of items. *)
Definition values_of (key : str) (items : list (str * str)) : list str :=
  map snd (filter (fun kv => str_eqb (fst kv) key) items).

(** The query string of a URL, read off the text: what stands between
    the first question mark and the fragment. *)
Definition url_query (address : str) : str :=
  let before :=
    match split1 35 address with Some (a, _) => a | None => address end in
  match split1 63 before with Some (_, q) => q | None => [] end.

Section DictFacts.

Lemma str_eqb_refl (a : str) : str_eqb a a = true.
Proof. now apply str_eqb_eq. Qed.

Lemma dict_set_keys (d : dict) (k v x : str) :
  In x (map fst (dict_set d k v)) -> x = k \/ In x (map fst d).
Proof.
  induction d as [|[k' v'] d IH]; cbn [dict_set map fst In].
  - intros [H|[]]; auto.
  - destruct (str_eqb k' k) eqn:E; cbn [map fst In]; intuition.
Qed.

Lemma dict_set_nodup (d : dict) (k v : str) :
  NoDup (map fst d) -> NoDup (map fst (dict_set d k v)).
Proof.
  induction d as [|[k' v'] d IH]; cbn [dict_set map fst]; intros H.
  - constructor; [intros [] | constructor].
  - inversion H as [|? ? Hk Hd]; subst.
    destruct (str_eqb k' k) eqn:E; cbn [map fst]; constructor; auto.
    intros Hin. apply dict_set_keys in Hin. destruct Hin as [->|Hin]; auto.
    rewrite str_eqb_refl in E. discriminate.
Qed.

Lemma dict_of_nodup (items : list (str * str)) :
  NoDup (map fst (dict_of items)).
Proof.
  unfold dict_of.
  assert (H : forall d, NoDup (map fst d) ->
                NoDup (map fst (fold_left
                  (fun d kv => dict_set d (fst kv) (snd kv)) items d))).
  { induction items as [|kv items IH]; intros d Hd; cbn [fold_left];
      [exact Hd|].
    apply IH. now apply dict_set_nodup. }
  apply H. constructor.
Qed.

Lemma filter_absent (d : dict) (k : str) :
  ~ In k (map fst d) -> filter (fun kv => str_eqb (fst kv) k) d = [].
Proof.
  induction d as [|[k' v'] d IH]; cbn [filter map fst In]; intros H;
    [reflexivity|].
  destruct (str_eqb k' k) eqn:E.
  - apply str_eqb_eq in E. tauto.
  - apply IH. tauto.
Qed.

(** After [d[k] = v] the dict holds [k] once, bound to [v]. *)
Lemma dict_set_values (d : dict) (k v : str) :
  NoDup (map fst d) -> values_of k (dict_set d k v) = [v].
Proof.
  unfold values_of.
  induction d as [|[k' v'] d IH]; cbn [dict_set map fst]; intros H.
  - cbn. now rewrite str_eqb_refl.
  - inversion H as [|? ? Hk Hd]; subst.
    destruct (str_eqb k' k) eqn:E; cbn [filter fst]; rewrite E.
    + apply str_eqb_eq in E. subst k'.
      now rewrite (filter_absent _ _ Hk).
    + now apply IH.
Qed.

End DictFacts.

Section SplitFacts.

Lemma split1_some (c : char) (s a b : str) :
  split1 c s = Some (a, b) -> s = a ++ c :: b /\ ~ In c a.
Proof.
  revert a b. induction s as [|x s IH]; intros a b; cbn [split1];
    [discriminate|].
  destruct (N.eqb_spec x c) as [->|Hx].
  - intros H. inversion H. split; [reflexivity | intros []].
  - destruct (split1 c s) as [[a' b']|]; [|discriminate].
    intros H. inversion H; subst. destruct (IH a' b eq_refl) as [-> Hn].
    split; [reflexivity|]. intros [E|Hin]; auto.
Qed.

Lemma split1_none (c : char) (s : str) :
  split1 c s = None -> ~ In c s.
Proof.
  induction s as [|x s IH]; cbn [split1]; [intros _ []|].
  destruct (N.eqb_spec x c) as [->|Hx]; [discriminate|].
  destruct (split1 c s) as [[a' b']|]; [discriminate|].
  intros _ [E|Hin]; auto. now apply IH.
Qed.

(** The first [c] of a text is found where it stands. *)
Lemma split1_at (c : char) (a b : str) :
  ~ In c a -> split1 c (a ++ c :: b) = Some (a, b).
Proof.
  induction a as [|x a IH]; cbn [app split1]; intros H.
  - now rewrite N.eqb_refl.
  - destruct (N.eqb_spec x c) as [->|Hx]; [exfalso; apply H; now left|].
    rewrite IH; [reflexivity|]. intros Hin. apply H. now right.
Qed.

Lemma split1_absent (c : char) (s : str) :
  ~ In c s -> split1 c s = None.
Proof.
  induction s as [|x s IH]; cbn [split1]; intros H; [reflexivity|].
  destruct (N.eqb_spec x c) as [->|Hx]; [exfalso; apply H; now left|].
  rewrite IH; [reflexivity|]. intros Hin. apply H. now right.
Qed.

Lemma split_on_absent (sep : char) (s : str) :
  ~ In sep s -> split_on sep s = [s].
Proof.
  induction s as [|x s IH]; cbn [split_on]; intros H; [reflexivity|].
  destruct (N.eqb_spec x sep) as [->|Hx]; [exfalso; apply H; now left|].
  rewrite IH; [reflexivity|]. intros Hin. apply H. now right.
Qed.

Lemma split_on_at (sep : char) (a b : str) :
  ~ In sep a -> split_on sep (a ++ sep :: b) = a :: split_on sep b.
Proof.
  induction a as [|x a IH]; cbn [app split_on]; intros H.
  - now rewrite N.eqb_refl.
  - destruct (N.eqb_spec x sep) as [->|Hx]; [exfalso; apply H; now left|].
    rewrite IH; [reflexivity|]. intros Hin. apply H. now right.
Qed.

(** Splitting undoes joining, when no part holds the separator. *)
Lemma split_on_join (sep : char) (parts : list str) :
  parts <> [] -> Forall (fun p => ~ In sep p) parts ->
  split_on sep (join [sep] parts) = parts.
Proof.
  induction parts as [|p parts IH]; intros Hne Hall; [congruence|].
  inversion Hall as [|? ? Hp Hparts]; subst.
  destruct parts as [|p' parts].
  - now apply split_on_absent.
  - change (join [sep] (p :: p' :: parts))
      with (p ++ sep :: join [sep] (p' :: parts)).
    rewrite split_on_at by exact Hp.
    rewrite IH; [reflexivity | discriminate | exact Hparts].
Qed.

End SplitFacts.

(** Settles every comparison of the goal that linear arithmetic decides. *)
Ltac decide_cmp :=
  repeat match goal with
         | |- context [N.ltb ?a ?b] =>
           first [ replace (N.ltb a b) with true
                     by (symmetry; apply N.ltb_lt; lia)
                 | replace (N.ltb a b) with false
                     by (symmetry; apply N.ltb_ge; lia) ]
         | |- context [N.leb ?a ?b] =>
           first [ replace (N.leb a b) with true
                     by (symmetry; apply N.leb_le; lia)
                 | replace (N.leb a b) with false
                     by (symmetry; apply N.leb_gt; lia) ]
         | |- context [N.eqb ?a ?b] =>
           first [ replace (N.eqb a b) with true
                     by (symmetry; apply N.eqb_eq; lia)
                 | replace (N.eqb a b) with false
                     by (symmetry; apply N.eqb_neq; lia) ]
         end.

Section Utf8Facts.

Local Open Scope N_scope.

(** [c = 64 * q + r] with [r < 64]. *)
Lemma split64 (c : N) : exists q r, c = 64 * q + r /\ r < 64
                                   /\ c / 64 = q /\ c mod 64 = r.
Proof.
  exists (c / 64), (c mod 64). repeat split.
  - apply N.div_mod. lia.
  - apply N.mod_lt. lia.
Qed.

(** Decoding reads back one encoded character. *)
Lemma utf8_decode_encoded (c : char) (rest : list N) :
  match utf8_encode_char c with
  | Some bs => utf8_decode (bs ++ rest) = c :: utf8_decode rest
               /\ Forall (fun b => b < 256) bs
  | None => True
  end.
Proof.
  unfold utf8_encode_char, between.
  destruct (N.ltb_spec c 128) as [L1|L1].
  { cbn [app utf8_decode]. decide_cmp. split; [reflexivity|].
    repeat constructor. lia. }
  destruct (split64 c) as (q1 & r1 & E1 & R1 & D1 & M1).
  destruct (N.ltb_spec c 2048) as [L2|L2].
  { rewrite D1, M1. clear D1 M1.
    cbn [app utf8_decode]. unfold second_ok, is_cont, between.
    decide_cmp. cbn [negb orb andb]. split; [f_equal; lia|].
    repeat constructor; lia. }
  destruct (split64 q1) as (q2 & r2 & E2 & R2 & D2 & M2).
  assert (D12 : c / 4096 = q2).
  { change 4096 with (64 * 64). now rewrite <- N.Div0.div_div, D1. }
  destruct (N.ltb_spec c 65536) as [L3|L3].
  { destruct (N.leb_spec 55296 c) as [S1|S1];
      destruct (N.leb_spec c 57343) as [S2|S2];
      cbn [andb]; try exact I.
    all: rewrite D12, D1, M1, M2; clear D12 D1 M1 D2 M2.
    all: cbn [app utf8_decode]; unfold second_ok, is_cont, between.
    all: destruct (N.eq_dec q2 0) as [Z|Z];
      [|destruct (N.eq_dec q2 13) as [Z'|Z']].
    all: decide_cmp; cbn [negb orb andb].
    all: (split; [f_equal; lia | repeat constructor; lia]). }
  destruct (split64 q2) as (q3 & r3 & E3 & R3 & D3 & M3).
  assert (D13 : c / 262144 = q3).
  { change 262144 with (4096 * 64).
    now rewrite <- N.Div0.div_div, D12. }
  destruct (N.ltb_spec c 1114112) as [L4|L4]; [|exact I].
  rewrite D13, D12, D1, M1, M2, M3.
  clear D13 D12 D1 M1 D2 M2 D3 M3.
  cbn [app utf8_decode]; unfold second_ok, is_cont, between.
  destruct (N.eq_dec q3 0) as [Z|Z]; [|destruct (N.eq_dec q3 4) as [Z'|Z']].
  all: decide_cmp; cbn [negb orb andb].
  all: (split; [f_equal; lia | repeat constructor; lia]).
Qed.

(** [utf8_decode] undoes [utf8_encode], whose bytes are bytes. *)
Lemma utf8_roundtrip (s : str) (bs : list N) :
  utf8_encode s = Some bs ->
  utf8_decode bs = s /\ Forall (fun b => b < 256) bs.
Proof.
  revert bs. induction s as [|c s IH]; intros bs; cbn [utf8_encode].
  - intros E. inversion E. split; constructor.
  - pose proof (utf8_decode_encoded c) as Hc.
    destruct (utf8_encode_char c) as [a|]; [|discriminate].
    destruct (utf8_encode s) as [b|]; [|discriminate].
    intros E. inversion E. destruct (IH b eq_refl) as [Hd Hb].
    destruct (Hc b) as [Hc1 Hc2]. split.
    + now rewrite Hc1, Hd.
    + apply Forall_app. now split.
Qed.

End Utf8Facts.

Section QuoteFacts.

Local Open Scope N_scope.

(** The characters [quote_plus] writes: the always safe ones, the
    percent sign and the plus sign. *)
Definition quoted_char (c : char) : bool :=
  always_safe c || N.eqb c 37 || N.eqb c 43.

(** The same with the space that [quote] leaves for [quote_plus]. *)
Definition quoted_or_space (c : char) : bool :=
  always_safe c || N.eqb c 37 || N.eqb c 32.

Lemma always_safe_cases (c : char) :
  always_safe c = true ->
  (65 <= c <= 90) \/ (97 <= c <= 122) \/ (48 <= c <= 57)
  \/ c = 95 \/ c = 46 \/ c = 45 \/ c = 126.
Proof.
  unfold always_safe, between.
  change (u "_.-~") with [95; 46; 45; 126]. cbn [in_str existsb].
  rewrite !orb_true_iff, !andb_true_iff, !N.leb_le, !N.eqb_eq.
  intuition lia.
Qed.

Lemma hexdigit_safe (n : N) : n < 16 -> always_safe (hexdigit n) = true.
Proof.
  intros H. unfold always_safe, hexdigit, between.
  destruct (N.ltb_spec n 10); decide_cmp; reflexivity.
Qed.

Lemma hexval_hexdigit (n : N) : n < 16 -> hexval (hexdigit n) = Some n.
Proof.
  intros H. unfold hexval, hexdigit, between.
  destruct (N.ltb_spec n 10); decide_cmp; cbn [andb]; f_equal; lia.
Qed.

Lemma quote_byte_chars (P : char -> bool) (safe : str) (b : N) :
  (forall c, always_safe c = true -> P c = true) -> P 37 = true ->
  forallb P safe = true -> b < 256 ->
  forallb P (quote_byte safe b) = true.
Proof.
  intros Hs Hp Hsafe Hb. unfold quote_byte.
  destruct (always_safe b) eqn:Es; cbn [orb].
  - cbn. now rewrite Hs.
  - destruct (in_str b safe) eqn:Ei.
    + cbn. rewrite andb_true_r. unfold in_str in Ei.
      apply existsb_exists in Ei. destruct Ei as (x & Hx & Ex).
      apply N.eqb_eq in Ex. subst x.
      rewrite forallb_forall in Hsafe. now apply Hsafe.
    + cbn [forallb]. rewrite Hp, !Hs; [reflexivity | |];
        apply hexdigit_safe.
      * apply N.mod_lt. lia.
      * apply N.Div0.div_lt_upper_bound. lia.
Qed.

(** Unquoting reads back one quoted byte. *)
Lemma unquote_quote_byte (safe : str) (b : N) (rest : str) :
  b < 256 -> in_str 37 safe = false ->
  unquote_to_bytes (quote_byte safe b ++ rest)
  = b :: unquote_to_bytes rest.
Proof.
  intros Hb Hsafe. unfold quote_byte.
  destruct (always_safe b || in_str b safe) eqn:E.
  - cbn [app unquote_to_bytes].
    destruct (N.eqb_spec b 37) as [->|Hne]; [|reflexivity].
    rewrite Hsafe in E. discriminate.
  - cbn [app unquote_to_bytes]. cbn [N.eqb Pos.eqb].
    rewrite !hexval_hexdigit.
    + f_equal. rewrite N.mul_comm. symmetry. rewrite N.mul_comm.
      apply N.div_mod. lia.
    + apply N.mod_lt. lia.
    + apply N.Div0.div_lt_upper_bound. lia.
Qed.

Lemma unquote_quote_bytes (safe : str) (bs : list N) :
  Forall (fun b => b < 256) bs -> in_str 37 safe = false ->
  unquote_to_bytes (flat_map (quote_byte safe) bs) = bs.
Proof.
  intros Hbs Hsafe. induction Hbs as [|b bs Hb _ IH]; [reflexivity|].
  cbn [flat_map]. now rewrite unquote_quote_byte, IH.
Qed.

Lemma quote_bytes_chars (P : char -> bool) (safe : str) (bs : list N) :
  (forall c, always_safe c = true -> P c = true) -> P 37 = true ->
  forallb P safe = true -> Forall (fun b => b < 256) bs ->
  forallb P (flat_map (quote_byte safe) bs) = true.
Proof.
  intros Hs Hp Hsafe Hbs. induction Hbs as [|b bs Hb _ IH]; [reflexivity|].
  cbn [flat_map]. now rewrite forallb_app, quote_byte_chars, IH.
Qed.

Lemma safe_quoted_or_space (c : char) :
  always_safe c = true -> quoted_or_space c = true.
Proof. unfold quoted_or_space. now intros ->. Qed.

Lemma safe_quoted_char (c : char) :
  always_safe c = true -> quoted_char c = true.
Proof. unfold quoted_char. now intros ->. Qed.

Lemma replace_absent (a b : char) (s : str) :
  in_str a s = false -> replace_char a b s = s.
Proof.
  unfold replace_char, in_str.
  induction s as [|c s IH]; [reflexivity|]. cbn [existsb map].
  intros H. apply orb_false_elim in H. destruct H as [Hc Hs].
  rewrite N.eqb_sym, Hc. now rewrite IH.
Qed.

Lemma replace_back (a b : char) (s : str) :
  in_str b s = false -> replace_char b a (replace_char a b s) = s.
Proof.
  unfold replace_char, in_str.
  induction s as [|c s IH]; [reflexivity|]. cbn [existsb map].
  intros H. apply orb_false_elim in H. destruct H as [Hc Hs].
  rewrite IH by exact Hs. f_equal.
  destruct (N.eqb_spec c a) as [->|Hca].
  - now rewrite N.eqb_refl.
  - now rewrite N.eqb_sym, Hc.
Qed.

Lemma no_plus (s : str) :
  forallb quoted_or_space s = true -> in_str 43 s = false.
Proof.
  intros H. unfold in_str. apply (existsb_none _ _ _ H).
  intros c Hc. unfold quoted_or_space in Hc.
  apply N.eqb_neq. intros <-. discriminate.
Qed.

Lemma quoted_ascii (s : str) :
  forallb quoted_or_space s = true ->
  forallb (fun c => N.ltb c 128) s = true.
Proof.
  apply forallb_weaken. intros c. unfold quoted_or_space.
  rewrite !orb_true_iff, !N.eqb_eq, N.ltb_lt.
  intros [[H|H]|H]; [|lia|lia].
  apply always_safe_cases in H. lia.
Qed.

Lemma utf8_decode_ascii (s : str) :
  forallb (fun c => N.ltb c 128) s = true -> utf8_decode s = s.
Proof.
  induction s as [|c s IH]; [reflexivity|]. cbn [forallb utf8_decode].
  intros H. apply andb_prop in H. destruct H as [Hc Hs].
  now rewrite Hc, IH.
Qed.

Lemma unquote_to_bytes_plain (s : str) :
  in_str 37 s = false -> unquote_to_bytes s = s.
Proof.
  unfold in_str. induction s as [|c s IH]; [reflexivity|].
  cbn [existsb unquote_to_bytes]. intros H.
  apply orb_false_elim in H. destruct H as [Hc Hs].
  rewrite N.eqb_sym in Hc. now rewrite Hc, IH.
Qed.

Lemma unquote_runs_ascii (s run : str) :
  forallb (fun c => N.ltb c 128) s = true ->
  unquote_runs s run = utf8_decode (unquote_to_bytes (rev run ++ s)).
Proof.
  revert run. induction s as [|c s IH]; intros run; cbn [forallb unquote_runs].
  - now rewrite app_nil_r.
  - intros H. apply andb_prop in H. destruct H as [Hc Hs].
    rewrite Hc, IH by exact Hs. cbn [rev]. now rewrite <- app_assoc.
Qed.

(** On ASCII text [unquote] is: unquote to bytes, then decode. *)
Lemma unquote_ascii (s : str) :
  forallb (fun c => N.ltb c 128) s = true ->
  unquote s = utf8_decode (unquote_to_bytes s).
Proof.
  intros H. unfold unquote. destruct (in_str 37 s) eqn:E.
  - now rewrite unquote_runs_ascii.
  - now rewrite unquote_to_bytes_plain, utf8_decode_ascii.
Qed.

Lemma no_space (s : str) :
  forallb quoted_char s = true -> in_str 32 s = false.
Proof.
  intros H. unfold in_str. apply (existsb_none _ _ _ H).
  intros c Hc. unfold quoted_char in Hc.
  apply N.eqb_neq. intros <-. discriminate.
Qed.

(** What [parse_qsl] does to a name or a value undoes [quote_plus]. *)
Lemma unquote_quote_plus (s q : str) :
  quote_plus s = Some q ->
  unquote (replace_char 43 32 q) = s
  /\ forallb quoted_char q = true.
Proof.
  unfold quote_plus, quote.
  destruct (utf8_encode s) as [bs|] eqn:Ebs;
    [|destruct (in_str 32 s); discriminate].
  destruct (utf8_roundtrip _ Ebs) as [Hdec Hbytes].
  destruct (in_str 32 s); cbn [option_map]; intros E;
    apply (f_equal (fun o => match o with Some x => x | None => [] end)) in E;
    cbn beta iota in E; subst q.
  - pose proof (quote_bytes_chars quoted_or_space [32]
                  safe_quoted_or_space eq_refl eq_refl Hbytes) as Hq.
    rewrite replace_back by now apply no_plus.
    rewrite unquote_ascii by now apply quoted_ascii.
    rewrite unquote_quote_bytes by (auto; reflexivity).
    split; [exact Hdec|].
    unfold replace_char. rewrite forallb_forall in *.
    intros c Hc. apply in_map_iff in Hc. destruct Hc as (x & Ex & Hx).
    subst c. specialize (Hq x Hx). unfold quoted_or_space in Hq.
    unfold quoted_char. destruct (N.eqb x 32) eqn:E32; [reflexivity|].
    rewrite orb_false_r in Hq. now rewrite Hq.
  - pose proof (quote_bytes_chars quoted_char []
                  safe_quoted_char eq_refl eq_refl Hbytes) as Hq.
    assert (Hq' : forallb quoted_or_space
                    (flat_map (quote_byte []) bs) = true).
    { apply (quote_bytes_chars quoted_or_space []
               safe_quoted_or_space eq_refl eq_refl Hbytes). }
    rewrite replace_absent by now apply no_plus.
    rewrite unquote_ascii by now apply quoted_ascii.
    rewrite unquote_quote_bytes by (auto; reflexivity).
    split; [exact Hdec | exact Hq].
Qed.

End QuoteFacts.

(** The characters of an encoded query: those of [quote_plus], the
    equals sign and the ampersand. *)
Definition query_char (c : char) : bool :=
  quoted_char c || N.eqb c 61 || N.eqb c 38.

Section QueryFacts.

Local Open Scope N_scope.

Lemma forallb_absent (P : char -> bool) (c : char) (s : str) :
  forallb P s = true -> P c = false -> ~ In c s.
Proof.
  rewrite forallb_forall. intros H Hc Hin.
  rewrite (H _ Hin) in Hc. discriminate.
Qed.

Lemma quoted_query_char (s : str) :
  forallb quoted_char s = true -> forallb query_char s = true.
Proof.
  apply forallb_weaken. intros c H. unfold query_char. now rewrite H.
Qed.

(** [parse_qsl] reads a pair back as it was written. *)
Lemma parse_pair_quoted (k v qk qv : str) :
  quote_plus k = Some qk -> quote_plus v = Some qv ->
  parse_pair (qk ++ 61 :: qv) = (k, v).
Proof.
  intros Hk Hv.
  destruct (unquote_quote_plus _ Hk) as [Ek Ck].
  destruct (unquote_quote_plus _ Hv) as [Ev Cv].
  unfold parse_pair.
  rewrite split1_at
    by (apply (forallb_absent quoted_char); [exact Ck | reflexivity]).
  cbn [fst snd]. now rewrite Ek, Ev.
Qed.

Lemma urlencode_items_spec (d : dict) (l : list str) :
  urlencode_items d = Some l ->
  map parse_pair l = d
  /\ Forall (fun p => ~ In 38 p) l
  /\ Forall (fun p => forallb query_char p = true) l
  /\ filter nonempty l = l
  /\ (d <> [] -> l <> []).
Proof.
  revert l. induction d as [|[k v] d IH]; intros l; cbn [urlencode_items].
  - intros E. apply (f_equal (fun o => match o with
                                       | Some x => x | None => [[]] end)) in E.
    cbn beta iota in E. subst l. repeat split; auto.
  - destruct (quote_plus k) as [qk|] eqn:Ek; [|discriminate].
    destruct (quote_plus v) as [qv|] eqn:Ev; [|discriminate].
    destruct (urlencode_items d) as [l'|]; [|discriminate].
    intros E. apply (f_equal (fun o => match o with
                                       | Some x => x | None => [] end)) in E.
    cbn beta iota in E. subst l.
    destruct (IH l' eq_refl) as (Hm & Hamp & Hch & Hne & _).
    destruct (unquote_quote_plus _ Ek) as [_ Ck].
    destruct (unquote_quote_plus _ Ev) as [_ Cv].
    assert (Hq : forallb query_char (qk ++ 61 :: qv) = true).
    { rewrite forallb_app. cbn [forallb].
      rewrite !quoted_query_char by assumption. reflexivity. }
    repeat split.
    + cbn [map]. now rewrite (parse_pair_quoted _ _ Ek Ev), Hm.
    + constructor; [|exact Hamp].
      intros Hin. apply in_app_or in Hin. destruct Hin as [Hin|[Hin|Hin]].
      * apply (forallb_absent quoted_char _ _ Ck) in Hin;
          [exact Hin | reflexivity].
      * discriminate Hin.
      * apply (forallb_absent quoted_char _ _ Cv) in Hin;
          [exact Hin | reflexivity].
    + constructor; [exact Hq | exact Hch].
    + cbn [filter].
      replace (nonempty (qk ++ 61 :: qv)) with true
        by (now destruct qk).
      now rewrite Hne.
    + discriminate.
Qed.

Lemma join_query_chars (l : list str) :
  Forall (fun p => forallb query_char p = true) l ->
  forallb query_char (join [38] l) = true.
Proof.
  induction 1 as [|p l Hp Hl IH]; [reflexivity|].
  destruct l as [|p' l]; [exact Hp|].
  change (join [38] (p :: p' :: l)) with (p ++ 38 :: join [38] (p' :: l)).
  rewrite forallb_app. cbn [forallb]. now rewrite Hp, IH.
Qed.

Lemma join_nonempty (l : list str) :
  l <> [] -> filter nonempty l = l -> join [38] l <> [].
Proof.
  destruct l as [|p l]; [congruence|]. intros _.
  cbn [filter]. destruct p as [|c p].
  - cbn [nonempty]. intros E.
    assert (H : (length (filter nonempty l) <= length l)%nat)
      by apply filter_length_le.
    rewrite E in H. cbn [length] in H. lia.
  - intros _. destruct l; discriminate.
Qed.

(** What [urlencode] writes, [parse_qsl] reads back. *)
Lemma parse_qsl_urlencode (d : dict) (q : str) :
  d <> [] -> urlencode d = Some q ->
  parse_qsl q = d /\ q <> [] /\ forallb query_char q = true.
Proof.
  intros Hd. unfold urlencode.
  destruct (urlencode_items d) as [l|] eqn:El; [|discriminate].
  cbn [option_map]. intros E.
  apply (f_equal (fun o => match o with Some x => x | None => [] end)) in E.
  cbn beta iota in E. subst q.
  destruct (urlencode_items_spec _ El) as (Hm & Hamp & Hch & Hne & Hl).
  specialize (Hl Hd).
  pose proof (join_nonempty Hl Hne) as Hj.
  repeat split; [|exact Hj|now apply join_query_chars].
  unfold parse_qsl. destruct (join [38] l) eqn:Ej; [congruence|].
  rewrite <- Ej. now rewrite split_on_join, Hne.
Qed.

Lemma dict_set_nonempty (d : dict) (k v : str) : dict_set d k v <> [].
Proof.
  destruct d as [|[k' v'] d]; cbn [dict_set]; [discriminate|].
  destruct (str_eqb k' k); discriminate.
Qed.

Lemma dict_set_fresh (d : dict) (k v : str) :
  ~ In k (map fst d) -> dict_set d k v = d ++ [(k, v)].
Proof.
  induction d as [|[k' v'] d IH]; cbn [dict_set map fst In app]; intros H;
    [reflexivity|].
  destruct (str_eqb k' k) eqn:E.
  - apply str_eqb_eq in E. tauto.
  - rewrite IH; [reflexivity | tauto].
Qed.

(** A list of items without a repeated name is the dict made of it. *)
Lemma dict_of_items (items : list (str * str)) :
  NoDup (map fst items) -> dict_of items = items.
Proof.
  unfold dict_of.
  assert (H : forall d, NoDup (map fst (d ++ items)) ->
                fold_left (fun d kv => dict_set d (fst kv) (snd kv)) items d
                = d ++ items).
  { induction items as [|[k v] items IH]; intros d Hd; cbn [fold_left].
    - now rewrite app_nil_r.
    - cbn [fst snd]. rewrite dict_set_fresh.
      + rewrite IH; rewrite <- app_assoc; [reflexivity | exact Hd].
      + rewrite map_app in Hd. cbn [map fst] in Hd.
        apply NoDup_remove_2 in Hd. intros Hin. apply Hd.
        apply in_or_app. now left. }
  intros Hn. now rewrite H.
Qed.

End QueryFacts.

(** ** The shape of a URL *)

(** Neither a question mark nor a number sign. *)
Definition path_char (c : char) : bool :=
  negb (N.eqb c 63) && negb (N.eqb c 35).

(** [s] reads: some text without [?] and [#], then [?], the query [q],
    and nothing more or a fragment. *)
Definition has_query (q s : str) : Prop :=
  exists P F, s = P ++ 63%N :: q ++ F
              /\ forallb path_char P = true
              /\ (F = [] \/ exists f, F = 35%N :: f).

(** What [urlunsplit] writes before the query. *)
Definition url_head (scheme netloc url : str) : str :=
  let url :=
    if nonempty netloc
       || (nonempty scheme && existsb (str_eqb scheme) uses_netloc
           && negb (startswith (u "//") url))
    then
      let url :=
        if nonempty url && negb (startswith (u "/") url)
        then u "/" ++ url else url in
      u "//" ++ netloc ++ url
    else url in
  if nonempty scheme then scheme ++ u ":" ++ url else url.

Section UrlFacts.

Local Open Scope N_scope.

Variable bracketed_ok : str -> bool.
Variable nfkc_ok : str -> bool.

Lemma path_char_absent (s : str) :
  forallb path_char s = true -> ~ In 63 s /\ ~ In 35 s.
Proof.
  intros H. split; apply (forallb_absent path_char _ _ H); reflexivity.
Qed.

Lemma query_char_absent (q : str) :
  forallb query_char q = true -> ~ In 35 q.
Proof.
  intros H. apply (forallb_absent query_char _ _ H). reflexivity.
Qed.

Lemma split1_app_absent (c : char) (P R : str) :
  ~ In c P ->
  split1 c (P ++ R)
  = match split1 c R with
    | Some (a, b) => Some (P ++ a, b)
    | None => None
    end.
Proof.
  induction P as [|x P IH]; cbn [app split1]; intros H.
  - now destruct (split1 c R) as [[a b]|].
  - destruct (N.eqb_spec x c) as [->|Hx]; [exfalso; apply H; now left|].
    rewrite IH by (intros Hin; apply H; now right).
    now destruct (split1 c R) as [[a b]|].
Qed.

(** The query of a text of this shape, read off the text. *)
Lemma has_query_url_query (q s : str) :
  ~ In 35 q -> has_query q s -> url_query s = q.
Proof.
  intros Hq (P & F & -> & HP & HF). unfold url_query.
  destruct (path_char_absent _ HP) as [HP63 HP35].
  destruct HF as [->|[f ->]].
  - rewrite app_nil_r.
    rewrite (@split1_absent 35).
    + cbv iota. now rewrite split1_at.
    + intros Hin. apply in_app_or in Hin.
      destruct Hin as [Hin|[Hin|Hin]]; auto. discriminate Hin.
  - change (P ++ 63 :: q ++ 35 :: f) with (P ++ (63 :: q) ++ 35 :: f).
    rewrite app_assoc. rewrite (@split1_at 35).
    + cbv iota. now rewrite split1_at.
    + intros Hin. apply in_app_or in Hin.
      destruct Hin as [Hin|[Hin|Hin]]; auto. discriminate Hin.
Qed.

Lemma has_query_lstrip (q s : str) :
  has_query q s -> has_query q (lstrip_c0 s).
Proof.
  intros (P & F & -> & HP & HF).
  induction P as [|c P IH].
  - exists [], F. cbn [app lstrip_c0].
    replace (N.leb 63 32) with false by reflexivity. auto.
  - cbn [forallb] in HP. apply andb_prop in HP. destruct HP as [Hc HP].
    cbn [app lstrip_c0]. destruct (N.leb c 32).
    + now apply IH.
    + exists (c :: P), F. cbn [forallb]. rewrite Hc, HP. auto.
Qed.

Lemma filter_all (A : Type) (f : A -> bool) (l : list A) :
  forallb f l = true -> filter f l = l.
Proof.
  induction l as [|x l IH]; [reflexivity|]. cbn [forallb filter].
  intros H. apply andb_prop in H. destruct H as [Hx Hl].
  now rewrite Hx, IH.
Qed.

Lemma forallb_filter (A : Type) (f g : A -> bool) (l : list A) :
  forallb f l = true -> forallb f (filter g l) = true.
Proof.
  rewrite !forallb_forall. intros H x Hx. apply filter_In in Hx.
  apply H. tauto.
Qed.

Lemma has_query_filter (f : char -> bool) (q s : str) :
  forallb f q = true -> f 63 = true -> f 35 = true ->
  has_query q s -> has_query q (filter f s).
Proof.
  intros Hq H63 H35 (P & F & -> & HP & HF).
  exists (filter f P), (filter f F).
  rewrite filter_app. cbn [filter]. rewrite H63, filter_app.
  rewrite (filter_all _ _ Hq). split; [reflexivity|].
  split; [now apply forallb_filter|].
  destruct HF as [->|[x ->]]; [now left|].
  right. cbn [filter]. rewrite H35. eauto.
Qed.

Lemma in_str_forall (P : char -> bool) (f : char -> char) (l a : str) :
  forallb (fun c => P (f c)) l = true ->
  forallb (fun c => in_str c l) a = true ->
  forallb P (map f a) = true.
Proof.
  rewrite !forallb_forall. intros Hl Ha c Hc.
  apply in_map_iff in Hc. destruct Hc as (x & <- & Hx).
  specialize (Ha x Hx). unfold in_str in Ha.
  apply existsb_exists in Ha. destruct Ha as (y & Hy & E).
  apply N.eqb_eq in E. subst y. now apply Hl.
Qed.

(** A scheme holds neither [?] nor [#]. *)
Lemma scheme_chars_path (a : str) :
  forallb (fun c => in_str c scheme_chars) a = true ->
  forallb path_char (map basic_lower a) = true.
Proof.
  apply in_str_forall. vm_compute. reflexivity.
Qed.

Lemma scheme_chars_stop (P a : str) :
  forallb (fun c => in_str c scheme_chars) (P ++ 63 :: a) = false.
Proof.
  rewrite forallb_app. cbn [forallb].
  assert (E : in_str 63 scheme_chars = false) by (vm_compute; reflexivity).
  rewrite E. apply andb_false_r.
Qed.

Lemma has_query_scheme (q s : str) :
  has_query q s -> has_query q (snd (split_scheme s)).
Proof.
  intros (P & F & -> & HP & HF). unfold split_scheme.
  assert (Hsame : has_query q (P ++ 63 :: q ++ F))
    by (exists P, F; auto).
  destruct (split1 58 P) as [[a b]|] eqn:E.
  - apply split1_some in E. destruct E as [-> Ha].
    rewrite <- app_assoc. cbn [app]. rewrite split1_at by exact Ha.
    destruct a as [|c a]; [rewrite app_nil_l; exact Hsame|].
    destruct (is_ascii_alpha c
              && forallb (fun c => in_str c scheme_chars) (c :: a)).
    + cbn [snd]. exists b, F. split; [reflexivity|]. split; [|exact HF].
      rewrite forallb_app in HP. apply andb_prop in HP.
      destruct HP as [_ HP]. cbn [forallb] in HP.
      apply andb_prop in HP. tauto.
    + cbn [snd]. rewrite <- app_assoc in Hsame. exact Hsame.
  - apply split1_none in E. rewrite split1_app_absent by exact E.
    cbn [split1]. replace (N.eqb 63 58) with false by reflexivity.
    destruct (split1 58 (q ++ F)) as [[a b]|]; [|exact Hsame].
    pose proof (scheme_chars_stop P a) as Hno.
    destruct P as [|c P]; cbn [app] in Hno |- *;
      match goal with
      | |- context [_ && ?y] =>
        replace y with false by (symmetry; exact Hno)
      end;
      rewrite andb_false_r; exact Hsame.
Qed.

Lemma has_query_span (f : char -> bool) (q s : str) :
  f 63 = false ->
  has_query q s -> has_query q (snd (span f s)).
Proof.
  intros H63 (P & F & -> & HP & HF).
  induction P as [|c P IH].
  - cbn [app span]. rewrite H63. cbn [snd]. exists [], F. auto.
  - cbn [forallb] in HP. apply andb_prop in HP. destruct HP as [Hc HP].
    cbn [app span]. destruct (f c).
    + specialize (IH HP). destruct (span f (P ++ 63 :: q ++ F)).
      exact IH.
    + cbn [snd]. exists (c :: P), F. cbn [forallb]. rewrite Hc, HP. auto.
Qed.

Lemma has_query_skip2 (q s : str) :
  startswith [47; 47] s = true ->
  has_query q s -> has_query q (skipn 2 s).
Proof.
  intros Hs (P & F & -> & HP & HF).
  destruct P as [|c1 [|c2 P]].
  - cbn in Hs. discriminate Hs.
  - cbn [app startswith] in Hs.
    replace (N.eqb 47 63) with false in Hs by reflexivity.
    rewrite andb_false_r in Hs. discriminate Hs.
  - cbn [app skipn]. exists P, F. split; [reflexivity|].
    split; [|exact HF]. cbn [forallb] in HP.
    apply andb_prop in HP. destruct HP as [_ HP].
    apply andb_prop in HP. tauto.
Qed.

(** [urlsplit] finds the query of a text of this shape. *)
Lemma urlsplit_has_query (q s : str) (r : SplitResult) :
  forallb query_char q = true -> has_query q s ->
  urlsplit bracketed_ok nfkc_ok s = Some r -> sr_query r = q.
Proof.
  intros Hq Hs. unfold urlsplit.
  assert (H1 : has_query q
                 (filter (fun c => negb (in_str c [9; 13; 10]))
                         (lstrip_c0 s))).
  { apply has_query_filter; [|reflexivity|reflexivity|].
    - revert Hq. apply forallb_weaken. intros c.
      unfold query_char, quoted_char.
      rewrite !orb_true_iff, !N.eqb_eq. intros H.
      assert (Hc : 33 <= c).
      { destruct H as [[[[H|H]|H]|H]|H]; try lia.
        apply always_safe_cases in H. lia. }
      unfold in_str. cbn [existsb].
      destruct (N.eqb_spec c 9); [lia|].
      destruct (N.eqb_spec c 13); [lia|].
      destruct (N.eqb_spec c 10); [lia|]. reflexivity.
    - now apply has_query_lstrip. }
  pose proof (has_query_scheme H1) as H2.
  destruct (split_scheme _) as [scheme s2]. cbn [snd] in H2.
  change (u "//") with [47; 47].
  assert (H3 : forall netloc s3 brackets,
            has_query q s3 ->
            (let (url, fragment) :=
               match split1 35 s3 with
               | Some ab => ab
               | None => (s3, [])
               end in
             let (url0, query) :=
               match split1 63 url with
               | Some ab => ab
               | None => (url, [])
               end in
             let checked :=
               negb (nonempty netloc)
               || forallb (fun c => N.ltb c 128) netloc
               || nfkc_ok netloc in
             if brackets && checked
             then Some {| sr_scheme := scheme; sr_netloc := netloc;
                          sr_path := url0; sr_query := query;
                          sr_fragment := fragment |}
             else None) = Some r -> sr_query r = q).
  { intros netloc s3 brackets (P & F & -> & HP & HF).
    destruct (path_char_absent _ HP) as [HP63 HP35].
    pose proof (query_char_absent _ Hq) as Hq35.
    destruct HF as [->|[f ->]].
    - rewrite app_nil_r. rewrite split1_absent.
      + rewrite split1_at by exact HP63. cbv zeta.
        destruct (brackets && _); [|discriminate].
        intros E. apply (f_equal (fun o => match o with
                                           | Some x => sr_query x
                                           | None => []
                                           end)) in E.
        cbn in E. now symmetry.
      + intros Hin. apply in_app_or in Hin.
        destruct Hin as [Hin|[Hin|Hin]]; auto. discriminate Hin.
    - change (P ++ 63 :: q ++ 35 :: f) with (P ++ (63 :: q) ++ 35 :: f).
      rewrite app_assoc. rewrite split1_at.
      + rewrite split1_at by exact HP63. cbv zeta.
        destruct (brackets && _); [|discriminate].
        intros E. apply (f_equal (fun o => match o with
                                           | Some x => sr_query x
                                           | None => []
                                           end)) in E.
        cbn in E. now symmetry.
      + intros Hin. apply in_app_or in Hin.
        destruct Hin as [Hin|[Hin|Hin]]; auto. discriminate Hin. }
  destruct (startswith [47; 47] s2) eqn:E2.
  - pose proof (has_query_span (fun c => negb (in_str c (u "/?#"))) eq_refl
                               (has_query_skip2 E2 H2)) as H4.
    destruct (span _ (skipn 2 s2)) as [netloc s3]. cbn [snd] in H4.
    now apply H3.
  - now apply H3.
Qed.

Lemma urlunsplit_head (scheme netloc url query fragment : str) :
  urlunsplit scheme netloc url query fragment
  = url_head scheme netloc url
    ++ (if nonempty query then 63 :: query else [])
    ++ (if nonempty fragment then 35 :: fragment else []).
Proof.
  unfold urlunsplit, url_head.
  change (u "?") with [63]. change (u "#") with [35].
  destruct (nonempty query), (nonempty fragment); cbn [app];
    rewrite ?app_nil_r, <- ?app_assoc; reflexivity.
Qed.

Lemma url_head_path (scheme netloc url : str) :
  forallb path_char scheme = true -> forallb path_char netloc = true ->
  forallb path_char url = true ->
  forallb path_char (url_head scheme netloc url) = true.
Proof.
  intros Hs Hn Hu. unfold url_head.
  change (u "//") with [47; 47]. change (u "/") with [47].
  change (u ":") with [58].
  repeat match goal with
         | |- context [if ?b then _ else _] => destruct b
         end;
    rewrite ?forallb_app; cbn [forallb app];
    rewrite ?forallb_app; cbn [forallb app];
    rewrite ?Hs, ?Hn, ?Hu; reflexivity.
Qed.

Lemma span_prefix (f : char -> bool) (s : str) :
  forallb f (fst (span f s)) = true.
Proof.
  induction s as [|c s IH]; [reflexivity|]. cbn [span].
  destruct (f c) eqn:E; [|reflexivity].
  destruct (span f s). cbn [fst forallb] in *. now rewrite E, IH.
Qed.

Lemma split_scheme_path (s : str) :
  forallb path_char (fst (split_scheme s)) = true.
Proof.
  unfold split_scheme. destruct (split1 58 s) as [[a b]|]; [|reflexivity].
  destruct a as [|c a]; [reflexivity|].
  destruct (is_ascii_alpha c) ; [|reflexivity]. cbn [andb].
  destruct (forallb _ (c :: a)) eqn:E; [|reflexivity].
  cbn [fst]. now apply scheme_chars_path.
Qed.

(** The parts [urlsplit] puts before the query hold neither [?]
    nor [#]. *)
Lemma urlsplit_parts (s : str) (r : SplitResult) :
  urlsplit bracketed_ok nfkc_ok s = Some r ->
  forallb path_char (sr_scheme r) = true
  /\ forallb path_char (sr_netloc r) = true
  /\ forallb path_char (sr_path r) = true.
Proof.
  unfold urlsplit.
  pose proof (split_scheme_path
                (filter (fun c => negb (in_str c [9; 13; 10]))
                        (lstrip_c0 s))) as Hsch.
  destruct (split_scheme _) as [scheme s2]. cbn [fst] in Hsch.
  assert (H3 : forall netloc s3 brackets,
            forallb path_char netloc = true ->
            (let (url, fragment) :=
               match split1 35 s3 with
               | Some ab => ab
               | None => (s3, [])
               end in
             let (url0, query) :=
               match split1 63 url with
               | Some ab => ab
               | None => (url, [])
               end in
             let checked :=
               negb (nonempty netloc)
               || forallb (fun c => N.ltb c 128) netloc
               || nfkc_ok netloc in
             if brackets && checked
             then Some {| sr_scheme := scheme; sr_netloc := netloc;
                          sr_path := url0; sr_query := query;
                          sr_fragment := fragment |}
             else None) = Some r ->
            forallb path_char (sr_scheme r) = true
            /\ forallb path_char (sr_netloc r) = true
            /\ forallb path_char (sr_path r) = true).
  { intros netloc s3 brackets Hn.
    assert (Hpath : forall a b : str,
              ~ In 35 a ->
              (let (url0, query) :=
                 match split1 63 a with
                 | Some ab => ab
                 | None => (a, [])
                 end in
               let checked :=
                 negb (nonempty netloc)
                 || forallb (fun c => N.ltb c 128) netloc
                 || nfkc_ok netloc in
               if brackets && checked
               then Some {| sr_scheme := scheme; sr_netloc := netloc;
                            sr_path := url0; sr_query := query;
                            sr_fragment := b |}
               else None) = Some r ->
              forallb path_char (sr_scheme r) = true
              /\ forallb path_char (sr_netloc r) = true
              /\ forallb path_char (sr_path r) = true).
    { intros a b Ha.
      assert (Hp : forall p : str, ~ In 63 p -> ~ In 35 p ->
                     forallb path_char p = true).
      { intros p H63 H35. apply forallb_forall. intros c Hc.
        unfold path_char.
        destruct (N.eqb_spec c 63) as [->|_]; [tauto|].
        destruct (N.eqb_spec c 35) as [->|_]; [tauto|]. reflexivity. }
      destruct (split1 63 a) as [[p qq]|] eqn:E63.
      - apply split1_some in E63. destruct E63 as [-> Hp63]. cbv zeta.
        destruct (brackets && _); [|discriminate].
        intros E. apply (f_equal (fun o => match o with
                                           | Some x => x
                                           | None => r
                                           end)) in E.
        subst r. cbn [sr_scheme sr_netloc sr_path].
        repeat split; auto. apply Hp; [exact Hp63|].
        intros Hin. apply Ha. apply in_or_app. now left.
      - apply split1_none in E63. cbv zeta.
        destruct (brackets && _); [|discriminate].
        intros E. apply (f_equal (fun o => match o with
                                           | Some x => x
                                           | None => r
                                           end)) in E.
        subst r. cbn [sr_scheme sr_netloc sr_path].
        repeat split; auto. }
    destruct (split1 35 s3) as [[a b]|] eqn:E35.
    - apply split1_some in E35. destruct E35 as [-> Ha]. now apply Hpath.
    - apply split1_none in E35. now apply Hpath. }
  change (u "//") with [47; 47].
  destruct (startswith [47; 47] s2).
  - pose proof (span_prefix (fun c => negb (in_str c (u "/?#")))
                            (skipn 2 s2)) as Hn.
    destruct (span _ (skipn 2 s2)) as [netloc s3]. cbn [fst] in Hn.
    apply H3. revert Hn. apply forallb_weaken. intros c.
    change (u "/?#") with [47; 63; 35]. unfold in_str, path_char.
    cbn [existsb].
    destruct (N.eqb c 47), (N.eqb c 63), (N.eqb c 35);
      cbn; congruence.
  - now apply H3.
Qed.

(** One call: the URL returned has the encoded dict as its query, it
    reads back as the dict of the old query with [key] bound to
    [value], and [urlsplit] finds the same query in it. *)
Lemma set_query_param_spec (url key value out : str) :
  set_query_param bracketed_ok nfkc_ok url key value = Some out ->
  exists parts,
    urlsplit bracketed_ok nfkc_ok url = Some parts
    /\ parse_qsl (url_query out)
       = dict_set (dict_of (parse_qsl (sr_query parts))) key value
    /\ (forall r, urlsplit bracketed_ok nfkc_ok out = Some r ->
                  sr_query r = url_query out).
Proof.
  unfold set_query_param.
  destruct (urlsplit bracketed_ok nfkc_ok url) as [parts|] eqn:Eparts;
    [|discriminate].
  cbv zeta.
  destruct (urlencode _) as [q|] eqn:Eq; [|discriminate].
  intros E. apply (f_equal (fun o => match o with
                                     | Some x => x | None => [] end)) in E.
  cbn beta iota in E. subst out.
  destruct (parse_qsl_urlencode (@dict_set_nonempty _ _ _) Eq)
    as (Hparse & Hne & Hch).
  destruct (@urlsplit_parts _ _ Eparts) as (Hs & Hn & Hp).
  assert (Hform : has_query q
                    (urlunsplit (sr_scheme parts) (sr_netloc parts)
                                (sr_path parts) q (sr_fragment parts))).
  { rewrite urlunsplit_head.
    exists (url_head (sr_scheme parts) (sr_netloc parts) (sr_path parts)),
           (if nonempty (sr_fragment parts)
            then 35 :: sr_fragment parts else []).
    replace (nonempty q) with true by (destruct q; [congruence|reflexivity]).
    split; [reflexivity|]. split; [now apply url_head_path|].
    destruct (nonempty (sr_fragment parts)); eauto. }
  pose proof (@has_query_url_query _ _ (@query_char_absent _ Hch) Hform)
    as Hq.
  exists parts. split; [reflexivity|]. rewrite Hq. split; [exact Hparse|].
  intros r Hr. exact (@urlsplit_has_query _ _ _ Hch Hform Hr).
Qed.

(** The URL of a search holds [page] once, with the page asked for. *)
Lemma build_search_url_page (query : str) (page : N) (area : option N)
    (experience : option str) (remote : bool) (salary : option N)
    (only_with_salary : bool) (out : str) :
  build_search_url bracketed_ok nfkc_ok query page area experience remote
                   salary only_with_salary = Some out ->
  values_of (u "page") (parse_qsl (url_query out)) = [str_of_N page].
Proof.
  unfold build_search_url, bind_opt.
  repeat match goal with
         | |- match ?m with Some _ => _ | None => None end = _ -> _ =>
           destruct m eqn:?; [|discriminate]
         end.
  intros H. destruct (set_query_param_spec _ _ _ H) as (p & _ & Hq & _).
  rewrite Hq.
  match goal with
  | E : str_int page = Some _ |- _ =>
    revert E; unfold str_int; destruct (Nat.leb _ _); intros E;
    [inversion E; subst | discriminate E]
  end.
  apply dict_set_values, dict_of_nodup.
Qed.

(** C7: setting a parameter twice.  When [set_query_param url key v1]
    returns [u1] and [set_query_param u1 key v2] returns [u2], the
    query of [u2] binds [key] exactly once, to the value written last;
    no name occurs twice in it; it is the query of [u1] with the value
    of [key] overwritten in place (in [u1] the key is bound once, to
    [v1]); and where [urlsplit] accepts [u2], the query it finds is the
    one read off the text. *)
Theorem set_query_param_last_write_wins (url key v1 v2 u1 u2 : str) :
  set_query_param bracketed_ok nfkc_ok url key v1 = Some u1 ->
  set_query_param bracketed_ok nfkc_ok u1 key v2 = Some u2 ->
  values_of key (parse_qsl (url_query u1)) = [v1]
  /\ values_of key (parse_qsl (url_query u2)) = [v2]
  /\ NoDup (map fst (parse_qsl (url_query u2)))
  /\ parse_qsl (url_query u2) = dict_set (parse_qsl (url_query u1)) key v2
  /\ (forall r, urlsplit bracketed_ok nfkc_ok u2 = Some r ->
                sr_query r = url_query u2).
Proof.
  intros H1 H2.
  destruct (set_query_param_spec _ _ _ H1) as (p1 & _ & Hq1 & Hr1).
  destruct (set_query_param_spec _ _ _ H2) as (p2 & Hp2 & Hq2 & Hr2).
  rewrite (Hr1 _ Hp2) in Hq2.
  assert (Hn1 : NoDup (map fst (parse_qsl (url_query u1)))).
  { rewrite Hq1. apply dict_set_nodup, dict_of_nodup. }
  rewrite (@dict_of_items _ Hn1) in Hq2.
  repeat split.
  - rewrite Hq1. apply dict_set_values, dict_of_nodup.
  - rewrite Hq2. now apply dict_set_values.
  - rewrite Hq2. now apply dict_set_nodup.
  - exact Hq2.
  - exact Hr2.
Qed.

End UrlFacts.

(** The listing URL of a search, with [page] set to 1 and then to 2. *)
Lemma set_query_param_last_write_wins_witness :
  set_query_param (fun _ => true) (fun _ => true)
    (u "https://hh.ru/search/vacancy?text=python+django&items_on_page=20&page=0#top")
    (u "page") (u "1")
  = Some (u "https://hh.ru/search/vacancy?text=python+django&items_on_page=20&page=1#top")
  /\ set_query_param (fun _ => true) (fun _ => true)
       (u "https://hh.ru/search/vacancy?text=python+django&items_on_page=20&page=1#top")
       (u "page") (u "2")
     = Some (u "https://hh.ru/search/vacancy?text=python+django&items_on_page=20&page=2#top")
  /\ values_of (u "page")
       (parse_qsl (url_query
          (u "https://hh.ru/search/vacancy?text=python+django&items_on_page=20&page=2#top")))
     = [u "2"].
Proof.
  split; [vm_compute; reflexivity|]. split; [vm_compute; reflexivity|].
  refine (proj1 (proj2 (@set_query_param_last_write_wins
           (fun _ => true) (fun _ => true)
           (u "https://hh.ru/search/vacancy?text=python+django&items_on_page=20&page=0#top")
           (u "page") (u "1") (u "2")
           (u "https://hh.ru/search/vacancy?text=python+django&items_on_page=20&page=1#top")
           (u "https://hh.ru/search/vacancy?text=python+django&items_on_page=20&page=2#top")
           _ _)));
    vm_compute; reflexivity.
Defined.

(** ** The listing URL *)

(** The address of the listing, up to the question mark. *)
Definition LISTING : str := u "https://hh.ru/search/vacancy".

(** The parameters [build_search_url] sets after the three of the base
    address, in the order it sets them. *)
Definition filter_params (page : N) (area : option N)
    (experience : option str) (remote : bool) (salary : option N)
    (only_with_salary : bool) : dict :=
  match area with Some a => [(u "area", str_of_N a)] | None => [] end
  ++ match experience with
     | Some ((_ :: _) as e) => [(u "experience", e)]
     | _ => []
     end
  ++ (if remote then [(u "schedule", u "remote")] else [])
  ++ match salary with Some n => [(u "salary", str_of_N n)] | None => [] end
  ++ (if only_with_salary then [(u "only_with_salary", u "true")] else [])
  ++ [(u "page", str_of_N page)].

(** All the parameters of a listing address. *)
Definition search_params (query : str) (page : N) (area : option N)
    (experience : option str) (remote : bool) (salary : option N)
    (only_with_salary : bool) : dict :=
  [(u "text", query);
   (u "items_on_page", str_of_N (N.of_nat ITEMS_ON_PAGE));
   (u "no_magic", u "true")]
  ++ filter_params page area experience remote salary only_with_salary.

(** The value a [dict] made of [items] binds to [key]: the last one. *)
Definition last_value (key : str) (items : list (str * str)) : option str :=
  fold_left (fun acc kv => if str_eqb (fst kv) key then Some (snd kv) else acc)
            items None.

Section ListingText.

Local Open Scope N_scope.

Lemma span_at (f : char -> bool) (a : str) (c : char) (r : str) :
  forallb f a = true -> f c = false -> span f (a ++ c :: r) = (a, c :: r).
Proof.
  intros Ha Hc. induction a as [|x a IH]; cbn [app span].
  - now rewrite Hc.
  - cbn [forallb] in Ha. apply andb_prop in Ha. destruct Ha as [Hx Ha].
    now rewrite Hx, IH.
Qed.

Lemma query_char_plain (q : str) :
  forallb query_char q = true ->
  forallb (fun c => negb (in_str c [9; 13; 10])) q = true.
Proof.
  apply forallb_weaken. intros c.
  unfold query_char, quoted_char.
  rewrite !orb_true_iff, !N.eqb_eq. intros H.
  assert (Hc : 33 <= c).
  { destruct H as [[[[H|H]|H]|H]|H]; try lia.
    apply always_safe_cases in H. lia. }
  unfold in_str. cbn [existsb].
  destruct (N.eqb_spec c 9); [lia|].
  destruct (N.eqb_spec c 13); [lia|].
  destruct (N.eqb_spec c 10); [lia|]. reflexivity.
Qed.

Lemma not_in_str (c : char) (s : str) : in_str c s = false -> ~ In c s.
Proof.
  unfold in_str. intros H Hin.
  assert (Ht : existsb (N.eqb c) s = true).
  { apply existsb_exists. exists c. split; [exact Hin | apply N.eqb_refl]. }
  congruence.
Qed.

Lemma lstrip_c0_keep (P R : str) :
  match P with c :: _ => N.leb c 32 | [] => true end = false ->
  lstrip_c0 (P ++ R) = P ++ R.
Proof.
  destruct P as [|c P]; [discriminate|]. cbn [app lstrip_c0]. now intros ->.
Qed.

Lemma split_scheme_at (a R : str) :
  ~ In 58 a ->
  match a with
  | c :: _ => is_ascii_alpha c && forallb (fun c => in_str c scheme_chars) a
  | [] => false
  end = true ->
  split_scheme (a ++ 58 :: R) = (map basic_lower a, R).
Proof.
  intros Ha Hs. unfold split_scheme. rewrite split1_at by exact Ha.
  destruct a as [|c a]; [discriminate|]. now rewrite Hs.
Qed.

Lemma listing_parts :
  LISTING = u "https" ++ 58 :: 47 :: 47
            :: (u "hh.ru" ++ 47 :: u "search/vacancy").
Proof. vm_compute. reflexivity. Qed.

Lemma listing_app (R : str) :
  LISTING ++ R
  = u "https" ++ 58 :: 47 :: 47 :: u "hh.ru" ++ 47 :: u "search/vacancy" ++ R.
Proof.
  rewrite listing_parts.
  rewrite <- app_assoc. rewrite <- !app_comm_cons.
  rewrite <- app_assoc. rewrite <- app_comm_cons.
  reflexivity.
Qed.

Lemma urlunsplit_query (scheme netloc path q : str) :
  q <> [] ->
  urlunsplit scheme netloc path q [] = url_head scheme netloc path ++ 63 :: q.
Proof.
  intros Hq. rewrite urlunsplit_head.
  destruct q as [|c q]; [congruence|]. cbn [nonempty]. now rewrite app_nil_r.
Qed.

Lemma urlencode_nonempty (d : dict) (q : str) :
  d <> [] -> urlencode d = Some q -> q <> [].
Proof. intros Hd E. now destruct (parse_qsl_urlencode Hd E) as (_ & H & _). Qed.

Lemma urlencode_items_app (a b : dict) :
  urlencode_items (a ++ b)
  = match urlencode_items a, urlencode_items b with
    | Some x, Some y => Some (x ++ y)
    | _, _ => None
    end.
Proof.
  induction a as [|[k v] a IH]; cbn [app urlencode_items].
  - now destruct (urlencode_items b).
  - rewrite IH. destruct (quote_plus k), (quote_plus v),
      (urlencode_items a), (urlencode_items b); reflexivity.
Qed.

Lemma urlencode_prefix (a b : dict) :
  urlencode a = None -> urlencode (a ++ b) = None.
Proof.
  unfold urlencode. rewrite urlencode_items_app.
  destruct (urlencode_items a); [discriminate | reflexivity].
Qed.

End ListingText.

Section ListingFacts.

Local Open Scope N_scope.

Variable bracketed_ok : str -> bool.
Variable nfkc_ok : str -> bool.

(** [urlsplit] on an address [scheme://host/path?q] without fragment,
    with a host that needs neither of the host-name checks. *)
Lemma urlsplit_plain (scheme host path q : str) :
  match scheme with c :: _ => N.leb c 32 | [] => true end = false ->
  forallb (fun c => negb (in_str c [9; 13; 10])) scheme = true ->
  forallb (fun c => negb (in_str c [9; 13; 10])) host = true ->
  forallb (fun c => negb (in_str c [9; 13; 10])) path = true ->
  forallb query_char q = true ->
  in_str 58 scheme = false ->
  match scheme with
  | c :: _ =>
    is_ascii_alpha c && forallb (fun c => in_str c scheme_chars) scheme
  | [] => false
  end = true ->
  map basic_lower scheme = scheme ->
  forallb (fun c => negb (in_str c (u "/?#"))) host = true ->
  in_str 91 host = false -> in_str 93 host = false ->
  forallb (fun c => N.ltb c 128) host = true ->
  in_str 35 path = false -> in_str 63 path = false ->
  urlsplit bracketed_ok nfkc_ok
    (scheme ++ 58 :: 47 :: 47 :: host ++ 47 :: path ++ 63 :: q)
  = Some {| sr_scheme := scheme; sr_netloc := host;
            sr_path := 47 :: path; sr_query := q; sr_fragment := [] |}.
Proof.
  intros Hhead Ts Th Tp Hq Hcolon Hscheme Hlower Hhost H91 H93 Hascii
         H35 H63.
  pose proof (query_char_plain _ Hq) as Tq.
  pose proof (@query_char_absent q Hq) as Hq35.
  unfold urlsplit.
  rewrite lstrip_c0_keep by exact Hhead.
  rewrite filter_all.
  2:{ rewrite forallb_app. cbn [forallb]. rewrite forallb_app.
      cbn [forallb]. rewrite forallb_app. cbn [forallb].
      rewrite Ts, Th, Tp, Tq. reflexivity. }
  rewrite split_scheme_at by (try apply not_in_str; assumption).
  rewrite Hlower.
  replace (u "//") with [47; 47] by (vm_compute; reflexivity).
  cbn [startswith].
  replace (N.eqb 47 47) with true by (vm_compute; reflexivity).
  cbn [andb skipn].
  rewrite span_at; [|exact Hhost | vm_compute; reflexivity].
  rewrite H91, H93. cbn [xorb andb].
  rewrite app_comm_cons.
  rewrite (@split1_absent 35).
  2:{ intros Hin. apply in_app_or in Hin.
      destruct Hin as [[Hin|Hin]|[Hin|Hin]];
        [discriminate Hin | revert Hin; now apply not_in_str
        | discriminate Hin | auto]. }
  rewrite split1_at.
  2:{ intros [Hin|Hin]; [discriminate Hin|].
      revert Hin. now apply not_in_str. }
  rewrite Hascii, orb_true_r. reflexivity.
Qed.

(** [urlsplit] takes a listing address apart without consulting the
    host-name checks. *)
Lemma urlsplit_listing (q : str) :
  forallb query_char q = true ->
  urlsplit bracketed_ok nfkc_ok (LISTING ++ 63 :: q)
  = Some {| sr_scheme := u "https"; sr_netloc := u "hh.ru";
            sr_path := u "/search/vacancy"; sr_query := q;
            sr_fragment := [] |}.
Proof.
  intros Hq. rewrite listing_app.
  replace (u "/search/vacancy") with (47 :: u "search/vacancy")
    by (vm_compute; reflexivity).
  apply urlsplit_plain; try exact Hq; vm_compute; reflexivity.
Qed.

Lemma set_query_param_parts (url scheme netloc path query fragment k v : str) :
  urlsplit bracketed_ok nfkc_ok url
  = Some {| sr_scheme := scheme; sr_netloc := netloc; sr_path := path;
            sr_query := query; sr_fragment := fragment |} ->
  set_query_param bracketed_ok nfkc_ok url k v
  = option_map (fun q' => urlunsplit scheme netloc path q' fragment)
               (urlencode (dict_set (dict_of (parse_qsl query)) k v)).
Proof.
  unfold set_query_param. intros ->. cbn [sr_scheme sr_netloc sr_path
                                          sr_query sr_fragment].
  now destruct (urlencode _).
Qed.

(** Setting a parameter of a listing address: the address of the
    listing again, with the dict encoded anew. *)
Lemma set_listing_param (d : dict) (q k v : str) :
  d <> [] -> NoDup (map fst d) -> urlencode d = Some q ->
  set_query_param bracketed_ok nfkc_ok (LISTING ++ 63 :: q) k v
  = option_map (fun q' => LISTING ++ 63 :: q') (urlencode (dict_set d k v)).
Proof.
  intros Hd Hn E.
  destruct (parse_qsl_urlencode Hd E) as (Hparse & Hne & Hch).
  rewrite (@set_query_param_parts _ _ _ _ _ _ k v (urlsplit_listing q Hch)).
  rewrite Hparse, (@dict_of_items _ Hn).
  destruct (urlencode (dict_set d k v)) as [q'|] eqn:E'; [|reflexivity].
  cbn [option_map]. f_equal.
  rewrite urlunsplit_query
    by (apply (urlencode_nonempty (@dict_set_nonempty d k v) E')).
  replace (url_head (u "https") (u "hh.ru") (u "/search/vacancy"))
    with LISTING by (vm_compute; reflexivity).
  reflexivity.
Qed.

End ListingFacts.

(** Setting the parameters of [params] one after the other, as the
    chain of assignments to [base] does. *)
Fixpoint set_all (bracketed_ok nfkc_ok : str -> bool) (params : dict)
    (base : str) : option str :=
  match params with
  | [] => Some base
  | [(k, v)] => set_query_param bracketed_ok nfkc_ok base k v
  | (k, v) :: params' =>
    bind_opt (set_query_param bracketed_ok nfkc_ok base k v)
             (set_all bracketed_ok nfkc_ok params')
  end.

(** No string occurs twice in [l]. *)
Fixpoint distinct (l : list str) : bool :=
  match l with
  | [] => true
  | x :: l' => negb (existsb (str_eqb x) l') && distinct l'
  end.

(** The decimal text of [n] has at most [MAX_STR_DIGITS] digits:
    [str(n)] returns. *)
Definition digits_ok (n : N) : bool :=
  length (str_of_N n) <=? MAX_STR_DIGITS.

(** [str] returns on the page and on the area and the salary that are
    set. *)
Definition numbers_ok (page : N) (area salary : option N) : bool :=
  match area with Some a => digits_ok a | None => true end
  && match salary with Some n => digits_ok n | None => true end
  && digits_ok page.

Section ParamFacts.

Local Open Scope N_scope.

Lemma distinct_nodup (l : list str) : distinct l = true -> NoDup l.
Proof.
  induction l as [|x l IH]; cbn [distinct]; intros H; constructor.
  - apply andb_prop in H. destruct H as [H _].
    apply negb_true_iff in H. intros Hin.
    assert (Ht : existsb (str_eqb x) l = true).
    { apply existsb_exists. exists x. split; [exact Hin|].
      apply str_eqb_refl. }
    congruence.
  - apply IH. apply andb_prop in H. tauto.
Qed.

Lemma urlencode_first_none (k v : str) (d : dict) :
  quote_plus v = None -> urlencode ((k, v) :: d) = None.
Proof.
  intros H. unfold urlencode. cbn [urlencode_items]. rewrite H.
  now destruct (quote_plus k).
Qed.

Lemma urlencode_items_cons (k v qk qv : str) (d : dict) :
  quote_plus k = Some qk -> quote_plus v = Some qv ->
  urlencode_items ((k, v) :: d)
  = option_map (cons (qk ++ 61 :: qv)) (urlencode_items d).
Proof.
  intros Hk Hv. cbn [urlencode_items]. rewrite Hk, Hv.
  now destruct (urlencode_items d).
Qed.

Lemma join3 (sep a b c : str) :
  join sep [a; b; c] = a ++ sep ++ b ++ sep ++ c.
Proof. reflexivity. Qed.

(** The three parameters of the base address. *)
Definition base_params (query : str) : dict :=
  [(u "text", query);
   (u "items_on_page", str_of_N (N.of_nat ITEMS_ON_PAGE));
   (u "no_magic", u "true")].

Definition base_query (qq : str) : str :=
  join [38] [u "text" ++ 61 :: qq; u "items_on_page" ++ 61 :: u "20";
             u "no_magic" ++ 61 :: u "true"].

Lemma base_params_encoded (query qq : str) :
  quote_plus query = Some qq ->
  urlencode (base_params query) = Some (base_query qq).
Proof.
  intros Hq. unfold urlencode, base_params.
  rewrite (@urlencode_items_cons (u "text") query (u "text") qq)
    by (try exact Hq; vm_compute; reflexivity).
  rewrite (@urlencode_items_cons (u "items_on_page") _
             (u "items_on_page") (u "20"))
    by (vm_compute; reflexivity).
  rewrite (@urlencode_items_cons (u "no_magic") _ (u "no_magic") (u "true"))
    by (vm_compute; reflexivity).
  reflexivity.
Qed.

Lemma base_address (qq : str) :
  u "https://hh.ru/search/vacancy?text=" ++ qq ++ u "&items_on_page="
    ++ str_of_N (N.of_nat ITEMS_ON_PAGE) ++ u "&no_magic=true"
  = LISTING ++ 63 :: base_query qq.
Proof.
  unfold base_query. rewrite join3.
  replace (u "https://hh.ru/search/vacancy?text=")
    with (LISTING ++ 63 :: u "text" ++ [61])
    by (vm_compute; reflexivity).
  replace (u "&items_on_page=" ++ str_of_N (N.of_nat ITEMS_ON_PAGE)
           ++ u "&no_magic=true")
    with ([38] ++ (u "items_on_page" ++ 61 :: u "20") ++ [38]
          ++ u "no_magic" ++ 61 :: u "true")
    by (vm_compute; reflexivity).
  rewrite <- !app_assoc. rewrite <- !app_comm_cons.
  rewrite <- !app_assoc. rewrite <- !app_comm_cons.
  rewrite !app_nil_l. reflexivity.
Qed.

Lemma search_params_nodup (query : str) (page : N) (area : option N)
    (experience : option str) (remote : bool) (salary : option N)
    (only_with_salary : bool) :
  NoDup (map fst (search_params query page area experience remote salary
                                only_with_salary)).
Proof.
  apply distinct_nodup.
  destruct area, experience as [[|c e]|], remote, salary, only_with_salary;
    vm_compute; reflexivity.
Qed.

End ParamFacts.

Section BuildFacts.

Local Open Scope N_scope.

Variable bracketed_ok : str -> bool.
Variable nfkc_ok : str -> bool.

Lemma set_all_cons (k v : str) (params : dict) (base : str) :
  set_all bracketed_ok nfkc_ok ((k, v) :: params) base
  = bind_opt (set_query_param bracketed_ok nfkc_ok base k v)
             (set_all bracketed_ok nfkc_ok params).
Proof.
  destruct params as [|[k' v'] params]; [|reflexivity].
  cbn [set_all]. now destruct (set_query_param _ _ base k v).
Qed.

(** The chain of assignments on a listing address: the parameters are
    appended to the dict and the dict is encoded once. *)
Lemma set_all_listing (params d : dict) (q : str) :
  d <> [] -> NoDup (map fst (d ++ params)) -> urlencode d = Some q ->
  set_all bracketed_ok nfkc_ok params (LISTING ++ 63 :: q)
  = option_map (fun q' => LISTING ++ 63 :: q') (urlencode (d ++ params)).
Proof.
  revert d q. induction params as [|[k v] params IH]; intros d q Hd Hn E.
  - rewrite app_nil_r, E. reflexivity.
  - rewrite set_all_cons.
    assert (Hn' : NoDup (map fst ((d ++ [(k, v)]) ++ params)))
      by now rewrite <- app_assoc.
    assert (Hnd : NoDup (map fst (d ++ [(k, v)]))).
    { rewrite map_app in Hn'. now apply NoDup_app_remove_r in Hn'. }
    assert (Hk : ~ In k (map fst d)).
    { rewrite map_app in Hnd. cbn [map fst] in Hnd.
      apply NoDup_remove_2 in Hnd. now rewrite app_nil_r in Hnd. }
    rewrite (set_listing_param bracketed_ok nfkc_ok k v Hd).
    2:{ rewrite map_app in Hnd. now apply NoDup_app_remove_r in Hnd. }
    2:{ exact E. }
    rewrite (dict_set_fresh _ _ v Hk).
    replace (d ++ (k, v) :: params) with ((d ++ [(k, v)]) ++ params)
      by now rewrite <- app_assoc.
    destruct (urlencode (d ++ [(k, v)])) as [q'|] eqn:E'.
    + cbn [option_map bind_opt]. apply IH; [|exact Hn'|exact E'].
      now destruct d.
    + cbn [option_map bind_opt]. now rewrite (urlencode_prefix _ _ E').
Qed.

Ltac first_failure :=
  repeat match goal with
         | |- bind_opt ?m _ = None => destruct m; cbn [bind_opt]
         end; reflexivity.

(** [build_search_url] is the chain of assignments on the base
    address, when [str] returns on its numbers. *)
Lemma build_search_url_chain (query : str) (page : N) (area : option N)
    (experience : option str) (remote : bool) (salary : option N)
    (only_with_salary : bool) :
  build_search_url bracketed_ok nfkc_ok query page area experience remote
                   salary only_with_salary
  = if numbers_ok page area salary
    then bind_opt (quote_plus query) (fun qq =>
           set_all bracketed_ok nfkc_ok
             (filter_params page area experience remote salary
                            only_with_salary)
             (LISTING ++ 63 :: base_query qq))
    else None.
Proof.
  unfold build_search_url, numbers_ok, digits_ok, str_int.
  destruct (quote_plus query) as [qq|]; cbn [bind_opt];
    [|now destruct (_ && _)].
  rewrite base_address.
  destruct area as [a|], salary as [n|];
    repeat match goal with
           | |- context [Nat.leb (length (str_of_N ?x)) MAX_STR_DIGITS] =>
             destruct (Nat.leb (length (str_of_N x)) MAX_STR_DIGITS)
           end;
    cbn [andb bind_opt];
    destruct experience as [[|c e]|], remote, only_with_salary;
    cbn [bind_opt]; try reflexivity; first_failure.
Qed.

(** The address of a search in closed form: the listing address, a
    question mark, and the parameters encoded once; [None] when [str]
    raises on a number or a parameter cannot be encoded.  The host-name
    checks of [urlsplit] are never consulted. *)
Lemma build_search_url_encoded (query : str) (page : N) (area : option N)
    (experience : option str) (remote : bool) (salary : option N)
    (only_with_salary : bool) :
  build_search_url bracketed_ok nfkc_ok query page area experience remote
                   salary only_with_salary
  = if numbers_ok page area salary
    then option_map (fun q => LISTING ++ 63 :: q)
           (urlencode (search_params query page area experience remote
                                     salary only_with_salary))
    else None.
Proof.
  rewrite build_search_url_chain.
  destruct (numbers_ok page area salary); [|reflexivity].
  destruct (quote_plus query) as [qq|] eqn:Eq; cbn [bind_opt].
  - apply set_all_listing.
    + discriminate.
    + apply search_params_nodup.
    + now apply base_params_encoded.
  - unfold search_params. rewrite <- app_comm_cons.
    now rewrite urlencode_first_none.
Qed.

End BuildFacts.

(** [s] can be written in UTF-8: it holds no surrogate. *)
Definition encodable (s : str) : bool :=
  match utf8_encode s with Some _ => true | None => false end.

Section EncodingFacts.

Local Open Scope N_scope.

Lemma quote_plus_encodable (s : str) :
  quote_plus s = None <-> encodable s = false.
Proof.
  unfold quote_plus, quote, encodable.
  destruct (utf8_encode s), (in_str 32 s); cbn [option_map];
    split; congruence.
Qed.

Lemma utf8_encode_ascii (s : str) :
  forallb (fun c => N.ltb c 128) s = true -> encodable s = true.
Proof.
  unfold encodable. induction s as [|c s IH]; [reflexivity|].
  cbn [forallb utf8_encode]. intros H. apply andb_prop in H.
  destruct H as [Hc Hs]. unfold utf8_encode_char. rewrite Hc.
  specialize (IH Hs). now destruct (utf8_encode s).
Qed.

Lemma digits_ascii (fuel : nat) (n : N) (acc : str) :
  forallb (fun c => N.ltb c 128) acc = true ->
  forallb (fun c => N.ltb c 128) (digits fuel n acc) = true.
Proof.
  revert n acc. induction fuel as [|fuel IH]; intros n acc Hacc;
    cbn [digits]; [exact Hacc|].
  assert (H : forallb (fun c => N.ltb c 128) ((48 + n mod 10) :: acc) = true).
  { cbn [forallb]. rewrite Hacc, andb_true_r. apply N.ltb_lt.
    assert (n mod 10 < 10) by (apply N.mod_lt; lia). lia. }
  destruct (N.ltb n 10); [exact H | now apply IH].
Qed.

Lemma str_of_N_encodable (n : N) : encodable (str_of_N n) = true.
Proof. apply utf8_encode_ascii. now apply digits_ascii. Qed.

(** [urlencode] raises exactly when a name or a value cannot be
    encoded. *)
Lemma urlencode_none (d : dict) :
  urlencode d = None
  <-> forallb (fun kv => encodable (fst kv) && encodable (snd kv)) d = false.
Proof.
  unfold urlencode.
  assert (H : urlencode_items d = None
              <-> forallb (fun kv => encodable (fst kv) && encodable (snd kv))
                          d = false).
  { induction d as [|[k v] d IH]; cbn [urlencode_items forallb fst snd].
    - split; discriminate.
    - destruct (quote_plus k) as [qk|] eqn:Ek.
      + assert (Hk : encodable k = true).
        { destruct (encodable k) eqn:E; [reflexivity|].
          apply quote_plus_encodable in E. congruence. }
        rewrite Hk. destruct (quote_plus v) as [qv|] eqn:Ev.
        * assert (Hv : encodable v = true).
          { destruct (encodable v) eqn:E; [reflexivity|].
            apply quote_plus_encodable in E. congruence. }
          rewrite Hv. cbn [andb]. rewrite <- IH.
          destruct (urlencode_items d); split; congruence.
        * apply quote_plus_encodable in Ev. rewrite Ev. cbn [andb].
          split; reflexivity.
      + apply quote_plus_encodable in Ek. rewrite Ek. cbn [andb].
        split; reflexivity. }
  rewrite <- H. destruct (urlencode_items d); cbn [option_map];
    split; congruence.
Qed.

(** The parameters can be encoded when the query text and the
    experience code can. *)
Lemma search_params_encodable (query : str) (page : N) (area : option N)
    (experience : option str) (remote : bool) (salary : option N)
    (only_with_salary : bool) :
  forallb (fun kv => encodable (fst kv) && encodable (snd kv))
          (search_params query page area experience remote salary
                         only_with_salary)
  = encodable query
    && match experience with
       | Some e => encodable e
       | None => true
       end.
Proof.
  assert (Hlit : forall s, forallb (fun c => N.ltb c 128) (u s) = true ->
                           encodable (u s) = true)
    by (intros s; apply utf8_encode_ascii).
  unfold search_params, filter_params.
  rewrite !forallb_app. cbn [forallb fst snd].
  rewrite !str_of_N_encodable.
  rewrite !Hlit by (vm_compute; reflexivity).
  destruct area, experience as [[|c e]|], remote, salary,
    only_with_salary; cbn [forallb fst snd andb];
    rewrite ?str_of_N_encodable, ?Hlit by (vm_compute; reflexivity);
    cbn [andb]; rewrite ?andb_true_r; reflexivity.
Qed.

End EncodingFacts.

Section DictValues.

Local Open Scope N_scope.

Lemma listing_has_query (q : str) : has_query q (LISTING ++ 63 :: q).
Proof.
  exists LISTING, []. rewrite app_nil_r. split; [reflexivity|].
  split; [vm_compute; reflexivity | now left].
Qed.

Lemma dict_set_other (d : dict) (k v other : str) :
  str_eqb other k = false ->
  values_of other (dict_set d k v) = values_of other d.
Proof.
  intros Hne. unfold values_of.
  assert (Hk : str_eqb k other = false).
  { destruct (str_eqb k other) eqn:E; [|reflexivity].
    apply str_eqb_eq in E. subst k. now rewrite str_eqb_refl in Hne. }
  induction d as [|[k' v'] d IH]; cbn [dict_set filter map fst].
  - now rewrite Hk.
  - destruct (str_eqb k' k) eqn:E; cbn [filter fst].
    + apply str_eqb_eq in E. subst k'. now rewrite Hk.
    + destruct (str_eqb k' other); cbn [map]; now rewrite IH.
Qed.

(** [dict(items)] binds a name to the last value it has in [items]. *)
Lemma values_of_dict_of (items : list (str * str)) (k : str) :
  values_of k (dict_of items)
  = match last_value k items with Some v => [v] | None => [] end.
Proof.
  unfold dict_of, last_value.
  assert (H : forall d acc,
            NoDup (map fst d) ->
            values_of k d = match acc with Some v => [v] | None => [] end ->
            values_of k (fold_left (fun d kv => dict_set d (fst kv) (snd kv))
                                   items d)
            = match fold_left (fun acc kv =>
                                 if str_eqb (fst kv) k then Some (snd kv)
                                 else acc) items acc with
              | Some v => [v]
              | None => []
              end).
  { induction items as [|[k' v'] items IH]; intros d acc Hn Hd;
      cbn [fold_left fst snd]; [exact Hd|].
    apply IH; [now apply dict_set_nodup|].
    destruct (str_eqb k' k) eqn:E.
    - apply str_eqb_eq in E. subst k'. now apply dict_set_values.
    - rewrite dict_set_other; [exact Hd|].
      destruct (str_eqb k k') eqn:E'; [|reflexivity].
      apply str_eqb_eq in E'. subst k'. now rewrite str_eqb_refl in E. }
  apply H; [constructor | reflexivity].
Qed.

End DictValues.

Section ListingProperties.

Local Open Scope N_scope.

Variable bracketed_ok : str -> bool.
Variable nfkc_ok : str -> bool.

(** The query of the address [build_search_url] returns. *)
Lemma search_address_query (query : str) (page : N) (area : option N)
    (experience : option str) (remote : bool) (salary : option N)
    (only_with_salary : bool) (out : str) :
  build_search_url bracketed_ok nfkc_ok query page area experience remote
                   salary only_with_salary = Some out ->
  out = LISTING ++ 63 :: url_query out
  /\ parse_qsl (url_query out)
     = search_params query page area experience remote salary
                     only_with_salary.
Proof.
  rewrite build_search_url_encoded.
  destruct (numbers_ok page area salary); [|discriminate].
  destruct (urlencode _) as [q|] eqn:E; [|discriminate].
  cbn [option_map]. intros H.
  apply (f_equal (fun o => match o with Some x => x | None => [] end)) in H.
  cbn beta iota in H. subst out.
  assert (Hd : search_params query page area experience remote salary
                 only_with_salary <> [])
    by (unfold search_params; discriminate).
  destruct (parse_qsl_urlencode Hd E) as (Hparse & Hne & Hch).
  rewrite (@has_query_url_query q _ (@query_char_absent q Hch)
             (listing_has_query q)).
  split; [reflexivity | exact Hparse].
Qed.

(** The address [build_search_url] returns is the listing address
    followed by a query that reads back, parameter by parameter, as what
    was asked: the text as given, the page size, [no_magic], then each
    filter that is set, once, in the order [area], [experience],
    [schedule], [salary], [only_with_salary], and last the page.  A filter
    that is [None], [False] or the empty string leaves no parameter. *)
Theorem build_search_url_params (query : str) (page : N) (area : option N)
    (experience : option str) (remote : bool) (salary : option N)
    (only_with_salary : bool) (out : str) :
  build_search_url bracketed_ok nfkc_ok query page area experience remote
                   salary only_with_salary = Some out ->
  out = LISTING ++ 63 :: url_query out
  /\ parse_qsl (url_query out)
     = search_params query page area experience remote salary
                     only_with_salary
  /\ NoDup (map fst (parse_qsl (url_query out))).
Proof.
  intros H. destruct (search_address_query _ _ _ _ _ _ _ H) as (Hout & Hq).
  split; [exact Hout|]. split; [exact Hq|].
  rewrite Hq. apply search_params_nodup.
Qed.

(** [build_search_url] raises exactly when the query text or the
    experience code holds a character that UTF-8 cannot encode, or when
    [str] raises on the page, the area or the salary, a number of more
    than [MAX_STR_DIGITS] digits; it never raises on the address it has
    built itself, whatever the host-name checks of [urlsplit] would
    answer. *)
Theorem build_search_url_raises (query : str) (page : N) (area : option N)
    (experience : option str) (remote : bool) (salary : option N)
    (only_with_salary : bool) :
  build_search_url bracketed_ok nfkc_ok query page area experience remote
                   salary only_with_salary = None
  <-> encodable query = false
      \/ (exists e, experience = Some e /\ encodable e = false)
      \/ digits_ok page = false
      \/ (exists a, area = Some a /\ digits_ok a = false)
      \/ (exists n, salary = Some n /\ digits_ok n = false).
Proof.
  rewrite build_search_url_encoded.
  pose proof (search_params_encodable query page area experience remote
                salary only_with_salary) as H.
  assert (Hnum : numbers_ok page area salary = false
                 <-> digits_ok page = false
                     \/ (exists a, area = Some a /\ digits_ok a = false)
                     \/ (exists n, salary = Some n /\ digits_ok n = false)).
  { unfold numbers_ok. rewrite !andb_false_iff. split.
    - intros [[Ha|Hs]|Hp]; [| |now left].
      + right; left. destruct area as [a|]; [|discriminate]. now exists a.
      + right; right. destruct salary as [n|]; [|discriminate]. now exists n.
    - intros [Hp|[(a & -> & Ha)|(n & -> & Hn)]];
        [now right | now left; left | now left; right]. }
  destruct (numbers_ok page area salary).
  2:{ split; [intros _|reflexivity]. right; right. now apply Hnum. }
  assert (Hok : ~ (digits_ok page = false
                   \/ (exists a, area = Some a /\ digits_ok a = false)
                   \/ (exists n, salary = Some n /\ digits_ok n = false))).
  { intros Hbad. apply Hnum in Hbad. discriminate Hbad. }
  destruct (urlencode _) as [q|] eqn:E; cbn [option_map].
  - split; [discriminate|]. intros Hbad.
    assert (Hnone : urlencode (search_params query page area experience
                                 remote salary only_with_salary) = None).
    { apply urlencode_none. rewrite H.
      destruct Hbad as [-> | [(e & -> & ->) | Hbad]];
        [reflexivity | apply andb_false_r | now destruct Hok]. }
    congruence.
  - split; [intros _ | reflexivity].
    apply urlencode_none in E. rewrite H in E.
    apply andb_false_iff in E. destruct E as [E|E]; [now left|].
    right; left. destruct experience as [e|]; [|discriminate]. now exists e.
Qed.

(** Setting one parameter rewrites the whole query through a dict:
    every other name keeps one binding, to the last value it had in the
    old query, so that repeated parameters of the old address collapse. *)
Theorem set_query_param_other_names (url key value out other : str) :
  set_query_param bracketed_ok nfkc_ok url key value = Some out ->
  str_eqb other key = false ->
  exists parts,
    urlsplit bracketed_ok nfkc_ok url = Some parts
    /\ values_of other (parse_qsl (url_query out))
       = match last_value other (parse_qsl (sr_query parts)) with
         | Some v => [v]
         | None => []
         end
    /\ NoDup (map fst (parse_qsl (url_query out))).
Proof.
  intros Hset Hother.
  destruct (set_query_param_spec _ _ _ _ _ Hset) as (parts & Hp & Hq & _).
  exists parts. split; [exact Hp|]. rewrite Hq. split.
  - rewrite (@dict_set_other _ _ _ _ Hother). apply values_of_dict_of.
  - apply dict_set_nodup, dict_of_nodup.
Qed.

End ListingProperties.

Lemma build_search_url_params_witness :
  parse_qsl (url_query
    (u "https://hh.ru/search/vacancy?text=Python+%D1%80%D0%B0%D0%B7%D1%80%D0%B0%D0%B1%D0%BE%D1%82%D1%87%D0%B8%D0%BA&items_on_page=20&no_magic=true&area=1&experience=between1And3&schedule=remote&salary=200000&only_with_salary=true&page=2"))
  = search_params (u "Python разработчик") 2 (Some 1%N)
                  (Some (u "between1And3")) true (Some 200000%N) true.
Proof.
  refine (proj1 (proj2 (@build_search_url_params
            (fun _ => true) (fun _ => true)
            (u "Python разработчик") 2 (Some 1%N) (Some (u "between1And3"))
            true (Some 200000%N) true _ _))).
  vm_compute. reflexivity.
Defined.

Lemma set_query_param_other_names_witness :
  exists parts,
    urlsplit (fun _ => true) (fun _ => true)
      (u "https://hh.ru/search/vacancy?area=1&text=a+b&area=2&page=0#top")
    = Some parts
    /\ values_of (u "area")
         (parse_qsl (url_query
            (u "https://hh.ru/search/vacancy?area=2&text=a+b&page=3#top")))
       = match last_value (u "area") (parse_qsl (sr_query parts)) with
         | Some v => [v]
         | None => []
         end
    /\ NoDup (map fst (parse_qsl (url_query
         (u "https://hh.ru/search/vacancy?area=2&text=a+b&page=3#top")))).
Proof.
  apply (@set_query_param_other_names (fun _ => true) (fun _ => true)
           (u "https://hh.ru/search/vacancy?area=1&text=a+b&area=2&page=0#top")
           (u "page") (u "3")
           (u "https://hh.ru/search/vacancy?area=2&text=a+b&page=3#top")
           (u "area"));
    vm_compute; reflexivity.
Defined.

(** ** White space *)

(** [s.split()]: the maximal runs of characters that are not white
    space. *)
Fixpoint words (U : Unicode) (s : str) : list str :=
  match s with
  | [] => []
  | c :: s' =>
    if isspace U c then words U s'
    else
      match s' with
      | [] => [[c]]
      | d :: _ =>
        if isspace U d then [c] :: words U s'
        else
          match words U s' with
          | w :: ws => (c :: w) :: ws
          | [] => [[c]]
          end
      end
  end.

(** Every run of white space written as one space; [in_run] says that
    the text before was white space. *)
Fixpoint squeeze (U : Unicode) (in_run : bool) (s : str) : str :=
  match s with
  | [] => []
  | c :: s' =>
    if isspace U c
    then if in_run then squeeze U true s' else 32%N :: squeeze U true s'
    else c :: squeeze U false s'
  end.

(** [s.rstrip()] *)
Definition rstrip (U : Unicode) (s : str) : str := rev (lstrip U (rev s)).

(** A word of a split text: not empty, and without white space. *)
Definition is_word (U : Unicode) (w : str) : bool :=
  nonempty w && forallb (fun c => negb (isspace U c)) w.

Section NormFacts.

Local Open Scope N_scope.

Variable U : Unicode.

Lemma isspace_32 : isspace U 32 = true.
Proof. vm_compute. reflexivity. Qed.

(** Greedy repetition without upper bound, before a continuation that
    accepts: the whole run is taken. *)
Lemma rep_greedy (T : Type) (f : char -> bool) (x : cursor -> T)
    (lo : nat) (p : option char) (s : str) :
  rep f lo None p s (fun c => Some (x c))
  = if (lo <=? length (fst (span f s)))%nat
    then Some (x (Cursor (advance p (fst (span f s))) (snd (span f s))))
    else None.
Proof.
  revert lo p. induction s as [|c s IH]; intros lo p.
  - cbn. now destruct lo.
  - cbn [rep span]. destruct (f c) eqn:Ef; cbn [andb more].
    + rewrite IH. destruct (span f s) as [run rest]. cbn [fst snd length].
      destruct lo as [|lo]; cbn [pred Nat.leb].
      * reflexivity.
      * now destruct (lo <=? length run)%nat.
    + cbn [fst snd length]. now destruct lo.
Qed.

Lemma span_app (f : char -> bool) (s : str) :
  s = fst (span f s) ++ snd (span f s).
Proof.
  induction s as [|c s IH]; [reflexivity|]. cbn [span].
  destruct (f c); [|reflexivity].
  destruct (span f s) as [run rest]. cbn [fst snd app] in *. now rewrite <- IH.
Qed.

Lemma span_stop (f : char -> bool) (s : str) :
  match snd (span f s) with d :: _ => f d = false | [] => True end.
Proof.
  induction s as [|c s IH]; [exact I|]. cbn [span].
  destruct (f c) eqn:Ef; [|exact Ef].
  now destruct (span f s) as [run rest].
Qed.

Lemma span_run (f : char -> bool) (s : str) :
  forallb f (fst (span f s)) = true.
Proof.
  induction s as [|c s IH]; [reflexivity|]. cbn [span].
  destruct (f c) eqn:Ef; [|reflexivity].
  destruct (span f s) as [run rest]. cbn [fst forallb] in *.
  now rewrite Ef.
Qed.

(** Where [\s+] matches, and how far. *)
Lemma spaces_match_at (p : option char) (s : str) :
  match_at U false rspaces1 (Cursor p s)
  = if (1 <=? length (fst (span (isspace U) s)))%nat
    then Some (Match (Cursor (advance p (fst (span (isspace U) s)))
                             (snd (span (isspace U) s))) None)
    else None.
Proof.
  unfold match_at, rspaces1. cbn [rmatch prev rest].
  change (atom_match U false ASpace) with (isspace U).
  apply (rep_greedy (isspace U) (fun c => Match c None)).
Qed.

(** The characters of a match that is being replaced are passed. *)
Lemma sub_from_skip (r : regex) (repl run rest : str) (p : option char) :
  sub_from U false r repl p (run ++ rest) (length run)
  = sub_from U false r repl (advance p run) rest 0.
Proof.
  revert p. induction run as [|c run IH]; intros p; [reflexivity|].
  cbn [app length sub_from]. apply IH.
Qed.

Lemma squeeze_run (run rest : str) :
  forallb (isspace U) run = true ->
  squeeze U true (run ++ rest) = squeeze U true rest.
Proof.
  induction run as [|c run IH]; [reflexivity|]. cbn [forallb app squeeze].
  intros H. apply andb_prop in H. destruct H as [Hc Hrun].
  rewrite Hc. now apply IH.
Qed.

Lemma squeeze_start (rest : str) :
  match rest with d :: _ => isspace U d = false | [] => True end ->
  squeeze U true rest = squeeze U false rest.
Proof.
  destruct rest as [|d rest]; [reflexivity|]. cbn [squeeze]. now intros ->.
Qed.

(** [re.sub(r"\s+", " ", s)] writes every run of white space as one
    space. *)
Lemma sub_spaces (s : str) (p : option char) :
  sub_from U false rspaces1 [32] p s 0 = squeeze U false s.
Proof.
  remember (length s) as n eqn:En. revert s p En.
  induction n as [n IH] using lt_wf_ind. intros s p En.
  destruct s as [|c s]; cbn [sub_from].
  - rewrite spaces_match_at. reflexivity.
  - rewrite spaces_match_at. cbn [span squeeze].
    destruct (isspace U c) eqn:Ec.
    + pose proof (span_app (isspace U) s) as Happ.
      pose proof (span_stop (isspace U) s) as Hstop.
      pose proof (span_run (isspace U) s) as Hrun.
      destruct (span (isspace U) s) as [run tl]. cbn [fst snd] in *.
      cbn [length Nat.leb m_end rest].
      replace (Datatypes.S (length s) - length tl)%nat
        with (Datatypes.S (length run))
        by (rewrite Happ at 1; rewrite length_app; lia).
      cbn [app]. f_equal.
      rewrite Happ at 1. rewrite sub_from_skip.
      rewrite (IH (length tl)); [| |reflexivity].
      * rewrite Happ. rewrite (squeeze_run _ _ Hrun).
        symmetry. now apply squeeze_start.
      * subst n. cbn [length]. rewrite Happ. rewrite length_app. lia.
    + cbn [fst length Nat.leb]. f_equal.
      apply (IH (length s)); [subst n; cbn [length]; lia | reflexivity].
Qed.

Lemma lstrip_app (a b : str) :
  lstrip U (a ++ b)
  = if forallb (isspace U) a then lstrip U b else lstrip U a ++ b.
Proof.
  induction a as [|c a IH]; [reflexivity|]. cbn [app lstrip forallb].
  destruct (isspace U c); [exact IH | reflexivity].
Qed.

Lemma forallb_rev (f : char -> bool) (s : str) :
  forallb f (rev s) = forallb f s.
Proof.
  induction s as [|c s IH]; [reflexivity|]. cbn [rev forallb].
  rewrite forallb_app, IH. cbn [forallb]. rewrite andb_true_r.
  apply andb_comm.
Qed.

Lemma rstrip_cons (c : char) (y : str) :
  rstrip U (c :: y)
  = if forallb (isspace U) y
    then if isspace U c then [] else [c]
    else c :: rstrip U y.
Proof.
  unfold rstrip. cbn [rev]. rewrite lstrip_app, forallb_rev.
  destruct (forallb (isspace U) y).
  - cbn [lstrip]. now destruct (isspace U c).
  - now rewrite rev_app_distr.
Qed.

Lemma squeeze_true_spaces (s : str) :
  forallb (isspace U) (squeeze U true s) = forallb (isspace U) s.
Proof.
  induction s as [|c s IH]; [reflexivity|]. cbn [squeeze forallb].
  destruct (isspace U c) eqn:Ec; [exact IH|]. cbn [forallb].
  now rewrite Ec.
Qed.

Lemma squeeze_false_spaces (s : str) :
  forallb (isspace U) (squeeze U false s) = forallb (isspace U) s.
Proof.
  destruct s as [|c s]; [reflexivity|]. cbn [squeeze forallb].
  destruct (isspace U c) eqn:Ec; cbn [forallb].
  - now rewrite isspace_32, squeeze_true_spaces.
  - now rewrite Ec.
Qed.

(** A text without words is white space only. *)
Lemma words_nil (s : str) :
  match words U s with
  | [] => forallb (isspace U) s = true
  | _ :: _ => forallb (isspace U) s = false
  end.
Proof.
  induction s as [|c s IH]; [reflexivity|]. cbn [words forallb].
  destruct (isspace U c) eqn:Ec; cbn [andb]; [exact IH|].
  destruct s as [|d s]; [reflexivity|].
  destruct (isspace U d); [reflexivity|].
  now destruct (words U (d :: s)).
Qed.

Lemma join_cons_head (c : char) (w : str) (ws : list str) :
  join [32] ((c :: w) :: ws) = c :: join [32] (w :: ws).
Proof. now destruct ws. Qed.

Lemma lstrip_squeeze_true (s : str) :
  lstrip U (squeeze U true s) = squeeze U true s.
Proof.
  induction s as [|c s IH]; [reflexivity|]. cbn [squeeze].
  destruct (isspace U c) eqn:Ec; [exact IH|]. cbn [lstrip]. now rewrite Ec.
Qed.

Lemma lstrip_squeeze (s : str) :
  lstrip U (squeeze U false s) = squeeze U true s.
Proof.
  destruct s as [|c s]; [reflexivity|]. cbn [squeeze].
  destruct (isspace U c) eqn:Ec; cbn [lstrip].
  - rewrite isspace_32. apply lstrip_squeeze_true.
  - now rewrite Ec.
Qed.

(** Squeezed and stripped on the right, a text is its words joined by
    single spaces. *)
Lemma rstrip_squeeze (s : str) :
  rstrip U (squeeze U true s) = join [32] (words U s)
  /\ rstrip U (squeeze U false s)
     = match s with
       | c :: _ =>
         if isspace U c
         then match words U s with
              | [] => []
              | ws => 32 :: join [32] ws
              end
         else join [32] (words U s)
       | [] => []
       end.
Proof.
  induction s as [|c s [IHt IHf]]; [split; reflexivity|].
  cbn [squeeze words]. destruct (isspace U c) eqn:Ec.
  - split; [exact IHt|].
    rewrite rstrip_cons, squeeze_true_spaces, isspace_32, IHt.
    pose proof (words_nil s) as Hw.
    destruct (words U s) as [|w ws]; now rewrite Hw.
  - assert (H : rstrip U (c :: squeeze U false s)
                = join [32]
                    match s with
                    | [] => [[c]]
                    | d :: _ =>
                      if isspace U d then [c] :: words U s
                      else match words U s with
                           | w :: ws => (c :: w) :: ws
                           | [] => [[c]]
                           end
                    end).
    { rewrite rstrip_cons, squeeze_false_spaces, Ec.
      pose proof (words_nil s) as Hw.
      destruct s as [|d s]; [reflexivity|].
      rewrite IHf. destruct (isspace U d) eqn:Ed.
      - destruct (words U (d :: s)) as [|w ws]; rewrite Hw; reflexivity.
      - destruct (words U (d :: s)) as [|w ws]; rewrite Hw.
        + cbn [forallb] in Hw. rewrite Ed in Hw. discriminate Hw.
        + now rewrite join_cons_head. }
    split; exact H.
Qed.

(** [norm_text] is [" ".join(s.split())]. *)
Lemma norm_text_words (s : str) :
  norm_text U s = join [32] (words U s).
Proof.
  unfold norm_text, re_sub.
  replace (u " ") with [32] by (vm_compute; reflexivity).
  rewrite sub_spaces. unfold strip. rewrite lstrip_squeeze.
  apply (proj1 (rstrip_squeeze s)).
Qed.

Lemma words_are_words (s : str) : forallb (is_word U) (words U s) = true.
Proof.
  unfold is_word.
  induction s as [|c s IH]; [reflexivity|]. cbn [words].
  destruct (isspace U c) eqn:Ec; [exact IH|].
  destruct s as [|d s]; [cbn; now rewrite Ec|].
  destruct (isspace U d).
  - cbn [forallb nonempty andb negb]. now rewrite Ec, IH.
  - destruct (words U (d :: s)) as [|w ws]; [cbn; now rewrite Ec|].
    cbn [forallb nonempty andb] in *. rewrite Ec.
    apply andb_prop in IH. destruct IH as [Hw Hws].
    apply andb_prop in Hw. destruct Hw as [_ Hw].
    now rewrite Hw, Hws.
Qed.

(** Splitting undoes joining by single spaces. *)
Lemma words_join (ws : list str) :
  forallb (is_word U) ws = true -> words U (join [32] ws) = ws.
Proof.
  assert (Hword : forall w rest,
            is_word U w = true ->
            words U (w ++ 32 :: rest) = w :: words U rest).
  { intros w rest. unfold is_word. induction w as [|c w IH];
      [discriminate|].
    cbn [nonempty forallb andb]. intros H. apply andb_prop in H.
    destruct H as [Hc Hw]. apply negb_true_iff in Hc.
    cbn [app words]. rewrite Hc.
    destruct w as [|d w].
    - cbn [app]. rewrite isspace_32. cbn [words]. now rewrite isspace_32.
    - cbn [app]. cbn [forallb] in Hw. apply andb_prop in Hw.
      destruct Hw as [Hd Hw]. pose proof Hd as Hd'.
      apply negb_true_iff in Hd'. rewrite Hd'.
      change (d :: w ++ 32 :: rest) with ((d :: w) ++ 32 :: rest).
      rewrite IH; [reflexivity|]. cbn [nonempty forallb andb].
      now rewrite Hd, Hw. }
  assert (Hlast : forall w, is_word U w = true -> words U w = [w]).
  { intros w. unfold is_word. induction w as [|c w IH]; [discriminate|].
    cbn [nonempty forallb andb]. intros H. apply andb_prop in H.
    destruct H as [Hc Hw]. apply negb_true_iff in Hc.
    cbn [words]. rewrite Hc. destruct w as [|d w]; [reflexivity|].
    cbn [forallb] in Hw. apply andb_prop in Hw. destruct Hw as [Hd Hw].
    pose proof Hd as Hd'. apply negb_true_iff in Hd'. rewrite Hd'.
    rewrite IH; [reflexivity|]. cbn [nonempty forallb andb].
    now rewrite Hd, Hw. }
  induction ws as [|w ws IH]; [reflexivity|]. cbn [forallb].
  intros H. apply andb_prop in H. destruct H as [Hw Hws].
  destruct ws as [|w' ws]; [now apply Hlast|].
  change (join [32] (w :: w' :: ws)) with (w ++ 32 :: join [32] (w' :: ws)).
  rewrite Hword by exact Hw. now rewrite IH.
Qed.

Lemma norm_text_again (s : str) : norm_text U (norm_text U s) = norm_text U s.
Proof.
  rewrite !norm_text_words. now rewrite words_join by apply words_are_words.
Qed.

(** [norm_text] is [" ".join(s.split())]: the words of the text, each
    not empty and free of white space, joined by single spaces; white
    space alone gives the empty string. *)
Theorem norm_text_split_join (s : str) :
  norm_text U s = join (u " ") (words U s)
  /\ forallb (is_word U) (words U s) = true
  /\ (forallb (isspace U) s = true -> norm_text U s = []).
Proof.
  replace (u " ") with [32] by (vm_compute; reflexivity).
  split; [apply norm_text_words|]. split; [apply words_are_words|].
  intros H. rewrite norm_text_words.
  pose proof (words_nil s) as Hw.
  destruct (words U s); [reflexivity | congruence].
Qed.

(** [norm_text] is idempotent, and words joined by single spaces are
    a text it leaves as it is. *)
Theorem norm_text_idempotent (s : str) :
  norm_text U (norm_text U s) = norm_text U s
  /\ (forall ws, forallb (is_word U) ws = true ->
        norm_text U (join (u " ") ws) = join (u " ") ws).
Proof.
  split; [apply norm_text_again|].
  replace (u " ") with [32] by (vm_compute; reflexivity).
  intros ws Hws. rewrite norm_text_words. now rewrite words_join.
Qed.

End NormFacts.

(** ** What a match is *)

(** Every decimal digit of the database stands for a value from 0 to 9
    (as [Py_UNICODE_TODECIMAL] does). *)
Definition decimal_digits (U : Unicode) : Prop :=
  forall c d, uni_decimal U c = Some d -> (d <= 9)%N.

Section MatcherSound.

Variable U : Unicode.
Variable icase : bool.

(** [reads r cur g cur' g']: the pattern [r] can read the text from
    [cur] to [cur'], taking the text of group 1 from [g] to [g']. *)
Inductive reads : regex -> cursor -> option str -> cursor -> option str
                  -> Prop :=
| reads_atom a p c s g :
    atom_match U icase a c = true ->
    reads (RAtom a) (Cursor p (c :: s)) g (Cursor (Some c) s) g
| reads_bound cur g :
    at_boundary U cur = true -> reads RBound cur g cur g
| reads_eps cur g : reads REps cur g cur g
| reads_cat r1 r2 cur g cur1 g1 cur2 g2 :
    reads r1 cur g cur1 g1 -> reads r2 cur1 g1 cur2 g2 ->
    reads (RCat r1 r2) cur g cur2 g2
| reads_alt_l r1 r2 cur g cur' g' :
    reads r1 cur g cur' g' -> reads (RAlt r1 r2) cur g cur' g'
| reads_alt_r r1 r2 cur g cur' g' :
    reads r2 cur g cur' g' -> reads (RAlt r1 r2) cur g cur' g'
| reads_opt r cur g cur' g' :
    reads r cur g cur' g' -> reads (ROpt r) cur g cur' g'
| reads_opt_skip r cur g : reads (ROpt r) cur g cur g
| reads_rep a lo hi p w s g :
    forallb (atom_match U icase a) w = true ->
    lo <= length w ->
    match hi with Some h => length w <= h | None => True end ->
    reads (RRep a lo hi) (Cursor p (w ++ s)) g (Cursor (advance p w) s) g
| reads_group r cur g cur' g' :
    reads r cur g cur' g' ->
    reads (RGroup r) cur g cur' (Some (captured cur cur')).

(** What the greedy repetition hands to its continuation. *)
Lemma rep_sound (T : Type) (f : char -> bool) (k : cursor -> option T)
    (x : T) (s : str) (lo : nat) (hi : option nat) (p : option char) :
  rep f lo hi p s k = Some x ->
  exists w s',
    s = w ++ s' /\ forallb f w = true /\ lo <= length w
    /\ match hi with Some h => length w <= h | None => True end
    /\ k (Cursor (advance p w) s') = Some x.
Proof.
  assert (Hstop : forall s lo hi p,
            match lo with O => k (Cursor p s) | Datatypes.S _ => None end
            = Some x ->
            exists w s',
              s = w ++ s' /\ forallb f w = true /\ lo <= length w
              /\ match hi with Some h => length w <= h | None => True end
              /\ k (Cursor (advance p w) s') = Some x).
  { intros s0 lo0 hi0 p0 H. destruct lo0; [|discriminate].
    exists [], s0. repeat split; auto. destruct hi0; cbn; lia. }
  revert lo hi p. induction s as [|c s IH]; intros lo hi p; cbn [rep].
  - apply Hstop.
  - destruct (f c && more hi) eqn:E; [|apply Hstop].
    apply andb_prop in E. destruct E as [Ec Emore].
    destruct (rep f (pred lo) (less hi) (Some c) s k) as [y|] eqn:Er;
      [|apply Hstop].
    intros Hy. inversion Hy. subst y.
    destruct (IH _ _ _ Er) as (w & s' & -> & Hw & Hlo & Hhi & Hk).
    exists (c :: w), s'. cbn [app forallb length]. rewrite Ec, Hw.
    repeat split; auto; [lia|].
    destruct hi as [[|h]|]; cbn in *; [discriminate | lia | exact I].
Qed.

(** The backtracking matcher only finds what the pattern reads. *)
Lemma rmatch_sound (T : Type) (r : regex) (cur : cursor) (g : option str)
    (k : cursor -> option str -> option T) (x : T) :
  rmatch U icase r cur g k = Some x ->
  exists cur' g', reads r cur g cur' g' /\ k cur' g' = Some x.
Proof.
  revert cur g k. induction r as [a| | |r1 IH1 r2 IH2|r1 IH1 r2 IH2|r IH
                                 |a lo hi|r IH]; intros cur g k; cbn [rmatch].
  - destruct cur as [p [|c s]]; cbn [rest]; [discriminate|].
    destruct (atom_match U icase a c) eqn:E; [|discriminate].
    intros H. exists (Cursor (Some c) s), g. split; [now constructor|exact H].
  - destruct (at_boundary U cur) eqn:E; [|discriminate].
    intros H. exists cur, g. split; [now constructor|exact H].
  - intros H. exists cur, g. split; [constructor|exact H].
  - intros H. apply IH1 in H. destruct H as (c1 & g1 & H1 & H).
    apply IH2 in H. destruct H as (c2 & g2 & H2 & H).
    exists c2, g2. split; [econstructor; eassumption|exact H].
  - destruct (rmatch U icase r1 cur g k) as [y|] eqn:E.
    + intros H. inversion H. subst y. apply IH1 in E.
      destruct E as (c1 & g1 & H1 & Hk). exists c1, g1.
      split; [now apply reads_alt_l|exact Hk].
    + intros H. apply IH2 in H. destruct H as (c1 & g1 & H1 & Hk).
      exists c1, g1. split; [now apply reads_alt_r|exact Hk].
  - destruct (rmatch U icase r cur g k) as [y|] eqn:E.
    + intros H. inversion H. subst y. apply IH in E.
      destruct E as (c1 & g1 & H1 & Hk). exists c1, g1.
      split; [now apply reads_opt|exact Hk].
    + intros H. exists cur, g. split; [apply reads_opt_skip|exact H].
  - intros H. apply rep_sound in H.
    destruct H as (w & s' & Es & Hw & Hlo & Hhi & Hk).
    exists (Cursor (advance (prev cur) w) s'), g. split; [|exact Hk].
    destruct cur as [p s]. cbn [prev rest] in *. subst s.
    now constructor.
  - intros H. apply IH in H. destruct H as (c1 & g1 & H1 & Hk).
    exists c1, (Some (captured cur c1)). split; [|exact Hk].
    econstructor. eassumption.
Qed.

(** [re.search] returns a match of the pattern at some position of the
    text. *)
Lemma search_from_sound (r : regex) (s : str) (p : option char)
    (m : rematch) :
  search_from U icase r p s = Some m ->
  exists pre post,
    s = pre ++ post
    /\ reads r (Cursor (advance p pre) post) None (m_end m) (m_group1 m).
Proof.
  assert (Hat : forall p s, match_at U icase r (Cursor p s) = Some m ->
                  reads r (Cursor p s) None (m_end m) (m_group1 m)).
  { intros p0 s0 H. unfold match_at in H. apply rmatch_sound in H.
    destruct H as (c1 & g1 & H1 & Hk). inversion Hk. exact H1. }
  revert p. induction s as [|c s IH]; intros p; cbn [search_from].
  - destruct (match_at U icase r (Cursor p [])) as [m0|] eqn:E;
      [|discriminate].
    intros H. inversion H. subst m0. exists [], []. split; [reflexivity|].
    now apply Hat.
  - destruct (match_at U icase r (Cursor p (c :: s))) as [m0|] eqn:E.
    + intros H. inversion H. subst m0. exists [], (c :: s).
      split; [reflexivity|]. now apply Hat.
    + intros H. apply IH in H. destruct H as (pre & post & -> & Hr).
      exists (c :: pre), post. split; [reflexivity | exact Hr].
Qed.

End MatcherSound.

Section Numbers.

Local Open Scope N_scope.

Variable U : Unicode.
Hypothesis Hdigits : decimal_digits U.

Lemma digit_value_le (c : char) : digit_value U c <= 9.
Proof.
  unfold digit_value, decimal.
  destruct (basic c).
  - unfold between. destruct (N.leb_spec 48 c); cbn [andb]; [|lia].
    destruct (N.leb_spec c 57); lia.
  - destruct (uni_decimal U c) as [d|] eqn:E; [|lia].
    now apply (Hdigits c).
Qed.

(** The value of a run of at most six digits. *)
Lemma int_of_bound (w : str) :
  (length w <= 6)%nat -> int_of U w < 10 ^ N.of_nat (length w).
Proof.
  intros Hlen.
  destruct w as [|a [|b [|c [|d [|e [|f [|g w]]]]]]];
    cbn [length] in *; try lia; unfold int_of; cbn [fold_left];
    repeat match goal with
           | |- context [digit_value U ?x] =>
             pose proof (digit_value_le x);
             generalize dependent (digit_value U x); intros
           end;
    cbn; lia.
Qed.

End Numbers.

(** ** What the interpreter reads *)

(** The pattern has no capturing group. *)
Fixpoint groupless (r : regex) : bool :=
  match r with
  | RGroup _ => false
  | RCat r1 r2 | RAlt r1 r2 => groupless r1 && groupless r2
  | ROpt r1 => groupless r1
  | _ => true
  end.

Section GroupFacts.

Variable U : Unicode.
Variable icase : bool.

Lemma reads_groupless (r : regex) (cur cur' : cursor) (g g' : option str) :
  reads U icase r cur g cur' g' -> groupless r = true -> g' = g.
Proof.
  induction 1; cbn [groupless]; intros Hg; try reflexivity;
    try discriminate.
  - apply andb_prop in Hg. destruct Hg as [H1 H2].
    rewrite IHreads2 by exact H2. now apply IHreads1.
  - apply andb_prop in Hg. now apply IHreads.
  - apply andb_prop in Hg. now apply IHreads.
  - now apply IHreads.
Qed.

(** A pattern reads a piece of the text before it. *)
Lemma reads_suffix (r : regex) (cur cur' : cursor) (g g' : option str) :
  reads U icase r cur g cur' g' -> exists x, rest cur = x ++ rest cur'.
Proof.
  induction 1; cbn [rest]; try (now exists []); try assumption.
  - now exists [c].
  - destruct IHreads1 as [x1 E1]. destruct IHreads2 as [x2 E2].
    exists (x1 ++ x2). rewrite E1, E2. now rewrite app_assoc.
  - now exists w.
Qed.

(** A match of [pre(\d{lo,hi})post]: group 1 is a run of [lo] to [hi]
    decimal digits of the text. *)
Lemma search_digit_group (pre post : regex) (lo hi : nat) (s : str)
    (m : rematch) :
  groupless post = true ->
  re_search U icase (RCat pre (RCat (RGroup (rdigits lo hi)) post)) s
  = Some m ->
  exists a w b,
    s = a ++ w ++ b /\ m_group1 m = Some w
    /\ forallb (isdecimal U) w = true /\ lo <= length w <= hi.
Proof.
  intros Hpost H. unfold re_search in H. apply search_from_sound in H.
  destruct H as (a0 & s0 & -> & H). cbn [advance fold_left] in H.
  inversion H as [| | |r1 r2 c0 g0 c1 g1 c2 g2 Hpre Hrest| | | | | |];
    subst.
  inversion Hrest as [| | |r1 r2 c0 g0 c3 g3 c4 g4 Hgroup Hpost'| | | | | |];
    subst.
  pose proof (reads_groupless Hpost' Hpost) as Eg.
  destruct (reads_suffix Hpre) as [x Ex].
  destruct (reads_suffix Hpost') as [y Ey].
  inversion Hgroup as [| | | | | | | | |r c0 g0 c5 g5 Hrep]; subst.
  unfold rdigits in Hrep.
  inversion Hrep as [| | | | | | | |a0' lo' hi' p w s1 g0 Hw Hlo Hhi|]; subst.
  cbn [rest] in *.
  exists (a0 ++ x), w, s1.
  match goal with
  | HH : Some (captured _ _) = m_group1 m |- _ => rewrite <- HH
  end.
  rewrite (captured_eq w) by reflexivity.
  repeat split;
    [rewrite Ex; now rewrite <- app_assoc | exact Hw | exact Hlo | exact Hhi].
Qed.

End GroupFacts.

(** The characters UTF-8 can encode. *)
Definition encodable_char (c : char) : bool :=
  match utf8_encode_char c with Some _ => true | None => false end.

Section InterpreterProperties.

Local Open Scope N_scope.

Variable U : Unicode.

Lemma no_decimal_run (a w b : str) :
  no_decimal U (a ++ w ++ b) = true -> forallb (isdecimal U) w = true ->
  w = [].
Proof.
  unfold no_decimal. rewrite !forallb_app. intros H Hw.
  apply andb_prop in H. destruct H as [_ H].
  apply andb_prop in H. destruct H as [H _].
  destruct w as [|c w]; [reflexivity|]. cbn [forallb] in *.
  apply andb_prop in H. apply andb_prop in Hw.
  destruct H as [H _]. destruct Hw as [Hw _]. rewrite Hw in H.
  discriminate H.
Qed.

(** The count, when there is one, is the value of one or two decimal
    digits of the text: it is below 100. *)
Theorem want_n_below_100 (user_text : str) (n : N) :
  decimal_digits U ->
  want_n (ai_interpret_user_goal U user_text) = Some n ->
  n < 100
  /\ exists a w b,
       lower U (norm_text U user_text) = a ++ w ++ b
       /\ forallb (isdecimal U) w = true
       /\ (1 <= length w <= 2)%nat
       /\ n = int_of U w.
Proof.
  intros Hd. cbn [ai_interpret_user_goal want_n]. unfold _extract_int.
  set (tl := lower U (norm_text U user_text)).
  destruct (re_search U false re_int tl) as [m|] eqn:E; [|discriminate].
  intros H. inversion H as [Hn]. clear H.
  apply (@search_digit_group U false RBound RBound 1 2 tl m eq_refl) in E.
  destruct E as (a & w & b & Etl & Hg & Hw & Hlen).
  unfold group1. rewrite Hg.
  split.
  - pose proof (@int_of_bound U Hd w ltac:(lia)) as Hb.
    assert (Hp : 10 ^ N.of_nat (length w) <= 100).
    { destruct w as [|x [|y [|z w]]]; cbn [length] in *; try lia;
        cbn; lia. }
    lia.
  - exists a, w, b. repeat split; auto; lia.
Qed.

(** Where the salary floor comes from. *)
Lemma salary_digits (user_text : str) (n : N) :
  decimal_digits U ->
  salary (ai_interpret_user_goal U user_text) = Some n ->
  n < 1000000
  /\ exists a w b,
       lower U (norm_text U user_text) = a ++ w ++ b
       /\ forallb (isdecimal U) w = true
       /\ ((2 <= length w <= 3)%nat /\ n = int_of U w * 1000
           \/ (5 <= length w <= 6)%nat /\ n = int_of U w).
Proof.
  intros Hd. cbn [ai_interpret_user_goal salary]. unfold detect_salary.
  set (tl := lower U (norm_text U user_text)).
  destruct (re_search U false re_sal tl) as [m|] eqn:E.
  - intros H. inversion H as [Hn]. clear H.
    apply (@search_digit_group U false
             (ROpt (RCat (rlit (u "от")) rspaces0))
             (rseq [rspaces0; RAlt (rlit (u "к")) (rlit (u "k")); RBound])
             2 3 tl m ltac:(vm_compute; reflexivity)) in E.
    destruct E as (a & w & b & Etl & Hg & Hw & Hlen).
    unfold group1. rewrite Hg.
    split.
    + pose proof (@int_of_bound U Hd w ltac:(lia)) as Hb.
      assert (Hp : 10 ^ N.of_nat (length w) <= 1000).
      { destruct w as [|x [|y [|z [|t w]]]]; cbn [length] in *; try lia;
          cbn; lia. }
      lia.
    + exists a, w, b. split; [exact Etl|]. split; [exact Hw|].
      left. split; [exact Hlen | reflexivity].
  - destruct (re_search U false re_sal2 tl) as [m|] eqn:E2; [|discriminate].
    intros H. inversion H as [Hn]. clear H.
    apply (@search_digit_group U false
             (ROpt (RCat (rlit (u "от")) rspaces0)) RBound
             5 6 tl m eq_refl) in E2.
    destruct E2 as (a & w & b & Etl & Hg & Hw & Hlen).
    unfold group1. rewrite Hg.
    split.
    + pose proof (@int_of_bound U Hd w ltac:(lia)) as Hb.
      assert (Hp : 10 ^ N.of_nat (length w) <= 1000000).
      { destruct w as [|x1 [|x2 [|x3 [|x4 [|x5 [|x6 [|x7 w]]]]]]];
          cbn [length] in *; try lia; cbn; lia. }
      lia.
    + exists a, w, b. split; [exact Etl|]. split; [exact Hw|].
      right. split; [exact Hlen | reflexivity].
Qed.

(** The salary floor, when there is one, is the value of two or three
    digits times 1000, or of five or six digits: it is below a
    million. *)
Theorem salary_below_million (user_text : str) (n : N) :
  decimal_digits U ->
  salary (ai_interpret_user_goal U user_text) = Some n ->
  n < 1000000
  /\ exists a w b,
       lower U (norm_text U user_text) = a ++ w ++ b
       /\ forallb (isdecimal U) w = true
       /\ ((2 <= length w <= 3)%nat /\ n = int_of U w * 1000
           \/ (5 <= length w <= 6)%nat /\ n = int_of U w).
Proof.
  intros Hd Hs. exact (salary_digits user_text Hd Hs).
Qed.

(** A text without a decimal digit gives no count, no salary, and so
    no salary-only flag. *)
Theorem no_digits_no_numbers (user_text : str) :
  no_decimal U (lower U (norm_text U user_text)) = true ->
  want_n (ai_interpret_user_goal U user_text) = None
  /\ salary (ai_interpret_user_goal U user_text) = None
  /\ only_with_salary (ai_interpret_user_goal U user_text) = false.
Proof.
  intros Hno.
  cbn [ai_interpret_user_goal want_n salary only_with_salary].
  set (tl := lower U (norm_text U user_text)) in *.
  assert (Hs : detect_salary U tl = None).
  { unfold detect_salary.
    destruct (re_search U false re_sal tl) as [m|] eqn:E.
    - apply (@search_digit_group U false
               (ROpt (RCat (rlit (u "от")) rspaces0))
               (rseq [rspaces0; RAlt (rlit (u "к")) (rlit (u "k")); RBound])
               2 3 tl m ltac:(vm_compute; reflexivity)) in E.
      destruct E as (a & w & b & Etl & Hg & Hw & Hlen).
      rewrite Etl in Hno. rewrite (no_decimal_run _ _ _ Hno Hw) in Hlen.
      cbn [length] in Hlen. lia.
    - destruct (re_search U false re_sal2 tl) as [m|] eqn:E2; [|reflexivity].
      apply (@search_digit_group U false
               (ROpt (RCat (rlit (u "от")) rspaces0)) RBound
               5 6 tl m eq_refl) in E2.
      destruct E2 as (a & w & b & Etl & Hg & Hw & Hlen).
      rewrite Etl in Hno. rewrite (no_decimal_run _ _ _ Hno Hw) in Hlen.
      cbn [length] in Hlen. lia. }
  rewrite Hs. split; [|split; reflexivity].
  unfold _extract_int.
  destruct (re_search U false re_int tl) as [m|] eqn:E; [|reflexivity].
  apply (@search_digit_group U false RBound RBound 1 2 tl m eq_refl) in E.
  destruct E as (a & w & b & Etl & Hg & Hw & Hlen).
  rewrite Etl in Hno. rewrite (no_decimal_run _ _ _ Hno Hw) in Hlen.
  cbn [length] in Hlen. lia.
Qed.

(** White space around the request and runs of white space in it do
    not change what the interpreter returns: two texts with the same
    words are read alike. *)
Theorem interpretation_ignores_spacing (user_text : str) :
  ai_interpret_user_goal U (norm_text U user_text)
  = ai_interpret_user_goal U user_text
  /\ (forall other, words U other = words U user_text ->
        ai_interpret_user_goal U other = ai_interpret_user_goal U user_text).
Proof.
  split.
  - unfold ai_interpret_user_goal. now rewrite norm_text_again.
  - intros other E. unfold ai_interpret_user_goal.
    now rewrite !norm_text_words, E.
Qed.

(** The query is in normal form: [norm_text] leaves it as it is. *)
Theorem query_is_normalised (user_text : str) :
  norm_text U (query (ai_interpret_user_goal U user_text))
  = query (ai_interpret_user_goal U user_text).
Proof.
  cbn [ai_interpret_user_goal query]. unfold build_query.
  set (x := re_sub U true re_filler (u " ") _).
  destruct (norm_text U x) as [|c q] eqn:E.
  - vm_compute. reflexivity.
  - rewrite <- E. apply norm_text_again.
Qed.

Lemma detect_experience_cases (tl : str) :
  In (detect_experience U tl)
     [None; Some (u "noExperience"); Some (u "between1And3");
      Some (u "between3And6"); Some (u "moreThan6")].
Proof.
  unfold detect_experience.
  destruct (matches U re_6_plus tl); [do 4 right; left; reflexivity|].
  destruct (matches U re_3_6 tl); [do 3 right; left; reflexivity|].
  destruct (matches U re_1_3 tl); [do 2 right; left; reflexivity|].
  destruct (any_in _ tl); [right; left; reflexivity|].
  destruct (any_in _ tl); [do 2 right; left; reflexivity|].
  destruct (any_in _ tl); [do 3 right; left; reflexivity|].
  left; reflexivity.
Qed.

(** The interpreter only gives the area codes 1, 2 and 113 and the four
    experience codes of hh.ru. *)
Theorem interpreter_codes (user_text : str) :
  In (area (ai_interpret_user_goal U user_text))
     [None; Some 1; Some 2; Some 113]
  /\ In (experience (ai_interpret_user_goal U user_text))
        [None; Some (u "noExperience"); Some (u "between1And3");
         Some (u "between3And6"); Some (u "moreThan6")].
Proof.
  cbn [ai_interpret_user_goal area experience].
  set (tl := lower U (norm_text U user_text)).
  split; [|apply detect_experience_cases].
  unfold detect_area.
  destruct (contains (u "моск") tl); [cbn; auto|].
  destruct (_ || _ || _); [cbn; auto|].
  destruct (_ || _); cbn; auto.
Qed.

End InterpreterProperties.

Lemma want_n_below_100_witness :
  (12 < 100)%N
  /\ exists a w b,
       lower plain (norm_text plain (u "Найди 12 вакансий Python"))
       = a ++ w ++ b
       /\ forallb (isdecimal plain) w = true
       /\ 1 <= length w <= 2
       /\ 12%N = int_of plain w.
Proof.
  apply (@want_n_below_100 plain (u "Найди 12 вакансий Python") 12%N).
  - intros c d H. discriminate H.
  - vm_compute. reflexivity.
Defined.

Lemma salary_below_million_witness :
  (150000 < 1000000)%N
  /\ exists a w b,
       lower plain (norm_text plain (u "Django, зарплата от 150к"))
       = a ++ w ++ b
       /\ forallb (isdecimal plain) w = true
       /\ (2 <= length w <= 3 /\ 150000%N = (int_of plain w * 1000)%N
           \/ 5 <= length w <= 6 /\ 150000%N = int_of plain w).
Proof.
  apply (@salary_below_million plain (u "Django, зарплата от 150к")
           150000%N).
  - intros c d H. discriminate H.
  - vm_compute. reflexivity.
Defined.

Lemma no_digits_no_numbers_witness :
  want_n (ai_interpret_user_goal plain (u "Python удалёнка, только с зарплатой"))
  = None
  /\ salary (ai_interpret_user_goal plain
               (u "Python удалёнка, только с зарплатой")) = None
  /\ only_with_salary (ai_interpret_user_goal plain
                         (u "Python удалёнка, только с зарплатой")) = false.
Proof.
  apply (@no_digits_no_numbers plain
           (u "Python удалёнка, только с зарплатой")).
  vm_compute. reflexivity.
Defined.

(** ** From the request to the address *)

Section CharFacts.

Local Open Scope N_scope.

Variable U : Unicode.
Variable P : char -> bool.

Lemma encodable_forallb (s : str) :
  encodable s = forallb encodable_char s.
Proof.
  unfold encodable. induction s as [|c s IH]; [reflexivity|].
  cbn [utf8_encode forallb]. unfold encodable_char at 1.
  destruct (utf8_encode_char c); [|reflexivity].
  cbn [andb]. rewrite <- IH. now destruct (utf8_encode s).
Qed.

Lemma words_forallb (s : str) :
  forallb P s = true -> forallb (forallb P) (words U s) = true.
Proof.
  induction s as [|c s IH]; [reflexivity|]. cbn [forallb words].
  intros H. apply andb_prop in H. destruct H as [Hc Hs].
  specialize (IH Hs).
  destruct (isspace U c); [exact IH|].
  destruct s as [|d s]; [cbn; now rewrite Hc|].
  destruct (isspace U d).
  - cbn [forallb]. now rewrite Hc, IH.
  - destruct (words U (d :: s)) as [|w ws]; [cbn; now rewrite Hc|].
    cbn [forallb] in *. apply andb_prop in IH. destruct IH as [Hw Hws].
    now rewrite Hc, Hw, Hws.
Qed.

Lemma join_forallb (sep : str) (ws : list str) :
  forallb P sep = true -> forallb (forallb P) ws = true ->
  forallb P (join sep ws) = true.
Proof.
  intros Hsep. induction ws as [|w ws IH]; [reflexivity|].
  cbn [forallb]. intros H. apply andb_prop in H. destruct H as [Hw Hws].
  destruct ws as [|w' ws]; [exact Hw|].
  change (join sep (w :: w' :: ws)) with (w ++ sep ++ join sep (w' :: ws)).
  rewrite !forallb_app, Hw, Hsep. now rewrite IH.
Qed.

(** [norm_text] writes characters of its text, and spaces. *)
Lemma norm_text_forallb (s : str) :
  P 32 = true -> forallb P s = true -> forallb P (norm_text U s) = true.
Proof.
  intros H32 Hs. rewrite norm_text_words.
  apply join_forallb; [cbn; now rewrite H32 | now apply words_forallb].
Qed.

(** [re.sub] writes characters of its text and of the replacement. *)
Lemma sub_from_forallb (icase : bool) (r : regex) (repl s : str)
    (p : option char) (skip : nat) :
  forallb P repl = true -> forallb P s = true ->
  forallb P (sub_from U icase r repl p s skip) = true.
Proof.
  intros Hrepl. revert p skip.
  induction s as [|c s IH]; intros p skip Hs.
  - destruct skip; cbn [sub_from]; [|reflexivity].
    now destruct (match_at U icase r (Cursor p [])).
  - cbn [forallb] in Hs. apply andb_prop in Hs. destruct Hs as [Hc Hs].
    destruct skip; cbn [sub_from]; [|now apply IH].
    destruct (match_at U icase r (Cursor p (c :: s))) as [m|].
    + destruct (length (c :: s) - length (rest (m_end m)))%nat;
        rewrite forallb_app, Hrepl; cbn [forallb andb];
        rewrite ?Hc; now apply IH.
    + cbn [forallb]. rewrite Hc. now apply IH.
Qed.

End CharFacts.

Section NumberLength.

Local Open Scope N_scope.

(** A number below [10 ^ k] is written with at most [k] digits. *)
Lemma digits_length (fuel : nat) (n : N) (acc : str) (k : nat) :
  n < 10 ^ N.of_nat k -> (1 <= k)%nat ->
  (length (digits fuel n acc) <= length acc + k)%nat.
Proof.
  revert n acc k. induction fuel as [|fuel IH]; intros n acc k Hn Hk;
    [cbn; lia|].
  cbn [digits]. destruct (N.ltb_spec n 10) as [Hlt|Hge]; [cbn; lia|].
  destruct k as [|[|k]]; [lia | cbn in Hn; lia |].
  assert (Hq : n / 10 < 10 ^ N.of_nat (Datatypes.S k)).
  { apply N.Div0.div_lt_upper_bound.
    rewrite (Nat2N.inj_succ (Datatypes.S k)), N.pow_succ_r' in Hn.
    exact Hn. }
  specialize (IH (n / 10) ((48 + n mod 10) :: acc) (Datatypes.S k) Hq
                 ltac:(lia)).
  cbn [length] in IH. lia.
Qed.

Lemma small_digits_ok (n : N) : n < 1000000 -> digits_ok n = true.
Proof.
  intros Hn. unfold digits_ok, str_of_N. apply Nat.leb_le.
  pose proof (@digits_length (Datatypes.S (N.to_nat (N.log2 n))) n [] 6
                Hn ltac:(lia)) as H.
  cbn [length] in H. unfold MAX_STR_DIGITS. lia.
Qed.

End NumberLength.

Section Pipeline.

Local Open Scope N_scope.

Variable U : Unicode.
Variable bracketed_ok : str -> bool.
Variable nfkc_ok : str -> bool.

(** The query is written with characters of the request, or is one of
    the fixed queries: it can be encoded when the request can. *)
Lemma query_encodable (user_text : str) :
  encodable user_text = true ->
  encodable (query (ai_interpret_user_goal U user_text)) = true.
Proof.
  intros Henc. rewrite encodable_forallb in Henc.
  cbn [ai_interpret_user_goal query].
  set (t := norm_text U user_text).
  assert (Ht : forallb encodable_char t = true)
    by (apply norm_text_forallb; [reflexivity | exact Henc]).
  set (tl := lower U t). unfold build_query, raw_query, role_bits.
  set (b1 := contains (u "python") _ || _).
  set (b2 := contains (u "backend") _ || _ || _).
  set (b3 := contains (u "django") _).
  set (b4 := contains (u "fastapi") _).
  set (b5 := contains (u "asyncio") _).
  clearbody b1 b2 b3 b4 b5.
  destruct b1, b2, b3, b4, b5; [vm_compute; reflexivity .. |].
  cbn [app].
  destruct (norm_text U (re_sub U true re_filler (u " ") t)) as [|c q] eqn:E;
    [vm_compute; reflexivity|].
  rewrite <- E, encodable_forallb.
  apply norm_text_forallb; [reflexivity|].
  apply sub_from_forallb; [vm_compute; reflexivity | exact Ht].
Qed.

Lemma experience_encodable (user_text : str) :
  match experience (ai_interpret_user_goal U user_text) with
  | Some e => encodable e
  | None => true
  end = true.
Proof.
  cbn [ai_interpret_user_goal experience].
  pose proof (detect_experience_cases U (lower U (norm_text U user_text)))
    as H.
  cbn [In] in H.
  destruct H as [<-|[<-|[<-|[<-|[<-|[]]]]]]; vm_compute; reflexivity.
Qed.

Lemma interpreted_numbers_ok (user_text : str) (page : N) :
  decimal_digits U -> digits_ok page = true ->
  numbers_ok page (area (ai_interpret_user_goal U user_text))
             (salary (ai_interpret_user_goal U user_text)) = true.
Proof.
  intros Hd Hpage. unfold numbers_ok. rewrite Hpage, andb_true_r.
  apply andb_true_intro. split.
  - cbn [ai_interpret_user_goal area]. unfold detect_area.
    destruct (contains (u "моск") _); [vm_compute; reflexivity|].
    destruct (_ || _ || _); [vm_compute; reflexivity|].
    destruct (_ || _); [vm_compute|]; reflexivity.
  - destruct (salary (ai_interpret_user_goal U user_text)) as [n|] eqn:E;
      [|reflexivity].
    apply small_digits_ok. now destruct (salary_digits user_text Hd E).
Qed.

(** Whatever the request, as long as UTF-8 can encode it, the address
    of the search for what the interpreter read exists:
    [build_search_url] does not raise on it, for any page that [str] can
    write (a page of at most [MAX_STR_DIGITS] digits). *)
Theorem interpreted_search_has_address (user_text : str) (page : N) :
  decimal_digits U ->
  encodable user_text = true ->
  digits_ok page = true ->
  exists out,
    build_search_url bracketed_ok nfkc_ok
      (query (ai_interpret_user_goal U user_text)) page
      (area (ai_interpret_user_goal U user_text))
      (experience (ai_interpret_user_goal U user_text))
      (remote (ai_interpret_user_goal U user_text))
      (salary (ai_interpret_user_goal U user_text))
      (only_with_salary (ai_interpret_user_goal U user_text))
    = Some out
    /\ startswith (LISTING ++ [63]) out = true.
Proof.
  intros Hd Henc Hpage. rewrite build_search_url_encoded.
  rewrite (@interpreted_numbers_ok user_text page Hd Hpage).
  destruct (urlencode _) as [q|] eqn:E.
  - exists (LISTING ++ 63 :: q). split; [reflexivity|].
    assert (Hs : forall a b : str, startswith a (a ++ b) = true).
    { intros a b. induction a as [|x a IH]; [reflexivity|].
      cbn [app startswith]. now rewrite N.eqb_refl. }
    replace (LISTING ++ 63 :: q) with ((LISTING ++ [63]) ++ q)
      by now rewrite <- app_assoc.
    apply Hs.
  - apply urlencode_none in E. rewrite search_params_encodable in E.
    rewrite (query_encodable _ Henc), experience_encodable in E.
    discriminate E.
Qed.

End Pipeline.

Lemma interpreted_search_has_address_witness :
  exists out,
    build_search_url (fun _ => true) (fun _ => true)
      (query (ai_interpret_user_goal plain (u "Найди 5 вакансий Django в СПб")))
      0
      (area (ai_interpret_user_goal plain (u "Найди 5 вакансий Django в СПб")))
      (experience
         (ai_interpret_user_goal plain (u "Найди 5 вакансий Django в СПб")))
      (remote
         (ai_interpret_user_goal plain (u "Найди 5 вакансий Django в СПб")))
      (salary
         (ai_interpret_user_goal plain (u "Найди 5 вакансий Django в СПб")))
      (only_with_salary
         (ai_interpret_user_goal plain (u "Найди 5 вакансий Django в СПб")))
    = Some out
    /\ startswith (LISTING ++ [63%N]) out = true.
Proof.
  apply (@interpreted_search_has_address plain (fun _ => true)
           (fun _ => true) (u "Найди 5 вакансий Django в СПб") 0%N).
  - intros c d H. discriminate H.
  - vm_compute. reflexivity.
  - vm_compute. reflexivity.
Defined.

(** ** Numbers in decimal *)

Section Decimal.

Local Open Scope N_scope.

Variable U : Unicode.

Lemma digit_value_digit (n : N) : n < 10 -> digit_value U (48 + n) = n.
Proof.
  intros Hn. unfold digit_value, decimal, basic, between.
  replace (N.ltb (48 + n) 128) with true
    by (symmetry; apply N.ltb_lt; lia).
  cbn [orb].
  replace (N.leb 48 (48 + n)) with true by (symmetry; apply N.leb_le; lia).
  replace (N.leb (48 + n) 57) with true by (symmetry; apply N.leb_le; lia).
  cbn [andb]. lia.
Qed.

(** The loop of [str(n)], given fuel enough, writes digits before [acc]
    whose value is [n]. *)
Lemma digits_value (fuel : nat) (n : N) (acc : str) :
  n < 2 ^ N.of_nat fuel ->
  exists ds,
    digits fuel n acc = ds ++ acc
    /\ forallb (fun c => between 48 c 57) ds = true
    /\ (forall a, fold_left (fun acc c => acc * 10 + digit_value U c) ds a
                  = a * 10 ^ N.of_nat (length ds) + n).
Proof.
  revert n acc. induction fuel as [|fuel IH]; intros n acc Hn.
  - exists []. cbn in Hn. assert (n = 0) by lia. subst n.
    repeat split. intros a. cbn. lia.
  - cbn [digits].
    pose proof (N.div_mod n 10 ltac:(lia)) as Hdm.
    assert (Hm : n mod 10 < 10) by (apply N.mod_lt; lia).
    rewrite Nat2N.inj_succ, N.pow_succ_r' in Hn.
    set (m := n mod 10) in *. set (q := n / 10) in *.
    assert (Hq : q < 2 ^ N.of_nat fuel).
    { revert Hn. generalize (2 ^ N.of_nat fuel). clearbody m q.
      intros p Hn. lia. }
    clearbody m q. clear Hn.
    assert (Hd : forallb (fun c => between 48 c 57) [48 + m] = true).
    { cbn [forallb]. unfold between.
      replace (N.leb 48 (48 + m)) with true
        by (symmetry; apply N.leb_le; lia).
      replace (N.leb (48 + m) 57) with true
        by (symmetry; apply N.leb_le; lia).
      reflexivity. }
    destruct (N.ltb_spec n 10) as [Hlt|Hge].
    + exists [48 + m]. split; [reflexivity|]. split; [exact Hd|].
      intros a. cbn [fold_left length]. rewrite digit_value_digit by exact Hm.
      change (10 ^ N.of_nat 1) with 10. lia.
    + destruct (IH q ((48 + m) :: acc) Hq) as (ds & Eds & Hds & Hval).
      exists (ds ++ [48 + m]). rewrite Eds, <- app_assoc.
      split; [reflexivity|]. split.
      { rewrite forallb_app. apply andb_true_intro. split; assumption. }
      intros a. rewrite fold_left_app, Hval. cbn [fold_left].
      rewrite digit_value_digit by exact Hm.
      rewrite length_app, Nat2N.inj_add. cbn [length].
      rewrite N.pow_add_r. change (10 ^ N.of_nat 1) with 10.
      set (k := 10 ^ N.of_nat (length ds)). clearbody k. nia.
Qed.

(** [int(str(n))] is [n]. *)
Lemma int_of_str_of_N (n : N) : int_of U (str_of_N n) = n.
Proof.
  assert (Hfuel : n < 2 ^ N.of_nat (Datatypes.S (N.to_nat (N.log2 n)))).
  { rewrite Nat2N.inj_succ, N2Nat.id.
    destruct (N.eq_dec n 0) as [->|Hn]; [cbn; lia|].
    apply N.log2_spec. lia. }
  destruct (digits_value _ [] Hfuel) as (ds & Eds & Hds & Hval).
  rewrite app_nil_r in Eds. unfold str_of_N. rewrite Eds.
  unfold int_of. rewrite Hval. lia.
Qed.

Lemma values_of_cons (key k v : str) (d : dict) :
  values_of key ((k, v) :: d)
  = (if str_eqb k key then [v] else []) ++ values_of key d.
Proof.
  unfold values_of. cbn [filter fst]. now destruct (str_eqb k key).
Qed.

Ltac closed_keys :=
  repeat match goal with
         | |- context [str_eqb (u ?a) (u ?b)] =>
           let r := eval vm_compute in (str_eqb (u a) (u b)) in
           replace (str_eqb (u a) (u b)) with r by (vm_compute; reflexivity)
         end.

Lemma numbers_of_search_params (query : str) (page : N) (area : option N)
    (experience : option str) (remote : bool) (salary : option N)
    (only_with_salary : bool) :
  let params := search_params query page area experience remote salary
                  only_with_salary in
  values_of (u "page") params = [str_of_N page]
  /\ values_of (u "area") params
     = match area with Some a => [str_of_N a] | None => [] end
  /\ values_of (u "salary") params
     = match salary with Some n => [str_of_N n] | None => [] end.
Proof.
  unfold search_params, filter_params.
  destruct area, experience as [[|c e]|], remote, salary, only_with_salary;
    cbn [app]; (split; [|split]);
    rewrite ?values_of_cons; closed_keys; reflexivity.
Qed.

Variable bracketed_ok : str -> bool.
Variable nfkc_ok : str -> bool.

(** The numbers given to [build_search_url] can be read back from the
    address: the [page] parameter occurs once and [int] of it is the
    page, and [area] and [salary] occur once, with the number given, when
    they are set, and not at all when they are [None]. *)
Theorem search_address_numbers (query : str) (page : N) (area : option N)
    (experience : option str) (remote : bool) (salary : option N)
    (only_with_salary : bool) (out : str) :
  build_search_url bracketed_ok nfkc_ok query page area experience remote
                   salary only_with_salary = Some out ->
  map (int_of U) (values_of (u "page") (parse_qsl (url_query out))) = [page]
  /\ map (int_of U) (values_of (u "area") (parse_qsl (url_query out)))
     = match area with Some a => [a] | None => [] end
  /\ map (int_of U) (values_of (u "salary") (parse_qsl (url_query out)))
     = match salary with Some n => [n] | None => [] end.
Proof.
  intros H.
  destruct (search_address_query _ _ _ _ _ _ _ _ _ H) as (_ & ->).
  destruct (numbers_of_search_params query page area experience remote salary
              only_with_salary) as (-> & -> & ->).
  destruct area, salary; cbn [map]; now rewrite ?int_of_str_of_N.
Qed.

End Decimal.

Lemma search_address_numbers_witness :
  map (int_of plain)
      (values_of (u "page")
         (parse_qsl (url_query
            (u "https://hh.ru/search/vacancy?text=Django&items_on_page=20&no_magic=true&area=2&salary=150000&page=3"))))
  = [3%N]
  /\ map (int_of plain)
         (values_of (u "area")
            (parse_qsl (url_query
               (u "https://hh.ru/search/vacancy?text=Django&items_on_page=20&no_magic=true&area=2&salary=150000&page=3"))))
     = [2%N]
  /\ map (int_of plain)
         (values_of (u "salary")
            (parse_qsl (url_query
               (u "https://hh.ru/search/vacancy?text=Django&items_on_page=20&no_magic=true&area=2&salary=150000&page=3"))))
     = [150000%N].
Proof.
  apply (@search_address_numbers plain (fun _ => true) (fun _ => true)
           (u "Django") 3%N (Some 2%N) None false (Some 150000%N) false).
  vm_compute. reflexivity.
Defined.

(** ** The records of the collector *)

Section SplitHead.

Local Open Scope N_scope.

(** [s.split(sep)[0]] is the text before the first [sep]. *)
Lemma split_on_head (sep : char) (s : str) :
  exists tl, s = hd [] (split_on sep s) ++ tl
             /\ ~ In sep (hd [] (split_on sep s)).
Proof.
  induction s as [|c s IH]; [exists []; split; [reflexivity | intros []]|].
  cbn [split_on]. destruct (N.eqb_spec c sep) as [->|Hne].
  - exists (sep :: s). split; [reflexivity | intros []].
  - destruct IH as (tl & Es & Hno).
    destruct (split_on sep s) as [|p ps]; cbn [hd] in *.
    + exists s. split; [reflexivity|]. intros [H|[]]. now apply Hne.
    + exists tl. split; [cbn [app]; now rewrite <- Es|].
      intros [H|H]; [now apply Hne | now apply Hno].
Qed.

Lemma startswith_prefix (p a b : str) :
  startswith p a = true -> startswith p (a ++ b) = true.
Proof.
  revert a. induction p as [|x p IH]; intros a; [reflexivity|].
  destruct a as [|y a]; [discriminate|]. cbn [app startswith].
  intros H. apply andb_prop in H. destruct H as [-> H]. now apply IH.
Qed.

Lemma site_not_rooted (h : str) :
  startswith (u "/") (u "https://hh.ru" ++ h) = false.
Proof. vm_compute. reflexivity. Qed.

(** The address of a record has no query string and is not relative to
    the root of the site. *)
Lemma canonical_address (a : anchor) (href : str) :
  canonical a = Some href ->
  ~ In 63 href /\ startswith (u "/") href = false.
Proof.
  unfold canonical. destruct (a_href a) as [attr|]; [|discriminate].
  set (h := match attr with Some h => h | None => [] end).
  destruct (contains (u "/vacancy/") h); [|discriminate]. cbn [negb].
  set (h' := if startswith (u "/") h then u "https://hh.ru" ++ h else h).
  intros E.
  destruct (split_on_head 63 h') as (tl & Eh & Hno).
  revert E Eh Hno. generalize (hd [] (split_on 63 h')).
  intros href' E Eh Hno.
  assert (href' = href) by congruence. subst href'. clear E.
  split; [exact Hno|].
  destruct (startswith (u "/") href) eqn:Es; [|reflexivity].
  apply (startswith_prefix _ _ tl) in Es. rewrite <- Eh in Es.
  unfold h' in Es. destruct (startswith (u "/") h) eqn:Eh'.
  - rewrite site_not_rooted in Es. discriminate Es.
  - congruence.
Qed.

End SplitHead.

Section RecordFacts.

Variable U : Unicode.

Lemma record_of_shape (a : anchor) (href : str) (v : Vacancy) :
  record_of U a href = Some v ->
  title v <> []
  /\ norm_text U (title v) = title v
  /\ (length (snippet v) <= 450)%nat.
Proof.
  unfold record_of. destruct (a_text a) as [text|]; [|discriminate].
  destruct (norm_text U text) as [|c t] eqn:Et; [discriminate|].
  set (sn := match a_card a with
             | Some card => firstn 450 (norm_text U card)
             | None => []
             end).
  assert (Hsn : (length sn <= 450)%nat).
  { unfold sn. destruct (a_card a); [apply firstn_le_length | cbn; lia]. }
  clearbody sn.
  intros E. injection E as <-. cbn [title snippet].
  split; [discriminate|]. split; [rewrite <- Et; apply norm_text_again|].
  exact Hsn.
Qed.

Lemma collect_closed_form (page : search_page) :
  collect_vacancies_from_search U page
  = if sp_appeared page
    then firstn ITEMS_ON_PAGE
           (first_records U [] (firstn MAX_LINKS_SCAN (sp_anchors page)))
    else [].
Proof.
  unfold collect_vacancies_from_search.
  destruct (sp_appeared page); [|reflexivity]. cbn [negb].
  rewrite (@scan_first_records U _ []); [reflexivity | reflexivity |].
  unfold ITEMS_ON_PAGE. cbn. lia.
Qed.

Lemma scan_skip (pre post : list anchor) (a : anchor) (seen : list str)
    (vacancies : list Vacancy) :
  canonical a = None ->
  scan U (pre ++ a :: post) seen vacancies
  = scan U (pre ++ post) seen vacancies.
Proof.
  intros Ha. revert seen vacancies.
  induction pre as [|b pre IH]; intros seen vacancies; cbn [app scan].
  - now rewrite Ha.
  - destruct (canonical b) as [href|]; [|apply IH].
    destruct (existsb (str_eqb href) seen); [apply IH|].
    destruct (record_of U b href); [|apply IH].
    destruct (ITEMS_ON_PAGE <=? length (vacancies ++ [v]));
      [reflexivity | apply IH].
Qed.

(** Whatever the page holds, the collector returns at most
    [ITEMS_ON_PAGE] records; each has a title that is not empty and is
    normalised, an address without a query string that is not relative
    to the root of the site, and a snippet of at most 450 characters. *)
Theorem collected_records_shape (page : search_page) :
  (length (collect_vacancies_from_search U page) <= ITEMS_ON_PAGE)%nat
  /\ forall v, In v (collect_vacancies_from_search U page) ->
       title v <> []
       /\ norm_text U (title v) = title v
       /\ ~ In 63%N (url v)
       /\ startswith (u "/") (url v) = false
       /\ (length (snippet v) <= 450)%nat.
Proof.
  rewrite collect_closed_form.
  destruct (sp_appeared page); [|split; [cbn; lia | intros v []]].
  split; [apply firstn_le_length|].
  intros v Hv. apply in_firstn in Hv.
  destruct (first_records_origin _ _ _ _ Hv)
    as (pre & a & post & _ & Hc & _ & Hr).
  destruct (record_of_shape _ _ Hr) as (Ht & Hn & Hs).
  destruct (canonical_address _ Hc) as (Hq & Hrel).
  repeat split; assumption.
Qed.

(** An anchor without an address (reading its [href] raised, or the
    [href] has no [/vacancy/]) is passed over: among the anchors that are
    scanned, it changes nothing of the result. *)
Theorem collect_passes_over_addressless (appeared : bool)
    (pre post : list anchor) (a : anchor) :
  canonical a = None ->
  (length (pre ++ a :: post) <= MAX_LINKS_SCAN)%nat ->
  collect_vacancies_from_search U
    {| sp_appeared := appeared; sp_anchors := pre ++ a :: post |}
  = collect_vacancies_from_search U
      {| sp_appeared := appeared; sp_anchors := pre ++ post |}.
Proof.
  intros Ha Hlen. unfold collect_vacancies_from_search.
  cbn [sp_appeared sp_anchors]. destruct appeared; [|reflexivity].
  cbn [negb]. rewrite !firstn_all2.
  - now apply scan_skip.
  - rewrite length_app in *. cbn [length] in Hlen. lia.
  - exact Hlen.
Qed.

End RecordFacts.

Lemma collect_passes_over_addressless_witness :
  collect_vacancies_from_search plain
    {| sp_appeared := true;
       sp_anchors :=
         [ {| a_href := Some (Some (u "/vacancy/1?from=main"));
              a_text := Some (u "Python developer");
              a_card := None |} ]
         ++ {| a_href := None; a_text := Some (u "Broken"); a_card := None |}
         :: [ {| a_href := Some (Some (u "/vacancy/2"));
                 a_text := Some (u "Django developer");
                 a_card := None |} ] |}
  = collect_vacancies_from_search plain
      {| sp_appeared := true;
         sp_anchors :=
           [ {| a_href := Some (Some (u "/vacancy/1?from=main"));
                a_text := Some (u "Python developer");
                a_card := None |} ]
           ++ [ {| a_href := Some (Some (u "/vacancy/2"));
                   a_text := Some (u "Django developer");
                   a_card := None |} ] |}.
Proof.
  apply (@collect_passes_over_addressless plain true).
  - reflexivity.
  - vm_compute. lia.
Defined.

(** ** What the launcher does to the system *)

Section LauncherTraces.
Variables Exc Ctx : Type.
Variables exc_name exc_str : Exc -> str.
Variables YANDEX_PATH PROFILE_DIR FALLBACK_PROFILE_DIR : str.
Variable S : system Exc Ctx.

Local Abbreviation attempt_of := (launch_attempt YANDEX_PATH S).
Local Abbreviation failed := (launch_failed (Ctx := Ctx) exc_name exc_str).
Local Abbreviation loop := (launch_loop exc_name exc_str YANDEX_PATH S).
Local Abbreviation the_attempts := (attempts PROFILE_DIR FALLBACK_PROFILE_DIR).
Local Abbreviation log_t := (list (sys_event Exc Ctx)).

(** [os.path.exists(path)] has just answered [True]. *)
Definition just_found (path : str) (earlier : log_t) : bool :=
  match earlier with
  | @SExists _ _ p true :: _ => str_eqb p path
  | _ => false
  end.

(** A call the launcher may make after the calls of [earlier]: only
    the fallback profile is removed, and only when it was just found;
    only the two profiles are created or launched with; an executable
    is named only as [YANDEX_PATH], just found, with the fallback
    profile. *)
Definition launcher_call (ev : sys_event Exc Ctx) (earlier : log_t) : bool :=
  match ev with
  | @SExists _ _ p _ =>
    str_eqb p FALLBACK_PROFILE_DIR || str_eqb p YANDEX_PATH
  | @SRmtree _ _ p => str_eqb p FALLBACK_PROFILE_DIR && just_found p earlier
  | @SMakedirs _ _ p _ =>
    str_eqb p PROFILE_DIR || str_eqb p FALLBACK_PROFILE_DIR
  | @SLaunch _ _ dir None _ =>
    str_eqb dir PROFILE_DIR || str_eqb dir FALLBACK_PROFILE_DIR
  | @SLaunch _ _ dir (Some exe) _ =>
    str_eqb dir FALLBACK_PROFILE_DIR && str_eqb exe YANDEX_PATH
    && just_found exe earlier
  | @SPrint _ _ _ | @SSleep _ _ => true
  end.

Fixpoint launcher_calls (new : log_t) : bool :=
  match new with
  | [] => true
  | ev :: earlier => launcher_call ev earlier && launcher_calls earlier
  end.

(** The pauses of one second in the log. *)
Definition sleeps (log : log_t) : nat :=
  length (filter (fun ev => match ev with @SSleep _ _ => true | _ => false end)
                 log).

Lemma launcher_call_later (ev x : sys_event Exc Ctx) (a b : log_t) :
  launcher_call ev (x :: a) = launcher_call ev (x :: b).
Proof. destruct ev as [| | | |d [exe|] r|]; reflexivity. Qed.

Lemma launcher_call_first (ev : sys_event Exc Ctx) (b : log_t) :
  launcher_call ev [] = true -> launcher_call ev b = true.
Proof.
  destruct ev as [| | | |d [exe|] r|]; cbn [launcher_call just_found];
    rewrite ?andb_false_r; try discriminate; auto.
Qed.

Lemma launcher_calls_app (a b : log_t) :
  launcher_calls a = true -> launcher_calls b = true ->
  launcher_calls (a ++ b) = true.
Proof.
  intros Ha Hb. induction a as [|ev a IH]; [exact Hb|].
  cbn [app launcher_calls] in *. apply andb_prop in Ha.
  destruct Ha as [Hev Ha]. rewrite (IH Ha), andb_true_r.
  destruct a as [|x a]; [now apply launcher_call_first|].
  cbn [app]. now rewrite (launcher_call_later ev x _ a).
Qed.

Lemma sleeps_app (a b : log_t) : sleeps (a ++ b) = sleeps a + sleeps b.
Proof. unfold sleeps. now rewrite filter_app, length_app. Qed.

Lemma begun_app (a b : log_t) : begun (a ++ b) = begun a + begun b.
Proof. unfold begun. now rewrite filter_app, length_app. Qed.

Ltac new_calls :=
  first [ eexists [_]; split; [reflexivity|]
        | eexists [_; _]; split; [reflexivity|]
        | eexists [_; _; _]; split; [reflexivity|]
        | eexists [_; _; _; _]; split; [reflexivity|]
        | eexists [_; _; _; _; _]; split; [reflexivity|]
        | eexists [_; _; _; _; _; _]; split; [reflexivity|]
        | eexists [_; _; _; _; _; _; _]; split; [reflexivity|] ].

(** One attempt: its calls are calls the launcher may make, one
    [os.makedirs] among them and no pause. *)
Lemma attempt_calls (a : attempt) (log : log_t) :
  In a the_attempts ->
  exists new,
    fst (attempt_of a log) = new ++ log
    /\ launcher_calls new = true
    /\ begun new = 1 /\ sleeps new = 0.
Proof.
  pose proof (str_eqb_refl PROFILE_DIR) as Hp.
  pose proof (str_eqb_refl FALLBACK_PROFILE_DIR) as Hf.
  pose proof (str_eqb_refl YANDEX_PATH) as Hy.
  unfold launch_attempt, ensure_dir_clean, _launch_once, bind, ret,
    os_path_exists, rmtree, os_makedirs, print, launch_persistent_context.
  intros [<-|[<-|[<-|[]]]]; cbn -[u app];
    repeat match goal with
           | |- context [sys_exists S ?l ?p] => destruct (sys_exists S l p)
           | |- context [sys_makedirs S ?l ?p] =>
             destruct (sys_makedirs S l p)
           | |- context [sys_launch S ?l ?p ?x] =>
             destruct (sys_launch S l p x)
           end; cbn -[u app];
    new_calls;
    cbn [launcher_calls launcher_call just_found];
    rewrite ?Hp, ?Hf, ?Hy, ?orb_true_r; repeat split.
Qed.

(** The loop over a tail of the attempts. *)
Lemma launch_loop_calls (l : list attempt) (last : option Exc) (log : log_t) :
  (forall a, In a l -> In a the_attempts) ->
  exists new,
    fst (loop l last log) = new ++ log
    /\ launcher_calls new = true
    /\ match snd (loop l last log) with
       | Return _ => sleeps new + 1 = begun new /\ begun new <= length l
       | Raise _ => sleeps new = length l /\ begun new = length l
       end.
Proof.
  revert last log. induction l as [|a l IH]; intros last log Hl.
  - exists []. cbn. repeat split.
  - cbn [launch_loop].
    destruct (@attempt_calls a log (Hl a (or_introl eq_refl)))
      as (n1 & E1 & C1 & B1 & S1).
    destruct (attempt_of a log) as [log1 [e|ctx]]; cbn [fst] in E1; subst log1.
    + destruct (IH (Some e) (fst (failed a e (n1 ++ log))))
        as (n2 & E2 & C2 & P2).
      { intros b Hb. apply Hl. now right. }
      unfold launch_failed, bind, print, sleep in *. cbn [fst] in *.
      match type of E2 with
      | _ = _ ++ ?sl :: ?p :: _ =>
        exists (n2 ++ sl :: p :: n1)
      end.
      split; [rewrite E2, <- app_assoc; reflexivity|].
      split; [apply launcher_calls_app; [exact C2|];
              cbn [launcher_calls launcher_call]; exact C1|].
      rewrite begun_app, sleeps_app.
      cbn [length]. unfold begun, sleeps in *. cbn [filter length] in *.
      match goal with
      | |- match snd ?x with _ => _ end => destruct (snd x)
      end; lia.
    + exists n1. cbn [fst snd length]. repeat split; try assumption; lia.
Qed.

(** Whatever the system answers, the launcher removes no directory but
    the fallback profile, and only when [os.path.exists] has just found
    it: the main profile is never removed.  It creates and launches
    with the two profiles only, and names an executable only as
    [YANDEX_PATH], just found to exist, with the fallback profile. *)
Theorem launcher_keeps_main_profile (log0 : log_t) :
  exists new,
    fst (launch_context_robust exc_name exc_str YANDEX_PATH PROFILE_DIR
           FALLBACK_PROFILE_DIR S log0) = new ++ log0
    /\ launcher_calls new = true
    /\ (forall p, In (SRmtree Exc Ctx p) new -> p = FALLBACK_PROFILE_DIR).
Proof.
  destruct (@launch_loop_calls the_attempts None log0 (fun a H => H))
    as (new & E & C & _).
  exists new. split; [exact E|]. split; [exact C|].
  intros p. clear E. induction new as [|ev new IH]; [intros []|].
  cbn [launcher_calls] in C. apply andb_prop in C. destruct C as [Hev C].
  intros [->|H]; [|now apply IH].
  cbn [launcher_call] in Hev. apply andb_prop in Hev.
  now apply str_eqb_eq.
Qed.

(** The launcher pauses once after each attempt that failed and never
    after the one that succeeded: it begins one to three attempts, and
    the pauses are as many as the attempts begun, less the successful
    one. *)
Theorem launcher_pauses_after_failures (log0 : log_t) :
  exists new,
    fst (launch_context_robust exc_name exc_str YANDEX_PATH PROFILE_DIR
           FALLBACK_PROFILE_DIR S log0) = new ++ log0
    /\ 1 <= begun new <= 3
    /\ match snd (launch_context_robust exc_name exc_str YANDEX_PATH
                    PROFILE_DIR FALLBACK_PROFILE_DIR S log0) with
       | Return _ => sleeps new + 1 = begun new
       | Raise _ => sleeps new = 3 /\ begun new = 3
       end.
Proof.
  destruct (@launch_loop_calls the_attempts None log0 (fun a H => H))
    as (new & E & _ & P).
  exists new. split; [exact E|].
  unfold launch_context_robust.
  change (length the_attempts) with 3 in P.
  destruct (snd (loop the_attempts None log0)); lia.
Qed.

End LauncherTraces.

(** ** What the page calls do *)

Section PageTraces.
Variable PwExc : Type.
Variable B : browser PwExc.

Local Abbreviation plog := (list (page_event PwExc)).

(** Neither a navigation, nor a click, nor a fill. *)
Definition ev_idle (ev : page_event PwExc) : bool :=
  match ev with
  | @PGoto _ _ _ | @PClick _ _ _ _ | @PFill _ _ _ _ _ => false
  | _ => true
  end.

(** The clicks that raised, on the selectors of [pre] in order (the
    latest first, as in the log). *)
Fixpoint failed_clicks (t : N) (pre : list str) (excs : list PwExc) : plog :=
  match pre, excs with
  | sel :: pre', e :: excs' =>
    failed_clicks t pre' excs' ++ [PClick sel t (Some e)]
  | _, _ => []
  end.

(** How [safe_fill] fails on one selector: the click raises, or the
    click goes through and the fill raises. *)
Definition failed_fill (value : str) (t : N) (sel : str)
    (x : PwExc + PwExc) : plog :=
  match x with
  | inl e => [PClick sel t (Some e)]
  | inr e => [PFill sel value t (Some e); PClick sel t None]
  end.

Fixpoint failed_fills (value : str) (t : N) (pre : list str)
    (fails : list (PwExc + PwExc)) : plog :=
  match pre, fails with
  | sel :: pre', x :: fails' =>
    failed_fills value t pre' fails' ++ failed_fill value t sel x
  | _, _ => []
  end.

(** [safe_click] tries its selectors in order, one click each, and
    stops at the first click that does not raise: it answers [True]
    then, and [False] when every click raised. *)
Theorem safe_click_stops_at_first_success (sels : list str) (t : N)
    (log : plog) :
  exists pre post excs,
    sels = pre ++ post
    /\ length excs = length pre
    /\ safe_click B sels t log
       = match post with
         | sel :: _ =>
           (PClick sel t None :: failed_clicks t pre excs ++ log, Return true)
         | [] => (failed_clicks t pre excs ++ log, Return false)
         end.
Proof.
  revert log. induction sels as [|sel sels IH]; intros log.
  - exists [], [], []. repeat split.
  - cbn [safe_click]. unfold try_except, bind, click, ret.
    destruct (br_click B log sel t) as [e|]; cbn [raised_or_unit].
    + destruct (IH (PClick sel t (Some e) :: log))
        as (pre & post & excs & Es & El & Hrun).
      exists (sel :: pre), post, (e :: excs). rewrite Hrun, Es.
      split; [reflexivity|]. split; [cbn [length]; now rewrite El|].
      cbn [failed_clicks]. rewrite <- app_assoc. reflexivity.
    + exists [], (sel :: sels), []. repeat split.
Qed.

(** [safe_fill] takes its selectors in order and fills only an
    element it has just clicked, with the given value: it stops at the
    first selector on which both the click and the fill go through and
    answers [True], and answers [False] when each selector failed at
    its click or at its fill. *)
Theorem safe_fill_fills_what_it_clicked (sels : list str) (value : str)
    (t : N) (log : plog) :
  exists pre post fails,
    sels = pre ++ post
    /\ length fails = length pre
    /\ safe_fill B sels value t log
       = match post with
         | sel :: _ =>
           (PFill sel value t None :: PClick sel t None
              :: failed_fills value t pre fails ++ log, Return true)
         | [] => (failed_fills value t pre fails ++ log, Return false)
         end.
Proof.
  revert log. induction sels as [|sel sels IH]; intros log.
  - exists [], [], []. repeat split.
  - cbn [safe_fill]. unfold try_except, bind, click, fill, ret.
    destruct (br_click B log sel t) as [e|]; cbn [raised_or_unit].
    + destruct (IH (PClick sel t (Some e) :: log))
        as (pre & post & fails & Es & El & Hrun).
      exists (sel :: pre), post, (inl e :: fails). rewrite Hrun, Es.
      split; [reflexivity|]. split; [cbn [length]; now rewrite El|].
      cbn [failed_fills failed_fill]. rewrite <- app_assoc. reflexivity.
    + destruct (br_fill B (PClick sel t None :: log) sel value t) as [e|];
        cbn [raised_or_unit].
      * destruct (IH (PFill sel value t (Some e) :: PClick sel t None :: log))
          as (pre & post & fails & Es & El & Hrun).
        exists (sel :: pre), post, (inr e :: fails). rewrite Hrun, Es.
        split; [reflexivity|]. split; [cbn [length]; now rewrite El|].
        cbn [failed_fills failed_fill]. rewrite <- app_assoc. reflexivity.
      * exists [], (sel :: sels), []. repeat split.
Qed.

Lemma ensure_logged_in_hint_idle (log : plog) :
  exists new,
    ensure_logged_in_hint B log = (new ++ log, Return tt)
    /\ forallb ev_idle new = true.
Proof.
  unfold ensure_logged_in_hint, try_except, bind, is_visible, pprint, ret.
  destruct (br_is_visible B log (u "text=Войти") 1200) as [e|[|]].
  - now eexists [_].
  - now eexists [_; _; _].
  - now eexists [_].
Qed.

(** Going to an address, settling, and hinting at the login: what
    [open_vacancy] and [run_search] do with the page. *)
Definition visit (address : str) : pio PwExc unit :=
  goto B address ;;; wait_settle B 20000 ;;; ensure_logged_in_hint B.

(** The calls after a navigation that returned: the two calls of
    [wait_settle], the second of which may raise, and then the calls of
    the login hint. *)
Definition settled (idle : plog) (r : result PwExc unit) : Prop :=
  exists hint l w,
    idle = hint ++ [PWaitTimeout 500 w; PWaitLoadState 20000 l]
    /\ forallb ev_idle hint = true
    /\ r = raised_or_unit w
    /\ (w <> None -> hint = []).

Lemma settled_idle (idle : plog) (r : result PwExc unit) :
  settled idle r -> forallb ev_idle idle = true.
Proof.
  intros (hint & l & w & -> & Hh & _). now rewrite forallb_app, Hh.
Qed.

Lemma visit_trace (address : str) (log : plog) :
  exists idle r,
    visit address log
    = (idle ++ PGoto address (br_goto B log address) :: log, r)
    /\ match br_goto B log address with
       | Some e => idle = [] /\ r = Raise e
       | None => settled idle r
       end.
Proof.
  unfold visit, bind at 1. unfold goto.
  destruct (br_goto B log address) as [e|]; cbn [raised_or_unit].
  - now exists [], (Raise e).
  - unfold bind.
    destruct (wait_settle_spec B 20000 (PGoto address None :: log))
      as (l & w & H1). rewrite H1. destruct w as [e|]; cbn [raised_or_unit].
    + exists [PWaitTimeout 500 (Some e); PWaitLoadState 20000 l], (Raise e).
      split; [reflexivity|]. exists [], l, (Some e). repeat split.
    + destruct (ensure_logged_in_hint_idle
                  ([PWaitTimeout 500 None; PWaitLoadState 20000 l]
                     ++ PGoto address None :: log))
        as (n2 & H2 & Q2). rewrite H2.
      exists (n2 ++ [PWaitTimeout 500 None; PWaitLoadState 20000 l]),
        (Return tt).
      rewrite <- !app_assoc. split; [reflexivity|].
      exists n2, l, None. repeat split; [exact Q2 | congruence].
Qed.

(** [open_vacancy] makes one navigation, to the address of the
    vacancy, as its first call, and no click and no fill.  It raises
    exactly when that navigation raises or when, after it, the
    [wait_for_timeout] of [wait_settle] raises, and makes no call after
    the one that raised; what the load-state wait and the login check
    raise is swallowed. *)
Theorem open_vacancy_navigates_once (v : Vacancy) (log : plog) :
  exists idle answer,
    fst (open_vacancy B v log) = idle ++ PGoto (url v) answer :: log
    /\ forallb ev_idle idle = true
    /\ match answer with
       | Some e => idle = [] /\ snd (open_vacancy B v log) = Raise e
       | None =>
         exists hint l w,
           idle = hint ++ [PWaitTimeout 500 w; PWaitLoadState 20000 l]
           /\ snd (open_vacancy B v log) = raised_or_unit w
           /\ (w <> None -> hint = [])
       end.
Proof.
  destruct (visit_trace (url v) log) as (idle & r & Hrun & Hr).
  change (open_vacancy B v log) with (visit (url v) log). rewrite Hrun.
  exists idle, (br_goto B log (url v)). cbn [fst snd].
  split; [reflexivity|].
  destruct (br_goto B log (url v)) as [e|].
  - destruct Hr as [-> ->]. repeat split.
  - split; [exact (settled_idle Hr)|].
    destruct Hr as (hint & l & w & -> & _ & -> & Hw).
    exists hint, l, w. repeat split. exact Hw.
Qed.

(** *** The calls of [respond_to_vacancy] *)

(** A call [respond_to_vacancy] may make for the vacancy [v]: a
    navigation to its address; a click on a respond or a letter control
    or, when [submit] is set, on a send control; a fill of a letter
    control with [letter]. *)
Definition respond_call (v : Vacancy) (letter : str) (submit : bool)
    (ev : page_event PwExc) : bool :=
  match ev with
  | @PGoto _ address _ => str_eqb address (url v)
  | @PClick _ sel _ _ =>
    existsb (str_eqb sel) RESPOND_SELECTORS
    || existsb (str_eqb sel) LETTER_CONTROLS
    || (submit && existsb (str_eqb sel) SEND_SELECTORS)
  | @PFill _ sel value _ _ =>
    existsb (str_eqb sel) LETTER_CONTROLS && str_eqb value letter
  | _ => true
  end.

(** A call made before a respond control went through. *)
Definition early_call (v : Vacancy) (ev : page_event PwExc) : bool :=
  match ev with
  | @PGoto _ address _ => str_eqb address (url v)
  | @PClick _ sel _ _ => existsb (str_eqb sel) RESPOND_SELECTORS
  | @PFill _ _ _ _ _ => false
  | _ => true
  end.

(** A click on one of [sels], or a fill of one of them with [letter]. *)
Definition letter_call (sels : list str) (letter : str)
    (ev : page_event PwExc) : bool :=
  match ev with
  | @PClick _ sel _ _ => existsb (str_eqb sel) sels
  | @PFill _ sel value _ _ => existsb (str_eqb sel) sels && str_eqb value letter
  | _ => false
  end.

Definition not_send (ev : page_event PwExc) : bool :=
  negb (ev_click_in SEND_SELECTORS ev).

Lemma no_send (new : plog) :
  forallb not_send new = true ->
  existsb (ev_click_in SEND_SELECTORS) new = false.
Proof.
  intros H. apply (existsb_none _ _ _ H). intros ev Hev.
  now apply negb_true_iff.
Qed.

Lemma idle_early (v : Vacancy) (ev : page_event PwExc) :
  ev_idle ev = true -> early_call v ev = true.
Proof. now destruct ev. Qed.

Lemma respond_early (v : Vacancy) (ev : page_event PwExc) :
  ev_click_in RESPOND_SELECTORS ev = true -> early_call v ev = true.
Proof. now destruct ev. Qed.

Lemma early_respond (v : Vacancy) (letter : str) (submit : bool)
    (ev : page_event PwExc) :
  early_call v ev = true -> respond_call v letter submit ev = true.
Proof.
  destruct ev; try discriminate; cbn [early_call respond_call]; auto.
  now intros ->.
Qed.

Lemma early_not_send (v : Vacancy) (ev : page_event PwExc) :
  early_call v ev = true -> not_send ev = true.
Proof.
  destruct ev; try reflexivity. cbn [early_call not_send ev_click_in].
  intros H. apply negb_true_iff.
  apply (in_other RESPOND_SELECTORS); [vm_compute; reflexivity | exact H].
Qed.

Lemma early_not_letter (v : Vacancy) (ev : page_event PwExc) :
  early_call v ev = true -> ev_letter LETTER_CONTROLS ev = false.
Proof.
  destruct ev; try reflexivity; try discriminate.
  cbn [early_call ev_letter]. intros H.
  apply (in_other RESPOND_SELECTORS); [vm_compute; reflexivity | exact H].
Qed.

Lemma letter_respond (v : Vacancy) (sels : list str) (letter : str)
    (submit : bool) (ev : page_event PwExc) :
  (forall sel, existsb (str_eqb sel) sels = true ->
               existsb (str_eqb sel) LETTER_CONTROLS = true) ->
  letter_call sels letter ev = true -> respond_call v letter submit ev = true.
Proof.
  intros Hsub. destruct ev; try discriminate;
    cbn [letter_call respond_call]; intros H.
  - now rewrite (Hsub _ H), orb_true_r.
  - apply andb_prop in H. destruct H as [H ->]. now rewrite (Hsub _ H).
Qed.

Lemma letter_not_send (sels : list str) (letter : str)
    (ev : page_event PwExc) :
  disjoint sels SEND_SELECTORS = true ->
  letter_call sels letter ev = true -> not_send ev = true.
Proof.
  intros Hdis. destruct ev; try reflexivity.
  cbn [letter_call not_send ev_click_in]. intros H.
  apply negb_true_iff. now apply (in_other sels).
Qed.

Lemma send_respond (v : Vacancy) (letter : str) (ev : page_event PwExc) :
  ev_click_in SEND_SELECTORS ev = true ->
  respond_call v letter true ev = true.
Proof.
  destruct ev; try discriminate. cbn [ev_click_in respond_call andb].
  intros ->. apply orb_true_r.
Qed.

Lemma in_letter_controls (sel : str) :
  existsb (str_eqb sel) LETTER_SELECTORS = true ->
  existsb (str_eqb sel) LETTER_CONTROLS = true.
Proof.
  intros H. unfold LETTER_CONTROLS. now rewrite existsb_app, H.
Qed.

Lemma in_editable (sel : str) :
  existsb (str_eqb sel) [EDITABLE] = true ->
  existsb (str_eqb sel) LETTER_CONTROLS = true.
Proof.
  intros H. unfold LETTER_CONTROLS. now rewrite existsb_app, H, orb_true_r.
Qed.

Lemma letter_call_cons (sel : str) (sels : list str) (letter : str)
    (ev : page_event PwExc) :
  letter_call sels letter ev = true ->
  letter_call (sel :: sels) letter ev = true.
Proof.
  destruct ev; try discriminate; cbn [letter_call existsb]; intros H.
  - now rewrite H, orb_true_r.
  - apply andb_prop in H. destruct H as [-> ->]. now rewrite orb_true_r.
Qed.

(** The calls of [safe_fill]: clicks on its selectors and fills of
    them with the value. *)
Lemma safe_fill_calls (sels : list str) (value : str) (t : N) (log : plog) :
  exists new b,
    safe_fill B sels value t log = (new ++ log, Return b)
    /\ forallb (letter_call sels value) new = true
    /\ existsb (@ev_fill_ok PwExc) new = b.
Proof.
  revert log. induction sels as [|sel sels IH]; intros log.
  - exists [], false. repeat split.
  - assert (Hs : str_eqb sel sel = true) by now apply str_eqb_eq.
    assert (Hv : str_eqb value value = true) by now apply str_eqb_eq.
    cbn [safe_fill]. unfold try_except, bind, click, fill, ret.
    destruct (br_click B log sel t) as [e|] eqn:E; cbn [raised_or_unit].
    + destruct (IH (PClick sel t (Some e) :: log))
        as (new & b & Hrun & Hin & Hok).
      exists (new ++ [PClick sel t (Some e)]), b.
      rewrite Hrun, <- app_assoc. split; [reflexivity|].
      rewrite forallb_app, existsb_app, Hok.
      rewrite (forallb_weaken _ _ _ (letter_call_cons sel sels value) Hin).
      cbn. rewrite Hs. cbn. now rewrite orb_false_r.
    + destruct (br_fill B (PClick sel t None :: log) sel value t)
        as [e|] eqn:E'; cbn [raised_or_unit].
      * destruct (IH (PFill sel value t (Some e) :: PClick sel t None :: log))
          as (new & b & Hrun & Hin & Hok).
        exists (new ++ [PFill sel value t (Some e); PClick sel t None]), b.
        rewrite Hrun, <- app_assoc. split; [reflexivity|].
        rewrite forallb_app, existsb_app, Hok.
        rewrite (forallb_weaken _ _ _ (letter_call_cons sel sels value) Hin).
        cbn. rewrite Hs, Hv. cbn. now rewrite orb_false_r.
      * exists [PFill sel value t None; PClick sel t None], true.
        cbn. now rewrite Hs, Hv.
Qed.

Lemma fill_editable_calls (letter : str) (log : plog) :
  exists new b,
    fill_editable B letter false log = (new ++ log, Return b)
    /\ forallb (letter_call [EDITABLE] letter) new = true
    /\ existsb (@ev_fill_ok PwExc) new = b.
Proof.
  assert (Hs : str_eqb EDITABLE EDITABLE = true) by now apply str_eqb_eq.
  assert (Hv : str_eqb letter letter = true) by now apply str_eqb_eq.
  unfold fill_editable, try_except, bind, click, fill, ret.
  destruct (br_click B log EDITABLE 6000) as [e|]; cbn [raised_or_unit].
  - eexists [_], false. split; [reflexivity|].
    cbn [app forallb existsb letter_call ev_fill_ok]. now rewrite Hs.
  - destruct (br_fill B (PClick EDITABLE 6000 None :: log) EDITABLE letter
                6000) as [e|]; cbn [raised_or_unit].
    + eexists [_; _], false. split; [reflexivity|].
      cbn [app forallb existsb letter_call ev_fill_ok]. now rewrite Hs, Hv.
    + eexists [_; _], true. split; [reflexivity|].
      cbn [app forallb existsb letter_call ev_fill_ok]. now rewrite Hs, Hv.
Qed.

Lemma visit_early (v : Vacancy) (log : plog) :
  exists new r,
    open_vacancy B v log = (new ++ log, r)
    /\ forallb (early_call v) new = true.
Proof.
  assert (Hs : str_eqb (url v) (url v) = true) by now apply str_eqb_eq.
  destruct (visit_trace (url v) log) as (idle & r & Hrun & Hr).
  change (open_vacancy B v log) with (visit (url v) log). rewrite Hrun.
  exists (idle ++ [PGoto (url v) (br_goto B log (url v))]), r.
  rewrite <- app_assoc. split; [reflexivity|].
  rewrite forallb_app. cbn [forallb early_call]. rewrite Hs, !andb_true_r.
  destruct (br_goto B log (url v)) as [e|].
  - now destruct Hr as [-> _].
  - exact (forallb_weaken _ _ _ (idle_early v) (settled_idle Hr)).
Qed.

Lemma existsb_mid (A : Type) (f : A -> bool) (a m b : list A) :
  existsb f m = true -> existsb f (a ++ m ++ b) = true.
Proof.
  intros H. now rewrite !existsb_app, H, orb_true_r.
Qed.

(** The calls of one [respond_to_vacancy]. *)
Lemma respond_trace (v : Vacancy) (letter : str) (submit : bool)
    (log0 : plog) :
  exists new r,
    respond_to_vacancy B v letter submit log0 = (new ++ log0, r)
    /\ forallb (respond_call v letter submit) new = true
    /\ (respond_clicked new = false -> forallb (early_call v) new = true)
    /\ (existsb (ev_click_in SEND_SELECTORS) new = true ->
        submit = true /\ letter_filled new = true).
Proof.
  unfold respond_to_vacancy. unfold bind at 1.
  destruct (visit_early v log0) as (n1 & r1 & H1 & E1).
  rewrite H1.
  pose proof (forallb_weaken _ _ _ (early_respond v letter submit) E1) as R1.
  pose proof (forallb_weaken _ _ _ (early_not_send v) E1) as S1.
  destruct r1 as [e|[]].
  { exists n1, (Raise e). split; [reflexivity|]. split; [exact R1|].
    split; [now intros _|]. rewrite (no_send _ S1). discriminate. }
  unfold bind at 1.
  destruct (safe_click_spec B RESPOND_SELECTORS 12000 (n1 ++ log0))
    as (n2 & clicked & H2 & I2 & O2 & _).
  rewrite H2.
  pose proof (forallb_weaken _ _ _ (respond_early v) I2) as E2.
  pose proof (forallb_weaken _ _ _ (early_respond v letter submit) E2) as R2.
  pose proof (forallb_weaken _ _ _ (early_not_send v) E2) as S2.
  destruct clicked; cbn [negb].
  2: { eexists (PPrint PwExc _ :: n2 ++ n1), (Return false).
       split; [unfold bind, pprint, ret; cbn [app];
               now rewrite <- !app_assoc|].
       cbn [forallb existsb respond_call early_call ev_click_in orb andb].
       rewrite !forallb_app, R1, R2, E1, E2.
       split; [reflexivity|]. split; [reflexivity|].
       rewrite existsb_app, (no_send _ S1), (no_send _ S2). discriminate. }
  assert (Hclicked : forall a : plog,
            respond_clicked (a ++ n2 ++ n1) = true).
  { intros a. unfold respond_clicked. now apply existsb_mid. }
  unfold bind at 1.
  destruct (wait_settle_spec B 20000 (n2 ++ n1 ++ log0)) as (l3 & w3 & H3).
  rewrite H3. set (n3 := [PWaitTimeout 500 w3; PWaitLoadState 20000 l3]).
  assert (E3 : forallb (early_call v) n3 = true) by reflexivity.
  pose proof (forallb_weaken _ _ _ (early_respond v letter submit) E3) as R3.
  pose proof (forallb_weaken _ _ _ (early_not_send v) E3) as S3.
  destruct w3 as [e|]; cbn [raised_or_unit].
  { exists (n3 ++ n2 ++ n1), (Raise e).
    split; [now rewrite <- !app_assoc|].
    split; [now rewrite !forallb_app, R3, R2, R1|]. split.
    - intros Hno. rewrite Hclicked in Hno. discriminate Hno.
    - rewrite !existsb_app, (no_send _ S3), (no_send _ S2), (no_send _ S1).
      discriminate. }
  unfold bind at 1.
  destruct (safe_fill_calls LETTER_SELECTORS letter 12000
              (n3 ++ n2 ++ n1 ++ log0)) as (n4 & filled & H4 & I4 & O4).
  rewrite H4.
  pose proof (forallb_weaken _ _ _
                (fun ev => letter_respond v LETTER_SELECTORS letter submit
                             ev in_letter_controls) I4) as R4.
  pose proof (forallb_weaken _ _ _
                (fun ev => letter_not_send LETTER_SELECTORS letter ev
                             ltac:(vm_compute; reflexivity)) I4) as S4.
  unfold bind at 1.
  assert (Hfb : exists n5 filled',
    (if negb filled
     then try_except (click B EDITABLE 6000 ;;;
                      fill B EDITABLE letter 6000 ;;; ret true)
                     (fun _ => ret filled)
     else ret filled) (n4 ++ n3 ++ n2 ++ n1 ++ log0)
    = (n5 ++ n4 ++ n3 ++ n2 ++ n1 ++ log0, Return filled')
    /\ forallb (respond_call v letter submit) n5 = true
    /\ forallb not_send n5 = true
    /\ (filled' = true -> existsb (@ev_fill_ok PwExc) (n5 ++ n4) = true)).
  { destruct filled; cbn [negb].
    - exists [], true. split; [reflexivity|]. repeat split. intros _.
      exact O4.
    - destruct (fill_editable_calls letter (n4 ++ n3 ++ n2 ++ n1 ++ log0))
        as (n5 & b & H5 & I5 & O5).
      exists n5, b. split; [exact H5|].
      split; [exact (forallb_weaken _ _ _
                       (fun ev => letter_respond v [EDITABLE] letter submit
                                    ev in_editable) I5)|].
      split; [exact (forallb_weaken _ _ _
                       (fun ev => letter_not_send [EDITABLE] letter ev
                                    ltac:(vm_compute; reflexivity)) I5)|].
      intros ->. now rewrite existsb_app, O5. }
  destruct Hfb as (n5 & filled' & H5 & R5 & S5 & O5). rewrite H5. clear H5.
  assert (Rall : forallb (respond_call v letter submit)
                   (n5 ++ n4 ++ n3 ++ n2 ++ n1) = true)
    by now rewrite !forallb_app, R5, R4, R3, R2, R1.
  assert (Sall : existsb (ev_click_in SEND_SELECTORS)
                   (n5 ++ n4 ++ n3 ++ n2 ++ n1) = false).
  { apply no_send. now rewrite !forallb_app, S5, S4, S3, S2, S1. }
  assert (Hquiet : forall line : str,
    exists new,
      (pprint line ;;; ret true) (n5 ++ n4 ++ n3 ++ n2 ++ n1 ++ log0)
      = (new ++ log0, Return true)
      /\ forallb (respond_call v letter submit) new = true
      /\ (respond_clicked new = false -> forallb (early_call v) new = true)
      /\ (existsb (ev_click_in SEND_SELECTORS) new = true ->
          submit = true /\ letter_filled new = true)).
  { intros line. exists (PPrint PwExc line :: n5 ++ n4 ++ n3 ++ n2 ++ n1).
    split; [unfold bind, pprint, ret; cbn [app];
            now rewrite <- !app_assoc|].
    split; [cbn [forallb respond_call]; exact Rall|].
    split.
    - intros Hno.
      replace (PPrint PwExc line :: n5 ++ n4 ++ n3 ++ n2 ++ n1)
        with ((PPrint PwExc line :: n5 ++ n4 ++ n3) ++ n2 ++ n1) in Hno
        by (cbn [app]; now rewrite <- !app_assoc).
      rewrite Hclicked in Hno. discriminate Hno.
    - cbn [existsb ev_click_in orb]. rewrite Sall. discriminate. }
  destruct filled'; cbn [negb].
  2: { destruct (Hquiet (u "[warn] Не удалось вставить письмо. Оставил страницу открытой: " ++ url v))
         as (new & Hrun & Hnew).
       exists new, (Return true). split; [exact Hrun | exact Hnew]. }
  destruct submit; cbn [negb].
  2: { destruct (Hquiet (u "[ok] Письмо вставлено (НЕ отправлено). Проверьте и отправьте вручную: " ++ url v))
         as (new & Hrun & Hnew).
       exists new, (Return true). split; [exact Hrun | exact Hnew]. }
  clear Hquiet. unfold bind at 1.
  destruct (safe_click_spec B SEND_SELECTORS 9000
              (n5 ++ n4 ++ n3 ++ n2 ++ n1 ++ log0))
    as (n6 & sent & H6 & I6 & O6 & _).
  rewrite H6.
  pose proof (forallb_weaken _ _ _ (send_respond v letter) I6) as R6.
  exists (PPrint PwExc (if sent then u "[ok] Отклик отправлен: " ++ url v
                        else u "[warn] Не нашёл финальную кнопку отправки. Проверьте вручную: " ++ url v)
          :: n6 ++ n5 ++ n4 ++ n3 ++ n2 ++ n1), (Return sent).
  split.
  { destruct sent; unfold bind, pprint, ret; cbn [app];
      now rewrite <- !app_assoc. }
  split; [cbn [forallb respond_call]; now rewrite forallb_app, R6, Rall|].
  split.
  - intros Hno.
    replace (PPrint PwExc (if sent then u "[ok] Отклик отправлен: " ++ url v
                           else u "[warn] Не нашёл финальную кнопку отправки. Проверьте вручную: " ++ url v)
             :: n6 ++ n5 ++ n4 ++ n3 ++ n2 ++ n1)
      with ((PPrint PwExc (if sent then u "[ok] Отклик отправлен: " ++ url v
                           else u "[warn] Не нашёл финальную кнопку отправки. Проверьте вручную: " ++ url v)
             :: n6 ++ n5 ++ n4 ++ n3) ++ n2 ++ n1) in Hno
      by (cbn [app]; now rewrite <- !app_assoc).
    rewrite Hclicked in Hno. discriminate Hno.
  - intros _. split; [reflexivity|]. unfold letter_filled.
    cbn [existsb]. rewrite existsb_app, (app_assoc n5 n4), existsb_app.
    rewrite (O5 eq_refl). cbn [orb]. now rewrite orb_true_r.
Qed.

(** [respond_to_vacancy] goes to no address but the vacancy's, clicks
    only respond and letter controls and, when [submit] is set, send
    controls, and fills only letter controls, only with the letter it
    was given.  With [submit] off it never clicks a send control. *)
Theorem respond_touches_only_its_controls (v : Vacancy) (letter : str)
    (submit : bool) (log0 : plog) :
  exists new,
    fst (respond_to_vacancy B v letter submit log0) = new ++ log0
    /\ forallb (respond_call v letter submit) new = true
    /\ (submit = false ->
        existsb (ev_click_in SEND_SELECTORS) new = false).
Proof.
  destruct (respond_trace v letter submit log0)
    as (new & r & Hrun & Hcalls & _ & Hsend).
  exists new. rewrite Hrun. split; [reflexivity|]. split; [exact Hcalls|].
  intros ->. destruct (existsb (ev_click_in SEND_SELECTORS) new);
    [|reflexivity].
  now destruct (Hsend eq_refl).
Qed.

(** The steps of [respond_to_vacancy] come in order: a letter control
    is clicked or filled only after a respond control went through, and
    a send control is clicked only with [submit] set, after a respond
    control went through and a fill of the letter went through. *)
Theorem respond_steps_in_order (v : Vacancy) (letter : str)
    (submit : bool) (log0 : plog) :
  exists new,
    fst (respond_to_vacancy B v letter submit log0) = new ++ log0
    /\ (existsb (ev_letter LETTER_CONTROLS) new = true ->
        respond_clicked new = true)
    /\ (existsb (ev_click_in SEND_SELECTORS) new = true ->
        submit = true /\ respond_clicked new = true
        /\ letter_filled new = true).
Proof.
  destruct (respond_trace v letter submit log0)
    as (new & r & Hrun & _ & Hearly & Hsend).
  exists new. rewrite Hrun. split; [reflexivity|].
  destruct (respond_clicked new) eqn:Ec.
  - split; [reflexivity|]. intros H. destruct (Hsend H). now repeat split.
  - specialize (Hearly eq_refl). split; intros H; exfalso.
    + rewrite (existsb_none _ _ _ Hearly (early_not_letter v)) in H.
      discriminate H.
    + rewrite (no_send _ (forallb_weaken _ _ _ (early_not_send v) Hearly))
        in H.
      discriminate H.
Qed.

End PageTraces.

(** ** Running a search *)

(** What [run_search] raises: the exception of [build_search_url], or
    one of the page. *)
Inductive search_error (PwExc : Type) :=
| AddressError
| PageError (e : PwExc).

Arguments AddressError {PwExc}.
Arguments PageError {PwExc} e.

Section RunSearch.
Variable U : Unicode.
Variable bracketed_ok : str -> bool.
Variable nfkc_ok : str -> bool.
Variable PwExc : Type.
Variable B : browser PwExc.

(** What the collector finds on the page after the calls of the log:
    [Raise e] when [anchors.count()], its one call outside every [try],
    raises [e]; else the search page as its other calls answer. *)
Variable content : list (page_event PwExc) -> result PwExc search_page.

Definition run_search (query : str) (page_num : N) (area : option N)
    (experience : option str) (remote : bool) (salary : option N)
    (only_with_salary : bool) (log : list (page_event PwExc))
    : list (page_event PwExc) * result (search_error PwExc) (list Vacancy) :=
  match build_search_url bracketed_ok nfkc_ok query page_num area experience
          remote salary only_with_salary with
  | None => (log, Raise AddressError)
  | Some address =>
    match (goto B address ;;; wait_settle B 20000 ;;;
           ensure_logged_in_hint B) log with
    | (log', Raise e) => (log', Raise (PageError e))
    | (log', Return _) =>
      (log',
       match content log' with
       | Raise e => Raise (PageError e)
       | Return page => Return (collect_vacancies_from_search U page)
       end)
    end
  end.

(** [run_search] makes no call on the page when the address cannot be
    built.  Otherwise it navigates once, to the address
    [build_search_url] gives, as its first call, and makes no click and
    no fill.  It raises exactly when that navigation raises, when the
    [wait_for_timeout] after it raises (no call follows then), or when
    [anchors.count()] raises in the collector; else it returns what the
    collector reads from the page, at most [ITEMS_ON_PAGE] records. *)
Theorem run_search_visits_listing (query : str) (page_num : N)
    (area : option N) (experience : option str) (remote : bool)
    (salary : option N) (only_with_salary : bool)
    (log : list (page_event PwExc)) :
  let run := run_search query page_num area experience remote salary
               only_with_salary log in
  match build_search_url bracketed_ok nfkc_ok query page_num area experience
          remote salary only_with_salary with
  | None => run = (log, Raise AddressError)
  | Some address =>
    exists idle answer,
      fst run = idle ++ PGoto address answer :: log
      /\ forallb (@ev_idle PwExc) idle = true
      /\ match answer with
         | Some e => idle = [] /\ snd run = Raise (PageError e)
         | None =>
           exists hint l w,
             idle = hint ++ [PWaitTimeout 500 w; PWaitLoadState 20000 l]
             /\ match w with
                | Some e => hint = [] /\ snd run = Raise (PageError e)
                | None =>
                  match content (fst run) with
                  | Raise e => snd run = Raise (PageError e)
                  | Return page =>
                    snd run = Return (collect_vacancies_from_search U page)
                    /\ (length (collect_vacancies_from_search U page)
                        <= ITEMS_ON_PAGE)%nat
                  end
                end
         end
  end.
Proof.
  intros run. unfold run, run_search.
  destruct (build_search_url bracketed_ok nfkc_ok query page_num area
              experience remote salary only_with_salary) as [address|];
    [|reflexivity].
  destruct (visit_trace B address log) as (idle & r & Hrun & Hr).
  change (goto B address ;;; wait_settle B 20000 ;;;
          ensure_logged_in_hint B) with (visit B address).
  rewrite Hrun. exists idle, (br_goto B log address).
  destruct (br_goto B log address) as [e|].
  - destruct Hr as [-> ->]. repeat split.
  - pose proof (settled_idle Hr) as Hidle.
    destruct Hr as (hint & l & w & -> & _ & -> & Hw).
    destruct w as [e|]; cbn [raised_or_unit fst snd].
    + split; [reflexivity|]. split; [exact Hidle|].
      exists hint, l, (Some e). split; [reflexivity|].
      split; [apply Hw; discriminate | reflexivity].
    + split; [reflexivity|]. split; [exact Hidle|].
      exists hint, l, None. split; [reflexivity|].
      destruct (content _) as [e|page]; [reflexivity|].
      split; [reflexivity|]. rewrite collect_closed_form.
      destruct (sp_appeared page); [apply firstn_le_length | cbn; lia].
Qed.

End RunSearch.
